(** * Terrain-aware pacing engine: a shallow embedding of the calculator

    The development follows the browser variant of the calculator
    (script-browser.js) function by function, and the command-line variant
    (gpx_pacing_full.js) where the two differ.

    JavaScript numbers are modelled by the type [num]: an exact rational
    ([Fin q]) or one of the three non-finite values of IEEE arithmetic.
    Rounding error of binary64 arithmetic and the sign of zero are not
    tracked: [x / 0] with [x > 0] is [+Infinity]. *)

From Stdlib Require Import String QArith Qabs Qround ZArith Bool List Lia Lqa.
Import ListNotations.

Local Open Scope Q_scope.

(** ** JavaScript numbers *)

Inductive num : Type :=
| Fin (q : Q)
| PInf
| NInf
| NaN.

Declare Scope num_scope.
Delimit Scope num_scope with num.
Bind Scope num_scope with num.

Module Num.

Definition Qltb (a b : Q) : bool := negb (Qle_bool b a).

(** Number.isFinite, and the global isFinite on a number. *)
Definition isFinite (x : num) : bool :=
  match x with Fin _ => true | _ => false end.

Definition opp (x : num) : num :=
  match x with
  | Fin q => Fin (- q)
  | PInf => NInf
  | NInf => PInf
  | NaN => NaN
  end.

Definition add (x y : num) : num :=
  match x, y with
  | NaN, _ | _, NaN => NaN
  | Fin a, Fin b => Fin (a + b)
  | PInf, NInf | NInf, PInf => NaN
  | PInf, _ | _, PInf => PInf
  | NInf, _ | _, NInf => NInf
  end.

Definition sub (x y : num) : num := add x (opp y).

(** The sign of a number, as an infinity; [NaN] for zero. *)
Definition signInf (q : Q) : num :=
  if Qltb 0 q then PInf else if Qltb q 0 then NInf else NaN.

Definition mul (x y : num) : num :=
  match x, y with
  | NaN, _ | _, NaN => NaN
  | Fin a, Fin b => Fin (a * b)
  | Fin a, PInf | PInf, Fin a => signInf a
  | Fin a, NInf | NInf, Fin a => signInf (- a)
  | PInf, PInf | NInf, NInf => PInf
  | PInf, NInf | NInf, PInf => NInf
  end.

Definition div (x y : num) : num :=
  match x, y with
  | NaN, _ | _, NaN => NaN
  | Fin a, Fin b => if Qeq_bool b 0 then signInf a else Fin (a / b)
  | Fin _, (PInf | NInf) => Fin 0
  | PInf, Fin b => if Qltb b 0 then NInf else PInf
  | NInf, Fin b => if Qltb b 0 then PInf else NInf
  | (PInf | NInf), (PInf | NInf) => NaN
  end.

(** Comparisons: every comparison with [NaN] is false. *)
Definition ltb (x y : num) : bool :=
  match x, y with
  | NaN, _ | _, NaN => false
  | Fin a, Fin b => Qltb a b
  | NInf, (Fin _ | PInf) => true
  | Fin _, PInf => true
  | _, _ => false
  end.

Definition leb (x y : num) : bool :=
  match x, y with
  | NaN, _ | _, NaN => false
  | Fin a, Fin b => Qle_bool a b
  | NInf, _ => true
  | _, PInf => true
  | _, _ => false
  end.

Definition gtb (x y : num) : bool := ltb y x.
Definition geb (x y : num) : bool := leb y x.

(** Strict equality [===] of two numbers. *)
Definition eqb (x y : num) : bool :=
  match x, y with
  | Fin a, Fin b => Qeq_bool a b
  | PInf, PInf | NInf, NInf => true
  | _, _ => false
  end.

(** Math.abs, Math.floor, Math.round (halves round up). *)
Definition abs (x : num) : num :=
  match x with
  | Fin q => Fin (Qabs q)
  | PInf | NInf => PInf
  | NaN => NaN
  end.

Definition floor (x : num) : num :=
  match x with
  | Fin q => Fin (inject_Z (Qfloor q))
  | _ => x
  end.

Definition round (x : num) : num :=
  match x with
  | Fin q => Fin (inject_Z (Qfloor (q + (1 # 2))))
  | _ => x
  end.

(** Truthiness of a number: [0] and [NaN] are falsy. *)
Definition truthy (x : num) : bool :=
  match x with
  | Fin q => negb (Qeq_bool q 0)
  | PInf | NInf => true
  | NaN => false
  end.

(** [x || 0] on a number. *)
Definition orZero (x : num) : num := if truthy x then x else Fin 0.

End Num.

Infix "+" := Num.add : num_scope.
Infix "-" := Num.sub : num_scope.
Infix "*" := Num.mul : num_scope.
Infix "/" := Num.div : num_scope.
Infix "<?" := Num.ltb : num_scope.
Infix "<=?" := Num.leb : num_scope.
Infix ">?" := Num.gtb : num_scope.
Infix ">=?" := Num.geb : num_scope.
Infix "=?" := Num.eqb : num_scope.

(** ** Slope-speed model *)

(** pickSpeedFromRange (browser) and pickSpeedFromRangeKmh (command line). *)
Definition pickSpeedFromRange (minKmh maxKmh prudence : num) : num :=
  (maxKmh - prudence * (maxKmh - minKmh))%num.

Definition is_trained (profile : string) : bool := String.eqb profile "trained".

(** calculateSpeedForSlope, script-browser.js. *)
Definition calculateSpeedForSlope
    (slopePct vFlatKmh : num) (profile : string) (prudence : num) : num :=
  if ((slopePct >=? Fin (-1)) && (slopePct <=? Fin 1))%num then vFlatKmh
  else if ((slopePct >? Fin 1) && (slopePct <=? Fin 12))%num then
    (vFlatKmh / (Fin 1 + Fin 0.04 * slopePct))%num
  else if ((slopePct >? Fin 12) && (slopePct <=? Fin 15))%num then
    if is_trained profile then pickSpeedFromRange (Fin 5.45) (Fin 6.0) prudence
    else pickSpeedFromRange (Fin 4.62) (Fin 5.45) prudence
  else if ((slopePct >? Fin 15) && (slopePct <=? Fin 20))%num then
    if is_trained profile then pickSpeedFromRange (Fin 4.80) (Fin 5.45) prudence
    else pickSpeedFromRange (Fin 4.0) (Fin 4.62) prudence
  else if (slopePct >? Fin 20)%num then
    if is_trained profile then pickSpeedFromRange (Fin 4.0) (Fin 4.62) prudence
    else pickSpeedFromRange (Fin 3.33) (Fin 4.0) prudence
  else
    let absSlope := Num.abs slopePct in
    if ((slopePct <? Fin (-1)) && (slopePct >=? Fin (-3)))%num then
      (vFlatKmh / (Fin 1 - Fin 0.02 * absSlope))%num
    else if ((slopePct <? Fin (-3)) && (slopePct >=? Fin (-4)))%num then
      (vFlatKmh / ((Fin 1 - Fin 0.02 * absSlope) * Fin 1.05))%num
    else if ((slopePct <? Fin (-4)) && (slopePct >=? Fin (-6)))%num then
      (vFlatKmh / ((Fin 1 - Fin 0.02 * absSlope) * Fin 1.10))%num
    else if ((slopePct <? Fin (-6)) && (slopePct >=? Fin (-8)))%num then
      pickSpeedFromRange (Fin 5.45) (Fin 6.67) prudence
    else if ((slopePct <? Fin (-8)) && (slopePct >=? Fin (-12)))%num then
      pickSpeedFromRange (Fin 4.62) (Fin 6.0) prudence
    else if (slopePct <? Fin (-12))%num then
      pickSpeedFromRange (Fin 4.0) (Fin 5.45) prudence
    else vFlatKmh.

(** speedForSlopeKmh, gpx_pacing_full.js: the last bracket is the fall
    through, without its own test. *)
Definition speedForSlopeKmh
    (pctSlope vFlatKmh : num) (profile : string) (prudence : num) : num :=
  if ((pctSlope >=? Fin (-1)) && (pctSlope <=? Fin 1))%num then vFlatKmh
  else if ((pctSlope >? Fin 1) && (pctSlope <=? Fin 12))%num then
    (vFlatKmh / (Fin 1 + Fin 0.04 * pctSlope))%num
  else if ((pctSlope >? Fin 12) && (pctSlope <=? Fin 15))%num then
    if is_trained profile then pickSpeedFromRange (Fin 5.45) (Fin 6.0) prudence
    else pickSpeedFromRange (Fin 4.62) (Fin 5.45) prudence
  else if ((pctSlope >? Fin 15) && (pctSlope <=? Fin 20))%num then
    if is_trained profile then pickSpeedFromRange (Fin 4.80) (Fin 5.45) prudence
    else pickSpeedFromRange (Fin 4.0) (Fin 4.62) prudence
  else if (pctSlope >? Fin 20)%num then
    if is_trained profile then pickSpeedFromRange (Fin 4.0) (Fin 4.62) prudence
    else pickSpeedFromRange (Fin 3.33) (Fin 4.0) prudence
  else
    let absP := Num.abs pctSlope in
    if ((pctSlope <? Fin (-1)) && (pctSlope >=? Fin (-3)))%num then
      (vFlatKmh / (Fin 1 - Fin 0.02 * absP))%num
    else if ((pctSlope <? Fin (-3)) && (pctSlope >=? Fin (-4)))%num then
      (vFlatKmh / ((Fin 1 - Fin 0.02 * absP) * Fin 1.05))%num
    else if ((pctSlope <? Fin (-4)) && (pctSlope >=? Fin (-6)))%num then
      (vFlatKmh / ((Fin 1 - Fin 0.02 * absP) * Fin 1.10))%num
    else if ((pctSlope <? Fin (-6)) && (pctSlope >=? Fin (-8)))%num then
      pickSpeedFromRange (Fin 5.45) (Fin 6.67) prudence
    else if ((pctSlope <? Fin (-8)) && (pctSlope >=? Fin (-12)))%num then
      pickSpeedFromRange (Fin 4.62) (Fin 6.0) prudence
    else pickSpeedFromRange (Fin 4.0) (Fin 5.45) prudence.

(** The table of the specification, over the rationals: one constructor per
    row, each with the bounds of its bracket as the table writes them. *)
Module Table.

Definition range_pick (minKmh maxKmh caution : Q) : Q :=
  maxKmh - caution * (maxKmh - minKmh).

Inductive profile := trained | standard.

Definition by_profile {A} (p : profile) (t s : A) : A :=
  match p with trained => t | standard => s end.

Definition name (p : profile) : string :=
  match p with trained => "trained" | standard => "standard" end.

(** [value slope flat p caution r]: the table gives [r]. *)
Inductive value (slope flat : Q) (p : profile) (caution : Q) : Q -> Prop :=
| row_flat :            (* [-1, 1] *)
    -1 <= slope <= 1 ->
    value slope flat p caution flat
| row_up_1_12 :         (* (1, 12] *)
    1 < slope <= 12 ->
    value slope flat p caution (flat / (1 + 0.04 * slope))
| row_up_12_15 :        (* (12, 15] *)
    12 < slope <= 15 ->
    value slope flat p caution
      (by_profile p (range_pick 5.45 6.00 caution) (range_pick 4.62 5.45 caution))
| row_up_15_20 :        (* (15, 20] *)
    15 < slope <= 20 ->
    value slope flat p caution
      (by_profile p (range_pick 4.80 5.45 caution) (range_pick 4.00 4.62 caution))
| row_up_20 :           (* (20, inf) *)
    20 < slope ->
    value slope flat p caution
      (by_profile p (range_pick 4.00 4.62 caution) (range_pick 3.33 4.00 caution))
| row_down_3_1 :        (* [-3, -1) *)
    -3 <= slope < -1 ->
    value slope flat p caution (flat / (1 - 0.02 * Qabs slope))
| row_down_4_3 :        (* [-4, -3) *)
    -4 <= slope < -3 ->
    value slope flat p caution (flat / ((1 - 0.02 * Qabs slope) * 1.05))
| row_down_6_4 :        (* [-6, -4) *)
    -6 <= slope < -4 ->
    value slope flat p caution (flat / ((1 - 0.02 * Qabs slope) * 1.10))
| row_down_8_6 :        (* [-8, -6) *)
    -8 <= slope < -6 ->
    value slope flat p caution (range_pick 5.45 6.67 caution)
| row_down_12_8 :       (* [-12, -8) *)
    -12 <= slope < -8 ->
    value slope flat p caution (range_pick 4.62 6.00 caution)
| row_down_12 :         (* (-inf, -12) *)
    slope < -12 ->
    value slope flat p caution (range_pick 4.00 5.45 caution).

End Table.

(** ** Errors

    A thrown exception ends the computation. [OutOfFuel] marks a loop of the
    model that was cut before the source loop ended. *)

Inductive error : Type :=
| NotEnoughPoints      (* "Pas assez de points trouvés dans le GPX" *)
| InvalidTimeFormat    (* "Format de temps invalide" *)
| StopTimeExceedsTarget (* "Le temps d'arrêt total dépasse le temps cible." *)
| ObjectiveTooFast     (* "Objective seems too fast", command line only *)
| TypeError            (* a field read on undefined *)
| OutOfFuel.

Inductive result (A : Type) : Type :=
| Ok (a : A)
| Error (e : error).

Arguments Ok {A} a.
Arguments Error {A} e.

Definition bind {A B} (c : result A) (k : A -> result B) : result B :=
  match c with
  | Ok a => k a
  | Error e => Error e
  end.

Notation "'bind!' p <- c ; k" := (bind c (fun p => k))
  (at level 10, p pattern, c at level 100, k at level 200).

Definition ofOption {A} (e : error) (o : option A) : result A :=
  match o with Some a => Ok a | None => Error e end.

(** ** Track data *)

Record Point : Type := mkPoint {
  lat : num;
  lon : num;
  ele : num
}.

(** A point after smoothing: the elevation may be the null marker. *)
Record SmoothedPoint : Type := mkSmoothedPoint {
  slat : num;
  slon : num;
  sele : option num
}.

(** [null] in arithmetic is [0]. *)
Definition ofNullable (x : option num) : num :=
  match x with Some v => v | None => Fin 0 end.

Record Resampled : Type := mkResampled {
  rindex : nat;
  distanceM : num;
  rlat : num;
  rlon : num;
  rele : num
}.

Record Segment : Type := mkSegment {
  index : nat;
  fromM : num;
  toM : num;
  lengthM : num;
  deltaElevM : num;
  slopePct : num
}.

(** A segment with its speed and its time rounded to the second. The pace
    string is presentation and is left out. *)
Record DetailedSegment : Type := mkDetailed {
  seg : Segment;
  speedKmh : num;
  timeSec : num
}.

(** parseGpxFile, after the pattern matching: [found] holds the lat, lon and
    ele attributes of every track point as parseFloat read them ([None] for a
    point without ele). Points without finite coordinates are dropped, a
    missing or non-finite elevation is 0. *)
Definition parseGpxFile (found : list (num * num * option num)) : result (list Point) :=
  let points :=
    flat_map (fun '(la, lo, e) =>
      let ele := match e with Some v => v | None => Fin 0 end in
      let eleValue := if Num.isFinite ele then ele else Fin 0 in
      if Num.isFinite la && Num.isFinite lo then [mkPoint la lo eleValue] else [])
      found in
  if (length points <? 2)%nat then Error NotEnoughPoints else Ok points.

(** parseTimeToSeconds: [parts] are the pieces of the time string between
    colons, each read by parseInt ([NaN] when it is no number). *)
Definition parseTimeToSeconds (parts : list num) : result num :=
  match parts with
  | [h; m] => Ok (h * Fin 3600 + m * Fin 60)%num
  | [h; m; s] => Ok (h * Fin 3600 + m * Fin 60 + s)%num
  | _ => Error InvalidTimeFormat
  end.

(** ** Elevation conditioning *)

(** The first loop of fillMissingElevation, from index 0 upwards. *)
Fixpoint fillForward (last : option num) (filled : list num) : list num :=
  match filled with
  | [] => []
  | x :: rest =>
      if Num.isFinite x then x :: fillForward (Some x) rest
      else match last with
           | Some v => v :: fillForward last rest
           | None => x :: fillForward last rest
           end
  end.

(** The second loop runs from the last index downwards. *)
Definition fillBackward (filled : list num) : list num :=
  rev (fillForward None (rev filled)).

Definition fillMissingElevation (elevations : list num) : list num :=
  map (fun v => if Num.isFinite v then v else Fin 0)
      (fillBackward (fillForward None elevations)).

(** fillMissing of the command line script is the same function. *)
Definition fillMissing := fillMissingElevation.

(** smoothElevation: centred moving average; an index without a finite
    neighbour yields null. *)
Definition windowIndices (len half i : nat) : list nat :=
  filter (fun j => (j <? len)%nat) (seq (i - half) (i + half + 1 - (i - half))).

Definition smoothAt (elevations : list num) (half i : nat) : option num :=
  let '(sum, count) :=
    fold_left
      (fun '(sum, count) j =>
         let e := nth j elevations NaN in
         if Num.isFinite e then ((sum + e)%num, S count) else (sum, count))
      (windowIndices (length elevations) half i) (Fin 0, O) in
  if (0 <? count)%nat then Some (sum / Fin (inject_Z (Z.of_nat count)))%num else None.

Definition smoothElevation (elevations : list num) (windowSize : nat) : list (option num) :=
  if (windowSize =? 1)%nat then map Some elevations
  else
    let half := (windowSize / 2)%nat in
    map (smoothAt elevations half) (seq 0 (length elevations)).

(** ** Resampling *)

(** [for (let d = 0; d < total; d += stepM) targets.push(d)] *)
Fixpoint targetsLoop (fuel : nat) (d total stepM : num) : result (list num) :=
  if (d <? total)%num then
    match fuel with
    | O => Error OutOfFuel
    | S fuel' =>
        bind! rest <- targetsLoop fuel' (d + stepM)%num total stepM ;
        Ok (d :: rest)
    end
  else Ok [].

(** [while (j < cum.length && cum[j] < target) j++], on the entries from
    index [j] on. *)
Fixpoint advance (fromJ : list num) (j : nat) (target : num) : nat :=
  match fromJ with
  | [] => j
  | c :: rest => if (c <? target)%num then advance rest (S j) target else j
  end.

(** An array read: out of range it is undefined, NaN in arithmetic. *)
Definition at_ (a : list num) (j : nat) : num := nth j a NaN.

(** One round of the main loop of resamplePoints for target number [i]:
    returns the new pointer and the resampled point. *)
Definition resampleOne (points : list SmoothedPoint) (cum : list num)
    (j i : nat) (target : num) : result (nat * Resampled) :=
  let j := advance (skipn j cum) j target in
  let j := if (length cum <=? j)%nat then (length cum - 1)%nat else j in
  match j with
  | O => Error TypeError  (* points[-1] is undefined, or the arrays are empty *)
  | S j0 =>
      let d0 := at_ cum j0 in
      let d1 := at_ cum j in
      let t := if (d1 =? d0)%num then Fin 0 else ((target - d0) / (d1 - d0))%num in
      bind! p0 <- ofOption TypeError (nth_error points j0) ;
      bind! p1 <- ofOption TypeError (nth_error points j) ;
      let lat := (slat p0 + (slat p1 - slat p0) * t)%num in
      let lon := (slon p0 + (slon p1 - slon p0) * t)%num in
      let ele := (ofNullable (sele p0)
                  + (ofNullable (sele p1) - ofNullable (sele p0)) * t)%num in
      Ok (j, mkResampled i target lat lon ele)
  end.

Fixpoint resampleLoop (points : list SmoothedPoint) (cum : list num)
    (j i : nat) (targets : list num) : result (list Resampled) :=
  match targets with
  | [] => Ok []
  | target :: rest =>
      bind! (j', r) <- resampleOne points cum j i target ;
      bind! rs <- resampleLoop points cum j' (S i) rest ;
      Ok (r :: rs)
  end.

Definition resamplePoints (fuel : nat) (points : list SmoothedPoint)
    (cumulativeDistances : list num) (stepM : num) : result (list Resampled) :=
  let total := at_ cumulativeDistances (length cumulativeDistances - 1) in
  bind! targets0 <- targetsLoop fuel (Fin 0) total stepM ;
  let targets := targets0 ++ [total] in
  resampleLoop points cumulativeDistances 1 0 targets.

(** The segments between consecutive resampled points. *)
Definition makeSegment (i : nat) (a b : Resampled) : Segment :=
  let distM := (distanceM b - distanceM a)%num in
  let deltaElev := (rele b - rele a)%num in
  let slopePct := if (distM >? Fin 0)%num then (deltaElev / distM * Fin 100)%num else Fin 0 in
  mkSegment (i - 1) (distanceM a) (distanceM b) distM deltaElev slopePct.

Fixpoint segmentsFrom (i : nat) (a : Resampled) (rest : list Resampled) : list Segment :=
  match rest with
  | [] => []
  | b :: rest' => makeSegment i a b :: segmentsFrom (S i) b rest'
  end.

Definition createSegments (resampled : list Resampled) : list Segment :=
  match resampled with
  | [] => []
  | a :: rest => segmentsFrom 1 a rest
  end.

(** ** Moving time and calibration *)

(** The loop of calculateMovingTimeForVflat, with the running total. *)
Fixpoint movingTimeLoop (segments : list Segment) (vFlatKmh : num)
    (profile : string) (prudence : num) (totalTime : num) : num :=
  match segments with
  | [] => totalTime
  | s :: rest =>
      let distKm := (lengthM s / Fin 1000)%num in
      let speed := calculateSpeedForSlope (slopePct s) vFlatKmh profile prudence in
      if negb (Num.isFinite speed) || (speed <=? Fin 0)%num then PInf
      else movingTimeLoop rest vFlatKmh profile prudence
             (totalTime + distKm / speed * Fin 3600)%num
  end.

Definition calculateMovingTimeForVflat (segments : list Segment) (vFlatKmh : num)
    (profile : string) (prudence : num) : num :=
  movingTimeLoop segments vFlatKmh profile prudence (Fin 0).

(** The loop of findVflatForTargetTime; [iterations] rounds remain. *)
Fixpoint bisectLoop (segments : list Segment) (targetMovingTimeSec : num)
    (profile : string) (prudence : num) (iterations : nat) (lo hi : num) : num * num :=
  match iterations with
  | O => (lo, hi)
  | S n =>
      let mid := ((lo + hi) / Fin 2)%num in
      let timeMid := calculateMovingTimeForVflat segments mid profile prudence in
      if (timeMid >? targetMovingTimeSec)%num
      then bisectLoop segments targetMovingTimeSec profile prudence n mid hi
      else bisectLoop segments targetMovingTimeSec profile prudence n lo mid
  end.

Definition findVflatForTargetTime (segments : list Segment) (targetMovingTimeSec : num)
    (profile : string) (prudence : num) (vMin vMax : num) (iterations : nat) : num :=
  let '(lo, hi) :=
    bisectLoop segments targetMovingTimeSec profile prudence iterations vMin vMax in
  ((lo + hi) / Fin 2)%num.

(** The defaults of the signature: vMin = 3, vMax = 25, iterations = 40. *)
Definition findVflatDefault (segments : list Segment) (targetMovingTimeSec : num)
    (profile : string) (prudence : num) : num :=
  findVflatForTargetTime segments targetMovingTimeSec profile prudence (Fin 3) (Fin 25) 40.

(** The calibration of the command line script: the same loop on the time
    function built with speedForSlopeKmh, after a feasibility test on the
    upper bound. *)
Fixpoint movingTimeLoopCli (segments : list Segment) (vFlatKmh : num)
    (profile : string) (prudence : num) (t : num) : num :=
  match segments with
  | [] => t
  | s :: rest =>
      let distKm := (lengthM s / Fin 1000)%num in
      let v := speedForSlopeKmh (slopePct s) vFlatKmh profile prudence in
      if negb (Num.isFinite v) || (v <=? Fin 0)%num then PInf
      else movingTimeLoopCli rest vFlatKmh profile prudence
             (t + distKm / v * Fin 3600)%num
  end.

Definition movingTimeForVflatSec (baseSegments : list Segment) (profile : string)
    (prudence : num) (vFlatKmh : num) : num :=
  movingTimeLoopCli baseSegments vFlatKmh profile prudence (Fin 0).

Fixpoint bisectLoopCli (baseSegments : list Segment) (movingTargetSec : num)
    (profile : string) (prudence : num) (iters : nat) (lo hi : num) : num * num :=
  match iters with
  | O => (lo, hi)
  | S n =>
      let mid := ((lo + hi) / Fin 2)%num in
      let tMid := movingTimeForVflatSec baseSegments profile prudence mid in
      if (tMid >? movingTargetSec)%num
      then bisectLoopCli baseSegments movingTargetSec profile prudence n mid hi
      else bisectLoopCli baseSegments movingTargetSec profile prudence n lo mid
  end.

Definition calibrateCli (baseSegments : list Segment) (targetTotalSec totalStopSec : num)
    (profile : string) (prudence : num) (vminBound vmaxBound : num) (iters : nat)
    : result num :=
  let movingTargetSec := (targetTotalSec - totalStopSec)%num in
  if (movingTargetSec <=? Fin 0)%num then Error StopTimeExceedsTarget
  else
    let tHi := movingTimeForVflatSec baseSegments profile prudence vmaxBound in
    if (tHi >? movingTargetSec)%num then Error ObjectiveTooFast
    else
      let '(lo, hi) :=
        bisectLoopCli baseSegments movingTargetSec profile prudence iters
          vminBound vmaxBound in
      Ok ((lo + hi) / Fin 2)%num.

(** ** Elevation gain and loss on the raw points *)

(** The loop on consecutive raw elevations: (dPlus, dMinus). *)
Fixpoint gainLossFrom (prev : num) (rest : list num) (acc : num * num) : num * num :=
  match rest with
  | [] => acc
  | e :: rest' =>
      let de := (e - prev)%num in
      let '(dPlus, dMinus) := acc in
      let acc' :=
        if (de >? Fin 0)%num then ((dPlus + de)%num, dMinus)
        else if (de <? Fin 0)%num then (dPlus, (dMinus + Num.opp de)%num)
        else (dPlus, dMinus) in
      gainLossFrom e rest' acc'
  end.

Definition gainLoss (elevations : list num) : num * num :=
  match elevations with
  | [] => (Fin 0, Fin 0)
  | e0 :: rest => gainLossFrom e0 rest (Fin 0, Fin 0)
  end.

(** The totals of the command line script are taken on the smoothed
    elevations, and a delta that is not positive goes to the loss. *)
Fixpoint gainLossCliFrom (prev : num) (rest : list num) (acc : num * num) : num * num :=
  match rest with
  | [] => acc
  | e :: rest' =>
      let de := (e - prev)%num in
      let '(dPlus, dMinus) := acc in
      let acc' :=
        if (de >? Fin 0)%num then ((dPlus + de)%num, dMinus)
        else (dPlus, (dMinus + Num.opp de)%num) in
      gainLossCliFrom e rest' acc'
  end.

Definition gainLossCli (smoothed : list (option num)) : num * num :=
  match map ofNullable smoothed with
  | [] => (Fin 0, Fin 0)
  | e0 :: rest => gainLossCliFrom e0 rest (Fin 0, Fin 0)
  end.

(** The sum of a list of numbers, as reduce((s, x) => s + x, 0). *)
Definition sumNum (l : list num) : num := fold_left Num.add l (Fin 0).

(** ** Per-kilometre groups

    [perKm] is an object used as a map from the kilometre index to its
    running group. It is kept as an association list in insertion order;
    two numbers name the same property when they print the same. *)

Record KmGroup : Type := mkKmGroup {
  g_km : num;
  g_segments : list DetailedSegment;
  g_totalLengthM : num;
  g_totalTimeSec : num;
  g_dPlusM : num;
  g_dMinusM : num
}.

Record KmSummary : Type := mkKmSummary {
  k_km : num;
  k_distanceKm : num;
  k_timeSec : num;
  k_avgSpeedKmh : num;
  k_avgSlopePct : num;
  k_dPlusM : num;
  k_dMinusM : num
}.

Definition sameKey (a b : num) : bool :=
  match a, b with
  | Fin x, Fin y => Qeq_bool x y
  | PInf, PInf | NInf, NInf | NaN, NaN => true
  | _, _ => false
  end.

Definition midpointM (s : Segment) : num := ((fromM s + toM s) / Fin 2)%num.

(** [Math.floor((seg.fromM + seg.toM) / 2 / 1000)] *)
Definition kmIndexOf (d : DetailedSegment) : num :=
  Num.floor (midpointM (seg d) / Fin 1000)%num.

Definition newKmGroup (kmIndex : num) : KmGroup :=
  mkKmGroup (kmIndex + Fin 1)%num [] (Fin 0) (Fin 0) (Fin 0) (Fin 0).

Definition addToKmGroup (d : DetailedSegment) (g : KmGroup) : KmGroup :=
  let up := (deltaElevM (seg d) >? Fin 0)%num in
  mkKmGroup (g_km g)
    (g_segments g ++ [d])
    (g_totalLengthM g + lengthM (seg d))%num
    (g_totalTimeSec g + timeSec d)%num
    (if up then (g_dPlusM g + deltaElevM (seg d))%num else g_dPlusM g)
    (if up then g_dMinusM g else (g_dMinusM g + Num.opp (deltaElevM (seg d)))%num).

(** [if (!perKm[k]) perKm[k] = fresh; update perKm[k]] *)
Fixpoint upsert (key : num) (d : DetailedSegment) (perKm : list (num * KmGroup))
    : list (num * KmGroup) :=
  match perKm with
  | [] => [(key, addToKmGroup d (newKmGroup key))]
  | (k, g) :: rest =>
      if sameKey k key then (k, addToKmGroup d g) :: rest
      else (k, g) :: upsert key d rest
  end.

Definition groupPerKm (detailedSegments : list DetailedSegment) : list (num * KmGroup) :=
  fold_left (fun perKm d => upsert (kmIndexOf d) d perKm) detailedSegments [].

(** Object.values: the properties whose name is an array index come first,
    in ascending order, the others follow in insertion order. *)
Definition isArrayIndex (k : num) : bool :=
  match k with
  | Fin q => Qeq_bool q (inject_Z (Qfloor q)) && Qle_bool 0 q
             && Num.Qltb q (inject_Z 4294967295)
  | _ => false
  end.

Fixpoint insertByKey {A} (e : num * A) (sorted : list (num * A)) : list (num * A) :=
  match sorted with
  | [] => [e]
  | x :: rest =>
      if (fst e <? fst x)%num then e :: x :: rest else x :: insertByKey e rest
  end.

Definition objectValues {A} (obj : list (num * A)) : list A :=
  map snd
    (fold_right insertByKey [] (filter (fun e => isArrayIndex (fst e)) obj)
     ++ filter (fun e => negb (isArrayIndex (fst e))) obj).

Definition summarizeKm (km : KmGroup) : KmSummary :=
  let distKm := (g_totalLengthM km / Fin 1000)%num in
  let avgSpeed :=
    if (distKm >? Fin 0)%num then (distKm / (g_totalTimeSec km / Fin 3600))%num
    else Fin 0 in
  let avgSlopePct :=
    if (distKm >? Fin 0)%num then
      (fold_left
         (fun sum d => (sum + slopePct (seg d) * (lengthM (seg d) / Fin 1000))%num)
         (g_segments km) (Fin 0) / distKm)%num
    else Fin 0 in
  mkKmSummary (g_km km) distKm (Num.round (g_totalTimeSec km)) avgSpeed avgSlopePct
    (Num.round (g_dPlusM km)) (Num.round (g_dMinusM km)).

Definition perKmArrayOf (detailedSegments : list DetailedSegment) : list KmSummary :=
  map summarizeKm (objectValues (groupPerKm detailedSegments)).

(** ** Stages *)

Record Step : Type := mkStep {
  st_index : nat;
  st_fromKm : num;
  st_toKm : num;
  st_distanceKm : num;
  st_dPlusM : num;
  st_dMinusM : num;
  st_movingSec : num;
  st_stopSec : num;
  st_totalSec : num;
  st_avgSpeedKmh : num
}.

(** [sort((a, b) => a - b)]: [a] stays before [b] unless [a - b > 0]. *)
Fixpoint insertNum (x : num) (sorted : list num) : list num :=
  match sorted with
  | [] => [x]
  | y :: rest =>
      if (x - y >? Fin 0)%num then y :: insertNum x rest else x :: y :: rest
  end.

Definition sortNum (l : list num) : list num := fold_right insertNum [] l.

Fixpoint uniqueLoop (last : option num) (boundariesKm : list num) : list num :=
  match boundariesKm with
  | [] => []
  | b :: rest =>
      match last with
      | None => b :: uniqueLoop (Some b) rest
      | Some l =>
          if (Num.abs (l - b) >? Fin 0.001)%num then b :: uniqueLoop (Some b) rest
          else uniqueLoop last rest
      end
  end.

Definition uniqueBoundariesOf (checkpoints : list (num * num)) (totalDistanceKm : num)
    : list num :=
  uniqueLoop None (sortNum (Fin 0 :: map fst checkpoints ++ [totalDistanceKm])).

(** The segments of a stage: the midpoint lies in [fromM, toM). *)
Definition inStage (fromM toM : num) (d : DetailedSegment) : bool :=
  let mid := midpointM (seg d) in
  ((mid >=? fromM) && (mid <? toM))%num.

Definition makeStep (rawPoints : list Point) (cumulativeDistancesRaw : list num)
    (detailedSegments : list DetailedSegment) (checkpoints : list (num * num))
    (i : nat) (fromKm toKm : num) : Step :=
  let fromM := (fromKm * Fin 1000)%num in
  let toM := (toKm * Fin 1000)%num in
  let stepPoints :=
    filter (fun '(c, _) =>
              let cumDistKm := (c / Fin 1000)%num in
              ((cumDistKm >=? fromKm) && (cumDistKm <=? toKm))%num)
           (combine cumulativeDistancesRaw rawPoints) in
  let '(stepDPlus, stepDMinus) := gainLoss (map (fun cp => ele (snd cp)) stepPoints) in
  let stepSegments := filter (inStage fromM toM) detailedSegments in
  let stepLengthM := sumNum (map (fun d => lengthM (seg d)) stepSegments) in
  let stepMovingSec := sumNum (map timeSec stepSegments) in
  let stopSec :=
    match find (fun cp => (Num.abs (fst cp - toKm) <? Fin 0.1)%num) checkpoints with
    | Some cp => (Num.orZero (snd cp) * Fin 60)%num
    | None => Fin 0
    end in
  let stepDistKm := (stepLengthM / Fin 1000)%num in
  let stepAvgSpeed :=
    if (stepDistKm >? Fin 0)%num then (stepDistKm / (stepMovingSec / Fin 3600))%num
    else Fin 0 in
  mkStep (i + 1) fromKm toKm stepDistKm (Num.round stepDPlus) (Num.round stepDMinus)
    (Num.round stepMovingSec) stopSec (Num.round (stepMovingSec + stopSec)%num)
    stepAvgSpeed.

(** The loop over the pairs of consecutive boundaries. *)
Fixpoint stepsFrom (rawPoints : list Point) (cumulativeDistancesRaw : list num)
    (detailedSegments : list DetailedSegment) (checkpoints : list (num * num))
    (i : nat) (fromKm : num) (rest : list num) : list Step :=
  match rest with
  | [] => []
  | toKm :: rest' =>
      makeStep rawPoints cumulativeDistancesRaw detailedSegments checkpoints i fromKm toKm
      :: stepsFrom rawPoints cumulativeDistancesRaw detailedSegments checkpoints
           (S i) toKm rest'
  end.

Definition buildSteps (rawPoints : list Point) (cumulativeDistancesRaw : list num)
    (detailedSegments : list DetailedSegment) (checkpoints : list (num * num))
    (uniqueBoundaries : list num) : list Step :=
  match uniqueBoundaries with
  | [] => []
  | b0 :: rest =>
      stepsFrom rawPoints cumulativeDistancesRaw detailedSegments checkpoints 0 b0 rest
  end.

(** ** The whole computation *)

(** The totals of the result. Where the source stores a formatted time, the
    record keeps the number of seconds that is formatted. *)
Record Totals : Type := mkTotals {
  totalDistanceKm : num;
  dPlusM : num;
  dMinusM : num;
  dPlusMAllPoints : num;
  dMinusMAllPoints : num;
  targetTotal : num;
  stopTime : num;
  movingTarget : num;
  computedMoving : num;
  computedTotal : num;
  avgPaceMinPerKm : num;
  avgEffortPaceMinPerKm : num;
  effortDistanceKm : num
}.

Record PacingResult : Type := mkPacingResult {
  totals : Totals;
  vFlatKmh : num;
  steps : list Step;
  perKm : list KmSummary;
  per250m : list DetailedSegment
}.

Definition detailSegment (vFlatKmh : num) (profile : string) (prudence : num)
    (s : Segment) : DetailedSegment :=
  let speed := calculateSpeedForSlope (slopePct s) vFlatKmh profile prudence in
  let distKm := (lengthM s / Fin 1000)%num in
  let timeSec := (distKm / speed * Fin 3600)%num in
  mkDetailed s speed (Num.round timeSec).

(** Steps 3 and 4: the elevations filled, smoothed and put back on the
    points. *)
Definition conditionPoints (rawPoints : list Point) (smoothingWindow : nat)
    : list SmoothedPoint :=
  let eleRaw := map ele rawPoints in
  let eleFilled := fillMissingElevation eleRaw in
  let eleSmoothed := smoothElevation eleFilled smoothingWindow in
  map (fun '(p, e) => mkSmoothedPoint (lat p) (lon p) e)
      (combine rawPoints eleSmoothed).

(** Step 8: the planned stop time, in seconds. *)
Definition totalStopSecOf (checkpoints : list (num * num)) (restPeriods : num * num)
    : num :=
  let checkpointStopSec :=
    fold_left (fun sum cp => (sum + Num.orZero (snd cp) * Fin 60)%num)
              checkpoints (Fin 0) in
  let restStopSec :=
    (Num.orZero (fst restPeriods) * Num.orZero (snd restPeriods) * Fin 60)%num in
  (checkpointStopSec + restStopSec)%num.

Section Geodesy.

(** haversineDistance reads the latitude and longitude of two points and
    goes through sine, cosine, arc tangent and square root; it is kept
    abstract. *)
Variable haversineDistance : num * num -> num * num -> num.

Fixpoint cumulativeFrom (prev : num * num) (acc : num) (rest : list (num * num))
    : list num :=
  match rest with
  | [] => []
  | p :: rest' =>
      let d := (acc + haversineDistance prev p)%num in
      d :: cumulativeFrom p d rest'
  end.

(** [cumulativeDistances = [0]; for i >= 1 push(cum[i-1] + dist)] *)
Definition cumulativeDistancesOf (latlons : list (num * num)) : list num :=
  Fin 0 :: match latlons with
           | [] => []
           | p :: rest => cumulativeFrom p (Fin 0) rest
           end.

(** Step 5 on the conditioned points. *)
Definition cumulativeOfPoints (points : list SmoothedPoint) : list num :=
  cumulativeDistancesOf (map (fun p => (slat p, slon p)) points).

(** Steps 10 to 17, once the stop time check has passed. *)
Definition finishPacing (rawPoints : list Point) (totalDistanceKm : num)
    (segments : list Segment) (targetTotalSec totalStopSec : num)
    (profile : string) (prudence : num) (checkpoints : list (num * num))
    : PacingResult :=
  let '(dPlusTotal, dMinusTotal) := gainLoss (map ele rawPoints) in
  let targetMovingSec := (targetTotalSec - totalStopSec)%num in
  (* 10. *)
  let vFlatKmh := findVflatDefault segments targetMovingSec profile prudence in
  (* 11. *)
  let detailedSegments := map (detailSegment vFlatKmh profile prudence) segments in
  (* 12. *)
  let perKmArray := perKmArrayOf detailedSegments in
  (* 13. *)
  let cumulativeDistancesRaw :=
    cumulativeDistancesOf (map (fun p => (lat p, lon p)) rawPoints) in
  (* 14. *)
  let uniqueBoundaries := uniqueBoundariesOf checkpoints totalDistanceKm in
  let steps :=
    buildSteps rawPoints cumulativeDistancesRaw detailedSegments checkpoints
      uniqueBoundaries in
  (* 15. *)
  let computedMovingSec := sumNum (map timeSec detailedSegments) in
  let computedTotalSec := (computedMovingSec + totalStopSec)%num in
  let dPlusTotalFromSteps := sumNum (map st_dPlusM steps) in
  let dMinusTotalFromSteps := sumNum (map st_dMinusM steps) in
  (* 16, 17. *)
  let avgPace :=
    if (totalDistanceKm >? Fin 0)%num
    then (targetTotalSec / Fin 60 / totalDistanceKm)%num else Fin 0 in
  let effortDistanceKm := (totalDistanceKm + dPlusTotalFromSteps / Fin 100)%num in
  let avgEffortPace :=
    if (effortDistanceKm >? Fin 0)%num
    then (targetTotalSec / Fin 60 / effortDistanceKm)%num else Fin 0 in
  mkPacingResult
    (mkTotals totalDistanceKm
       (Num.round dPlusTotalFromSteps) (Num.round dMinusTotalFromSteps)
       (Num.round dPlusTotal) (Num.round dMinusTotal)
       targetTotalSec totalStopSec targetMovingSec
       computedMovingSec computedTotalSec
       avgPace avgEffortPace effortDistanceKm)
    vFlatKmh steps perKmArray detailedSegments.

(** calculatePacing. Step 2, the gain and loss on the raw points, has no
    effect before the result is built and is computed in [finishPacing]. *)
Definition calculatePacing (fuel : nat) (found : list (num * num * option num))
    (targetTime : list num) (profile : string) (prudence : num)
    (checkpoints : list (num * num)) (restPeriods : num * num)
    (segmentLengthM : num) (smoothingWindow : nat) : result PacingResult :=
  (* 1. *)
  bind! rawPoints <- parseGpxFile found ;
  (* 3, 4. *)
  let points := conditionPoints rawPoints smoothingWindow in
  (* 5. *)
  let cumulativeDistances := cumulativeOfPoints points in
  let totalDistanceM := at_ cumulativeDistances (length cumulativeDistances - 1) in
  let totalDistanceKm := (totalDistanceM / Fin 1000)%num in
  (* 6, 7. *)
  bind! resampledPoints <-
    resamplePoints fuel points cumulativeDistances segmentLengthM ;
  let segments := createSegments resampledPoints in
  (* 8. *)
  let totalStopSec := totalStopSecOf checkpoints restPeriods in
  (* 9. *)
  bind! targetTotalSec <- parseTimeToSeconds targetTime ;
  let targetMovingSec := (targetTotalSec - totalStopSec)%num in
  if (targetMovingSec <=? Fin 0)%num then Error StopTimeExceedsTarget
  else
    Ok (finishPacing rawPoints totalDistanceKm segments targetTotalSec
          totalStopSec profile prudence checkpoints).

End Geodesy.

(** ** Reference definitions for the statements *)

(** The nearest finite entry at an index at most [i], if any. *)
Fixpoint nearestBefore (l : list num) (i : nat) : option num :=
  match l with
  | [] => None
  | x :: rest =>
      let here := if Num.isFinite x then Some x else None in
      match i with
      | O => here
      | S i' => match nearestBefore rest i' with
                | Some v => Some v
                | None => here
                end
      end
  end.

(** The nearest finite entry at an index at least [i], if any. *)
Fixpoint nearestAfter (l : list num) (i : nat) : option num :=
  match l with
  | [] => None
  | x :: rest =>
      match i with
      | O => if Num.isFinite x then Some x else nearestAfter rest O
      | S i' => nearestAfter rest i'
      end
  end.

(** What the specification asks of entry [i] after filling. *)
Definition filledEntry (l : list num) (i : nat) : num :=
  match nearestBefore l i with
  | Some v => v
  | None => match nearestAfter l i with
            | Some v => v
            | None => Fin 0
            end
  end.

(** The value carried by the forward loop after a prefix. *)
Definition carried (last : option num) (prefix : list num) : option num :=
  fold_left (fun st x => if Num.isFinite x then Some x else st) prefix last.

(** One bisection step on a bracket, as the specification words it: the time
    at the midpoint decides which bound moves to the midpoint. *)
Definition midpoint (bracket : num * num) : num :=
  ((fst bracket + snd bracket) / Fin 2)%num.

Definition bisectionStep (totalTime : num -> num) (target : num)
    (bracket : num * num) : num * num :=
  if (totalTime (midpoint bracket) >? target)%num
  then (midpoint bracket, snd bracket)
  else (fst bracket, midpoint bracket).

(** A resolved speed that makes the flat speed infeasible. *)
Definition infeasibleSpeed (speed : num) : bool :=
  negb (Num.isFinite speed) || (speed <=? Fin 0)%num.

(** The time of one segment at a given speed, in seconds. *)
Definition segmentTime (s : Segment) (speed : num) : num :=
  (lengthM s / Fin 1000 / speed * Fin 3600)%num.

Definition finiteSlope (s : Segment) : Prop := Num.isFinite (slopePct s) = true.
Definition finiteLength (s : Segment) : Prop := Num.isFinite (lengthM s) = true.

(** A segment as the resampler builds it: finite slope, finite length that
    is not negative. *)
Definition wellFormedSegment (s : Segment) : Prop :=
  finiteSlope s /\ exists len, lengthM s = Fin len /\ 0 <= len.

(** On a finite slope the speed is either the flat speed over a positive
    divisor that depends on the slope only, or a speed picked in a range. *)
Inductive SpeedShape (s : Q) (profile : string) (c : Q) : Prop :=
| shape_scaled (d : Q) :
    0 < d ->
    (forall v, exists r, calculateSpeedForSlope (Fin s) (Fin v) profile (Fin c) = Fin r
                         /\ r == v / d) ->
    SpeedShape s profile c
| shape_picked (lo hi : Q) :
    0 < lo -> lo <= hi ->
    (forall v, calculateSpeedForSlope (Fin s) (Fin v) profile (Fin c)
               = Fin (hi - c * (hi - lo))) ->
    SpeedShape s profile c.

(** A width halved [k] times. *)
Fixpoint halved (w : Q) (k : nat) : Q :=
  match k with
  | O => w
  | S k' => halved w k' / 2
  end.

(** The differences of consecutive elevations. *)
Fixpoint deltasFrom (prev : num) (rest : list num) : list num :=
  match rest with
  | [] => []
  | e :: rest' => (e - prev)%num :: deltasFrom e rest'
  end.

Definition deltas (elevations : list num) : list num :=
  match elevations with
  | [] => []
  | e0 :: rest => deltasFrom e0 rest
  end.

(** Gain: the sum of the positive deltas. Loss: the sum of the absolute
    values of the negative deltas. *)
Definition gainOf (elevations : list num) : num :=
  sumNum (filter (fun d => (d >? Fin 0)%num) (deltas elevations)).

Definition lossOf (elevations : list num) : num :=
  sumNum (map Num.abs (filter (fun d => (d <? Fin 0)%num) (deltas elevations))).


(** A whole number of seconds, or a non-finite value. *)
Definition wholeOrNonFinite (x : num) : Prop :=
  Num.isFinite x = false \/ exists z : Z, x = Fin (inject_Z z).

(** The sum of the rounded times of the segments of one kilometre index. *)
Definition segmentsOfKm (kmIndex : num) (ds : list DetailedSegment)
    : list DetailedSegment :=
  filter (fun d => sameKey (kmIndexOf d) kmIndex) ds.

(** The segments of the stage between two boundaries in kilometres. *)
Definition segmentsOfStage (fromKm toKm : num) (ds : list DetailedSegment)
    : list DetailedSegment :=
  filter (inStage (fromKm * Fin 1000)%num (toKm * Fin 1000)%num) ds.

Fixpoint distinctKeys {A} (obj : list (num * A)) : Prop :=
  match obj with
  | [] => True
  | (k, _) :: rest =>
      (forall k' a', In (k', a') rest -> sameKey k k' = false) /\ distinctKeys rest
  end.

(** [obj] is the grouping of the segments [ds] by kilometre index. *)
Definition GroupsOf (ds : list DetailedSegment) (obj : list (num * KmGroup)) : Prop :=
  distinctKeys obj
  /\ (forall k g, In (k, g) obj ->
        g_km g = (k + Fin 1)%num
        /\ g_totalTimeSec g = sumNum (map timeSec (segmentsOfKm k ds)))
  /\ (forall d, In d ds -> exists k g, In (k, g) obj /\ sameKey k (kmIndexOf d) = true).

(** The targets below the total: [n] numbers from [d] on, [step] apart, and
    the number that would come next. *)
Fixpoint arith (d step : Q) (n : nat) : list Q :=
  match n with
  | O => []
  | S n' => d :: arith (d + step) step n'
  end.

Fixpoint arithEnd (d step : Q) (n : nat) : Q :=
  match n with
  | O => d
  | S n' => arithEnd (d + step) step n'
  end.

Fixpoint nondecreasing (l : list Q) : Prop :=
  match l with
  | x :: (y :: _) as rest => x <= y /\ nondecreasing rest
  | _ => True
  end.

Fixpoint increasing (l : list Q) : Prop :=
  match l with
  | x :: (y :: _) as rest => x < y /\ increasing rest
  | _ => True
  end.

(** Every interval is [step] long, except the last, which may be shorter. *)
Fixpoint evenlySpaced (step : Q) (l : list Q) : Prop :=
  match l with
  | x :: (y :: rest') as rest =>
      match rest' with
      | [] => y - x <= step
      | _ => y - x == step /\ evenlySpaced step rest
      end
  | _ => True
  end.

(** A conditioned point whose elevation is a finite number or the null
    marker. *)
Definition finiteElevation (p : SmoothedPoint) : Prop :=
  exists e, ofNullable (sele p) = Fin e.

(** The speed that the moving time loop resolves for a segment. *)
Definition resolvedSpeed (v : num) (profile : string) (c : num) (s : Segment) : num :=
  calculateSpeedForSlope (slopePct s) v profile c.

(** ** A small track, to run the definitions on *)

Module Demo.

(** Distances along the equator, 100 km per degree of longitude: a stand-in
    for haversineDistance. *)
Definition distance (a b : num * num) : num :=
  (Num.abs (snd b - snd a) * Fin 100000)%num.

(** Three track points 300 m apart; the last has no elevation. *)
Definition found : list (num * num * option num) :=
  [ (Fin 0, Fin 0, Some (Fin 100));
    (Fin 0, Fin 0.003, Some (Fin 130));
    (Fin 0, Fin 0.006, None) ].

Definition rawPoints : list Point :=
  [ mkPoint (Fin 0) (Fin 0) (Fin 100);
    mkPoint (Fin 0) (Fin 0.003) (Fin 130);
    mkPoint (Fin 0) (Fin 0.006) (Fin 0) ].

Definition points : list SmoothedPoint := conditionPoints rawPoints 3.

Definition cumulativeDistances : list num := cumulativeOfPoints distance points.

Definition resampledPoints : list Resampled :=
  Eval vm_compute in
    match resamplePoints 10 points cumulativeDistances (Fin 250) with
    | Ok out => out
    | Error _ => []
    end.

Definition segments : list Segment := createSegments resampledPoints.

(** "01:00", one checkpoint at 0.3 km with a stop of 5 minutes, no rest. *)
Definition targetTime : list num := [Fin (inject_Z 1); Fin (inject_Z 0)].
Definition checkpoints : list (num * num) := [(Fin 0.3, Fin 5)].
Definition restPeriods : num * num := (Fin 0, Fin 0).

(** The same with a stop of 60 minutes. *)
Definition longStop : list (num * num) := [(Fin 0.3, Fin 60)].

Definition run (checkpoints : list (num * num)) : result PacingResult :=
  calculatePacing distance 10 found targetTime "trained" (Fin 0.5)
    checkpoints restPeriods (Fin 250) 3.

Definition pacing : PacingResult :=
  finishPacing distance rawPoints
    (at_ cumulativeDistances (length cumulativeDistances - 1) / Fin 1000)%num
    segments (Fin 3600) (Fin 300) "trained" (Fin 0.5) checkpoints.

(** Two segments of 250 m, one climbing at 5 %, one descending at 7 %. *)
Definition twoSegments : list Segment :=
  [ mkSegment 0 (Fin 0) (Fin 250) (Fin 250) (Fin 12.5) (Fin 5);
    mkSegment 1 (Fin 250) (Fin 500) (Fin 250) (Fin (-17.5)) (Fin (-7)) ].

(** Five detailed segments of 400 m with their rounded times, over two
    kilometres. *)
Definition detailedOf (i : nat) (fromM toM time : Q) : DetailedSegment :=
  mkDetailed (mkSegment i (Fin fromM) (Fin toM) (Fin (toM - fromM)) (Fin 4) (Fin 1))
    (Fin 10) (Fin time).

Definition fiveDetailed : list DetailedSegment :=
  [ detailedOf 0 0 400 144; detailedOf 1 400 800 150; detailedOf 2 800 1200 139;
    detailedOf 3 1200 1600 161; detailedOf 4 1600 2000 144 ].

End Demo.

(** ** Reference definitions for the track conditioning *)

(** A track point that parseGpxFile keeps: both coordinates are finite. *)
Definition keptTrackPoint (found : num * num * option num) : bool :=
  let '(la, lo, _) := found in Num.isFinite la && Num.isFinite lo.

(** The elevation that parseGpxFile stores: the one read when it is a finite
    number, 0 otherwise. *)
Definition elevationOrZero (e : option num) : num :=
  match e with
  | Some (Fin q) => Fin q
  | _ => Fin 0
  end.

Definition finitePoint (p : Point) : Prop :=
  exists la lo e, p = mkPoint (Fin la) (Fin lo) (Fin e).

(** A pair of finite coordinates. *)
Definition finiteCoordinates (p : num * num) : Prop :=
  exists la lo, p = (Fin la, Fin lo).

(** ** Presentation and command line helpers

    The functions below format times and paces, classify slopes, and read
    the command line. Strings are strings of bytes; [String(n)] is modelled
    on whole numbers below 10^21 and on the non-finite numbers, which is
    what the callers print. *)

From Stdlib Require Import Ascii.
From Stdlib Require DecimalString DecimalNat.

(** Math.min and Math.max of two numbers. *)
Definition mathMin (x y : num) : num :=
  match x, y with
  | NaN, _ | _, NaN => NaN
  | _, _ => if (y <? x)%num then y else x
  end.

Definition mathMax (x y : num) : num :=
  match x, y with
  | NaN, _ | _, NaN => NaN
  | _, _ => if (x <? y)%num then y else x
  end.

(** The quotient truncated towards zero. *)
Definition truncate (q : Q) : Z :=
  if Num.Qltb q 0 then Qceiling q else Qfloor q.

(** The remainder [x % y]: it has the sign of the dividend. *)
Definition remainder (x y : num) : num :=
  match x, y with
  | Fin a, Fin b =>
      if Qeq_bool b 0 then NaN else Fin (a - b * inject_Z (truncate (a / b)))
  | Fin a, (PInf | NInf) => Fin a
  | _, _ => NaN
  end.

(** clamp01, the same in both variants. *)
Definition clamp01 (x : num) : num :=
  if negb (Num.isFinite x) then Fin 0.5
  else mathMax (Fin 0) (mathMin (Fin 1) x).

(** getSlopeClass, script-browser.js. *)
Definition getSlopeClass (slopePct : num) : string :=
  if negb (Num.isFinite slopePct) then "slope-plat"
  else if ((slopePct >=? Fin (-1)) && (slopePct <=? Fin 1))%num then "slope-plat"
  else if ((slopePct >? Fin 1) && (slopePct <=? Fin 12))%num then "slope-montee-legere"
  else if ((slopePct >? Fin 12) && (slopePct <=? Fin 15))%num then "slope-montee-moderee"
  else if ((slopePct >? Fin 15) && (slopePct <=? Fin 20))%num then "slope-montee-forte"
  else if (slopePct >? Fin 20)%num then "slope-montee-tres-forte"
  else if ((slopePct <? Fin (-1)) && (slopePct >=? Fin (-3)))%num
    then "slope-descente-legere"
  else if ((slopePct <? Fin (-3)) && (slopePct >=? Fin (-4)))%num
    then "slope-descente-moderee"
  else if ((slopePct <? Fin (-4)) && (slopePct >=? Fin (-6)))%num
    then "slope-descente-forte"
  else if ((slopePct <? Fin (-6)) && (slopePct >=? Fin (-8)))%num
    then "slope-descente-tres-forte"
  else if ((slopePct <? Fin (-8)) && (slopePct >=? Fin (-12)))%num
    then "slope-descente-extreme"
  else if (slopePct <? Fin (-12))%num then "slope-descente-maximale"
  else "slope-plat".

(** *** Numbers as text *)

(** [String(n)] on a whole number. *)
Definition integerToString (z : Z) : string :=
  if (z <? 0)%Z
  then ("-" ++ DecimalString.NilEmpty.string_of_uint (Nat.to_uint (Z.to_nat (- z))))%string
  else DecimalString.NilEmpty.string_of_uint (Nat.to_uint (Z.to_nat z)).

Definition wholeToString (x : num) : string :=
  match x with
  | Fin q => integerToString (Qfloor q)
  | PInf => "Infinity"
  | NInf => "-Infinity"
  | NaN => "NaN"
  end.

(** [s.padStart(2, '0')] *)
Definition padStart2 (s : string) : string :=
  match String.length s with
  | O => ("00" ++ s)%string
  | S O => ("0" ++ s)%string
  | _ => s
  end.

(** pad2 of the command line script; the browser writes it out. *)
Definition pad2 (n : num) : string := padStart2 (wholeToString n).

(** [s.split(sep)] with a separator of one character. *)
Fixpoint splitOn (sep : ascii) (s : string) : list string :=
  match s with
  | EmptyString => [EmptyString]
  | String c rest =>
      if Ascii.eqb c sep then EmptyString :: splitOn sep rest
      else match splitOn sep rest with
           | [] => [String c EmptyString]
           | piece :: pieces => String c piece :: pieces
           end
  end.

(** White space that trim and parseInt skip, among the characters of one
    byte. *)
Definition isWhiteSpace (c : ascii) : bool :=
  match nat_of_ascii c with
  | 9 | 10 | 11 | 12 | 13 | 32 => true
  | _ => false
  end%nat.

Fixpoint trimStart (s : string) : string :=
  match s with
  | EmptyString => EmptyString
  | String c rest => if isWhiteSpace c then trimStart rest else s
  end.

Fixpoint trimEnd (s : string) : string :=
  match s with
  | EmptyString => EmptyString
  | String c rest =>
      match trimEnd rest with
      | EmptyString => if isWhiteSpace c then EmptyString else String c EmptyString
      | kept => String c kept
      end
  end.

Definition trim (s : string) : string := trimEnd (trimStart s).

(** The value of a decimal digit, by its character code ("0" is 48). *)
Definition digitOf (c : ascii) : option Z :=
  let code := Z.of_nat (nat_of_ascii c) in
  if ((48 <=? code) && (code <=? 57))%Z then Some (code - 48)%Z else None.

(** The value of the longest prefix of decimal digits, after [acc]. *)
Fixpoint digitsValue (s : string) (acc : Z) : Z :=
  match s with
  | EmptyString => acc
  | String c rest =>
      match digitOf c with
      | Some d => digitsValue rest (10 * acc + d)
      | None => acc
      end
  end.

Definition startsWithDigit (s : string) : bool :=
  match s with
  | String c _ => match digitOf c with Some _ => true | None => false end
  | EmptyString => false
  end.

(** [parseInt(s, 10)]: white space, a sign, then decimal digits; NaN when no
    digit follows. *)
Definition parseInt10 (s : string) : num :=
  let s := trimStart s in
  let '(sign, body) :=
    match s with
    | String "-" rest => ((-1)%Z, rest)
    | String "+" rest => (1%Z, rest)
    | _ => (1%Z, s)
    end in
  if startsWithDigit body then Fin (inject_Z (sign * digitsValue body 0)) else NaN.

(** parseTimeToSeconds of the browser on the time string itself. *)
Definition parseTimeString (timeStr : string) : result num :=
  parseTimeToSeconds (map (fun x => parseInt10 (trim x)) (splitOn ":" timeStr)).

(** *** Times and paces as text *)

(** The three numbers that formatTime prints. *)
Definition timeFields (seconds : num) : num * num * num :=
  let h := Num.floor (seconds / Fin 3600) in
  let m := Num.floor (remainder seconds (Fin 3600) / Fin 60) in
  let s := Num.round (remainder seconds (Fin 60)) in
  (h, m, s).

Definition clockText (fields : num * num * num) : string :=
  let '(h, m, s) := fields in
  (pad2 h ++ ":" ++ pad2 m ++ ":" ++ pad2 s)%string.

(** formatTime, script-browser.js. *)
Definition formatTime (seconds : num) : string := clockText (timeFields seconds).

(** formatPaceFromMinutes, script-browser.js. *)
Definition formatPaceFromMinutes (minPerKm : num) : string :=
  if negb (Num.isFinite minPerKm) || (minPerKm <=? Fin 0)%num then "N/A"
  else
    let minutes := Num.floor minPerKm in
    let decimal := (minPerKm - minutes)%num in
    let seconds := Num.round (decimal * Fin 60) in
    if (seconds =? Fin 60)%num then (pad2 (minutes + Fin 1) ++ ":00")%string
    else (pad2 minutes ++ ":" ++ pad2 seconds)%string.

(** speedToPace, script-browser.js. *)
Definition speedToPace (kmh : num) : string :=
  if negb (Num.isFinite kmh) || (kmh <=? Fin 0)%num then "N/A"
  else formatPaceFromMinutes (Fin 60 / kmh).

(** formatPaceMinKm, gpx_pacing_full.js: null instead of "N/A". *)
Definition formatPaceMinKm (vKmh : num) : option string :=
  if negb (Num.isFinite vKmh) || (vKmh <=? Fin 0)%num then None
  else
    let paceMin := (Fin 60 / vKmh)%num in
    let m := Num.floor paceMin in
    let sec := Num.round ((paceMin - m) * Fin 60) in
    let '(mm, sec) :=
      if (sec =? Fin 60)%num then ((m + Fin 1)%num, Fin 0) else (m, sec) in
    Some (pad2 mm ++ ":" ++ pad2 sec)%string.

(** The three numbers that formatHMS prints. *)
Definition hmsFields (totalSec : num) : num * num * num :=
  let s := mathMax (Fin 0) (Num.round totalSec) in
  let hh := Num.floor (s / Fin 3600) in
  let mm := Num.floor (remainder s (Fin 3600) / Fin 60) in
  let ss := remainder s (Fin 60) in
  (hh, mm, ss).

(** formatHMS, gpx_pacing_full.js. *)
Definition formatHMS (totalSec : num) : string := clockText (hmsFields totalSec).

(** *** Reading the command line *)

Inductive cliError : Type :=
| TimeShape        (* "Time must be HH:MM or HH:MM:SS" *)
| TimeInvalid      (* "Invalid time format" *)
| CheckpointShape  (* Invalid --cp, expected "<km>,<stopMin>" *)
| CheckpointKm     (* "Invalid checkpoint km" *)
| CheckpointStop   (* "Invalid checkpoint stopMin" *)
| FlagNeedsValue.  (* "<flag> requires a value" *)

(** parseTimeToSeconds, gpx_pacing_full.js: [parts] are the trimmed pieces of
    the string between colons, each converted by Number. *)
Definition parseTimeToSecondsCli (parts : list num) : cliError + num :=
  match parts with
  | [] | [_] | _ :: _ :: _ :: _ :: _ => inl TimeShape
  | hh :: mm :: rest =>
      let ss := match rest with [s] => s | _ => Fin 0 end in
      if negb (forallb Num.isFinite [hh; mm; ss])
         || (hh <? Fin 0)%num || (mm <? Fin 0)%num || (ss <? Fin 0)%num
      then inl TimeInvalid
      else inr (Num.round (hh * Fin 3600 + mm * Fin 60 + ss)%num)
  end.

(** parseCheckpoint, gpx_pacing_full.js: [parts] are the trimmed pieces of
    the argument between commas, each converted by Number. The result is the
    kilometre and the stop in seconds. *)
Definition parseCheckpoint (parts : list num) : cliError + (num * num) :=
  match parts with
  | [km; stopMin] =>
      if negb (Num.isFinite km) || (km <=? Fin 0)%num then inl CheckpointKm
      else if negb (Num.isFinite stopMin) || (stopMin <? Fin 0)%num
      then inl CheckpointStop
      else inr (km, Num.round (stopMin * Fin 60)%num)
  | _ => inl CheckpointShape
  end.

(** [!val || val.startsWith("--")] on the argument after a flag. *)
Definition noValue (val : option string) : bool :=
  match val with
  | None => true
  | Some v => String.eqb v "" || String.prefix "--" v
  end.

(** getAllArgs: the values of every occurrence of [flag], in order. *)
Fixpoint getAllArgs (flag : string) (argv : list string) : cliError + list string :=
  match argv with
  | [] => inr []
  | a :: rest =>
      if String.eqb a flag then
        match rest with
        | [] => inl FlagNeedsValue
        | val :: rest' =>
            if noValue (Some val) then inl FlagNeedsValue
            else match getAllArgs flag rest' with
                 | inr out => inr (val :: out)
                 | inl e => inl e
                 end
        end
      else getAllArgs flag rest
  end.

(** [argv.indexOf(flag)], as the arguments that follow the first occurrence. *)
Fixpoint afterFirst (flag : string) (argv : list string) : option (list string) :=
  match argv with
  | [] => None
  | a :: rest => if String.eqb a flag then Some rest else afterFirst flag rest
  end.

(** getArg: the value after the first occurrence of [flag], or [def]. *)
Definition getArg (flag def : string) (argv : list string) : string :=
  match afterFirst flag argv with
  | None => def
  | Some rest =>
      match rest with
      | val :: _ => if noValue (Some val) then def else val
      | [] => def
      end
  end.

(** round of the command line script: [Math.round(x * 10^n) / 10^n]. *)
Definition roundTo (x : num) (n : nat) : num :=
  let p := Fin (inject_Z (10 ^ Z.of_nat n)) in
  (Num.round (x * p) / p)%num.

(** The text of a pace of [m] minutes and [s] seconds, and of a time. *)
Definition paceText (m s : Z) : string :=
  (pad2 (Fin (inject_Z m)) ++ ":" ++ pad2 (Fin (inject_Z s)))%string.

Definition wholeClock (h m s : Z) : num * num * num :=
  (Fin (inject_Z h), Fin (inject_Z m), Fin (inject_Z s)).

(** A string of decimal digits only. *)
Fixpoint allDigits (s : string) : bool :=
  match s with
  | EmptyString => true
  | String c rest => startsWithDigit (String c EmptyString) && allDigits rest
  end.

(** Consecutive numbers more than [gap] apart, in increasing order. *)
Fixpoint spaced (gap : Q) (l : list Q) : Prop :=
  match l with
  | x :: (y :: _) as rest => gap < y - x /\ spaced gap rest
  | _ => True
  end.

(** A finite whole number, and its value. *)
Definition wholeFinite (x : num) : Prop := exists z : Z, x = Fin (inject_Z z).

Definition wholeValue (x : num) : Z :=
  match x with
  | Fin q => Qfloor q
  | _ => 0%Z
  end.

Definition sumZ (l : list Z) : Z := fold_right Z.add 0%Z l.

(** The running times of the groups of the kilometre object. *)
Definition groupTimes (obj : list (num * KmGroup)) : list num :=
  map (fun e => g_totalTimeSec (snd e)) obj.

(** The midpoint of a segment lies below a distance given in kilometres. *)
Definition midpointBelowKm (km : Q) (d : DetailedSegment) : bool :=
  (midpointM (seg d) <? Fin km * Fin 1000)%num.

(** A segment with a whole time and a finite midpoint that is not
    negative. *)
Definition timedSegment (d : DetailedSegment) : Prop :=
  wholeFinite (timeSec d) /\ exists mid, midpointM (seg d) = Fin mid /\ 0 <= mid.

(** The argument that follows each occurrence of [flag], none after a last
    argument: what getArg and getAllArgs are compared with. *)
Fixpoint followers (flag : string) (argv : list string) : list (option string) :=
  match argv with
  | [] => []
  | a :: rest =>
      if String.eqb a flag then hd_error rest :: followers flag rest
      else followers flag rest
  end.

(** The arguments among them. *)
Definition present (values : list (option string)) : list string :=
  flat_map (fun v => match v with Some s => [s] | None => [] end) values.

(** ** The pacing from a maximal aerobic speed (index.ts)

    The third program of the repository splits the track at given
    kilometres and paces each section from a fraction of the runner's
    maximal aerobic speed. Section labels are presentation and are left
    out. *)

Inductive vmaError : Type :=
| TooFewBoundaries          (* "Au moins 2 bornes sont nécessaires ..." *)
| BoundariesNotAscending    (* "Les bornes doivent être en ordre croissant" *)
| TooFewPoints              (* "Au moins 2 points sont nécessaires ..." *)
| VmaNotPositive            (* "La VMA doit être positive" *)
| VmaPercentOutOfRange      (* "Le pourcentage de VMA doit être entre 0 et 1" *)
| HillFactorNegative        (* "Le facteur de dénivelé doit être positif" *)
| FatigueOutOfRange         (* "Le facteur de fatigue doit être entre 0 et 1" *)
| DescentPrudenceOutOfRange.

Record SectionConfig : Type := mkSectionConfig {
  startKm : num;
  endKm : num
}.

Record SectionStats : Type := mkSectionStats {
  s_startKm : num;
  s_endKm : num;
  s_distKm : num;
  s_dPlus : num;
  s_dMinus : num
}.

Record SectionPacing : Type := mkSectionPacing {
  p_stats : SectionStats;
  p_effortKm : num;
  p_targetTimeSec : num;
  p_targetPaceMinPerKm : num
}.

(** The validation loop: some boundary is not above the one before it. *)
Fixpoint notAscending (prev : num) (rest : list num) : bool :=
  match rest with
  | [] => false
  | b :: rest' => (b <=? prev)%num || notAscending b rest'
  end.

Fixpoint sectionsFrom (start : num) (rest : list num) : list SectionConfig :=
  match rest with
  | [] => []
  | e :: rest' => mkSectionConfig start e :: sectionsFrom e rest'
  end.

(** buildSectionsFromBoundaries, index.ts. *)
Definition buildSectionsFromBoundaries (boundariesKm : list num)
    : vmaError + list SectionConfig :=
  match boundariesKm with
  | [] | [_] => inl TooFewBoundaries
  | b0 :: rest =>
      if notAscending b0 rest then inl BoundariesNotAscending
      else inr (sectionsFrom b0 rest)
  end.

(** The elevation loop of computeSectionsStats on the points of a section:
    (dPlus, dMinus). *)
Fixpoint sectionClimb (prev : num) (rest : list num) (acc : num * num) : num * num :=
  match rest with
  | [] => acc
  | e :: rest' =>
      let diff := (e - prev)%num in
      let '(dPlus, dMinus) := acc in
      let acc' :=
        if (diff >? Fin 0)%num then ((dPlus + diff)%num, dMinus)
        else if (diff <? Fin 0)%num then (dPlus, (dMinus + Num.abs diff)%num)
        else (dPlus, dMinus) in
      sectionClimb e rest' acc'
  end.

(** The statistics of one section; a point is a cumulative distance in
    kilometres with an elevation. *)
Definition sectionStatsOf (points : list (num * num)) (s : SectionConfig)
    : SectionStats :=
  let inside :=
    filter (fun p => ((fst p >=? startKm s) && (fst p <=? endKm s))%num) points in
  match inside with
  | first :: _ :: _ =>
      let lastPoint := last inside first in
      let '(dPlus, dMinus) :=
        sectionClimb (snd first) (map snd (tl inside)) (Fin 0, Fin 0) in
      mkSectionStats (startKm s) (endKm s) (fst lastPoint - fst first)%num dPlus dMinus
  | _ => mkSectionStats (startKm s) (endKm s) (Fin 0) (Fin 0) (Fin 0)
  end.

(** computeSectionsStats, index.ts. *)
Definition computeSectionsStats (points : list (num * num))
    (sections : list SectionConfig) : vmaError + list SectionStats :=
  if (length points <? 2)%nat then inl TooFewPoints
  else inr (map (sectionStatsOf points) sections).

(** The body of the map of computePacingFromVMA for one section, with the
    running total time and the accumulated fatigue. *)
Definition paceSection (vBaseKmh hillFactor fatigueFactor descentPrudence : num)
    (s : SectionStats) (state : num * num) : SectionPacing * (num * num) :=
  let '(totalTimeSec, cumulativeFatigue) := state in
  if (s_distKm s <=? Fin 0)%num then
    (mkSectionPacing s (Fin 0) (Fin 0) (Fin 0), (totalTimeSec, cumulativeFatigue))
  else
    let fatigueReduction := (Fin 1 - cumulativeFatigue)%num in
    let cumulativeFatigue := (cumulativeFatigue + fatigueFactor)%num in
    let descentReduction :=
      if (s_dMinus s >? Fin 0)%num
      then (Fin 1 - s_dMinus s / Fin 100 * descentPrudence)%num else Fin 1 in
    let vSectionKmh := (vBaseKmh * fatigueReduction * descentReduction)%num in
    let effortKm := (s_distKm s + s_dPlus s / Fin 100 * hillFactor)%num in
    let timeSec := (effortKm / vSectionKmh * Fin 3600)%num in
    let paceMinPerKm := (timeSec / Fin 60 / s_distKm s)%num in
    (mkSectionPacing s effortKm timeSec paceMinPerKm,
     ((totalTimeSec + timeSec)%num, cumulativeFatigue)).

Fixpoint paceSections (vBaseKmh hillFactor fatigueFactor descentPrudence : num)
    (sections : list SectionStats) (state : num * num)
    : list SectionPacing * (num * num) :=
  match sections with
  | [] => ([], state)
  | s :: rest =>
      let '(paced, state') :=
        paceSection vBaseKmh hillFactor fatigueFactor descentPrudence s state in
      let '(others, final) :=
        paceSections vBaseKmh hillFactor fatigueFactor descentPrudence rest state' in
      (paced :: others, final)
  end.

(** computePacingFromVMA, index.ts: the paced sections and the total time. *)
Definition computePacingFromVMA (sections : list SectionStats)
    (vmaKmh vmaPercent hillFactor fatigueFactor descentPrudence : num)
    : vmaError + (list SectionPacing * num) :=
  if (vmaKmh <=? Fin 0)%num then inl VmaNotPositive
  else if (vmaPercent <=? Fin 0)%num || (vmaPercent >? Fin 1)%num
  then inl VmaPercentOutOfRange
  else if (hillFactor <? Fin 0)%num then inl HillFactorNegative
  else if (fatigueFactor <? Fin 0)%num || (fatigueFactor >? Fin 1)%num
  then inl FatigueOutOfRange
  else if (descentPrudence <? Fin 0)%num || (descentPrudence >? Fin 1)%num
  then inl DescentPrudenceOutOfRange
  else
    let vBaseKmh := (vmaKmh * vmaPercent)%num in
    let '(paced, (totalTimeSec, _)) :=
      paceSections vBaseKmh hillFactor fatigueFactor descentPrudence sections
        (Fin 0, Fin 0) in
    inr (paced, totalTimeSec).

(** formatPace, index.ts: the minutes are not padded and a rounding up to 60
    seconds is not carried. *)
Definition formatPace (minPerKm : num) : string :=
  if (minPerKm =? Fin 0)%num || negb (Num.isFinite minPerKm) then "N/A"
  else
    let min := Num.floor minPerKm in
    let sec := Num.round ((minPerKm - min) * Fin 60) in
    (wholeToString min ++ ":" ++ pad2 sec ++ "/km")%string.

(** ** Facts on the comparisons *)

Lemma Qltb_true (a b : Q) : Num.Qltb a b = true <-> a < b.
Proof.
  unfold Num.Qltb. rewrite negb_true_iff.
  split; intro H.
  - apply Qnot_le_lt. intro L. apply Qle_bool_iff in L. congruence.
  - destruct (Qle_bool b a) eqn:E; [|reflexivity].
    apply Qle_bool_iff in E. apply Qlt_not_le in H. contradiction.
Qed.

Lemma Qltb_false (a b : Q) : Num.Qltb a b = false <-> b <= a.
Proof.
  unfold Num.Qltb. rewrite negb_false_iff. apply Qle_bool_iff.
Qed.

Lemma Qle_bool_false (a b : Q) : Qle_bool a b = false <-> b < a.
Proof.
  rewrite <- Qltb_true. unfold Num.Qltb. now rewrite negb_true_iff.
Qed.

Lemma Qeq_bool_false (a b : Q) : Qeq_bool a b = false <-> ~ a == b.
Proof.
  split; intro H.
  - now apply Qeq_bool_neq.
  - destruct (Qeq_bool a b) eqn:E; [|reflexivity].
    apply Qeq_bool_eq in E. contradiction.
Qed.

(** Turns the boolean tests in the context into facts on the rationals. *)
Ltac qfacts :=
  repeat match goal with
  | H : (_ && _)%bool = true |- _ => apply andb_true_iff in H; destruct H
  | H : (_ && _)%bool = false |- _ => apply andb_false_iff in H
  | H : Num.Qltb _ _ = true |- _ => apply Qltb_true in H
  | H : Num.Qltb _ _ = false |- _ => apply Qltb_false in H
  | H : Qle_bool _ _ = true |- _ => apply Qle_bool_iff in H
  | H : Qle_bool _ _ = false |- _ => apply Qle_bool_false in H
  | H : Qeq_bool _ _ = true |- _ => apply Qeq_bool_eq in H
  | H : Qeq_bool _ _ = false |- _ => apply Qeq_bool_false in H
  end.

(** Splits the disjunctions left by failed tests, dropping absurd cases. *)
Ltac qcases :=
  try (exfalso; lra);
  repeat match goal with
  | H : _ \/ _ |- _ => destruct H; qfacts; try (exfalso; lra)
  end.

Lemma Qabs_of_neg (s : Q) : s <= 0 -> Qabs s == - s.
Proof. apply Qabs_neg. Qed.

Lemma div_Fin (a b : Q) : ~ b == 0 -> (Fin a / Fin b)%num = Fin (a / b).
Proof.
  intro H. simpl. apply Qeq_bool_false in H. now rewrite H.
Qed.

Lemma is_trained_name (p : Table.profile) :
  is_trained (Table.name p) = match p with Table.trained => true | Table.standard => false end.
Proof. now destruct p. Qed.

(** Proves that a slope lies in a bracket of the table. *)
Ltac bracket := try split; lra.

(** Closes a row of the table: the divisor is not zero, the bracket holds. *)
Ltac table_row :=
  match goal with
  | |- exists r t, Num.div (Fin ?a) (Fin ?b) = _ /\ _ =>
      exists (a / b); eexists; split;
      [ apply div_Fin;
        let E := fresh "E" in
        intro E; try (rewrite Qabs_of_neg in E by lra); lra
      | split; [ constructor; bracket | ] ]
  | |- exists r t, _ = _ /\ _ =>
      eexists; eexists; split; [reflexivity | split; [ constructor; bracket | ] ]
  end.

Lemma speed_table_browser (s v : Q) (p : Table.profile) (c : Q) :
  exists r t, calculateSpeedForSlope (Fin s) (Fin v) (Table.name p) (Fin c) = Fin r
              /\ Table.value s v p c t /\ r == t.
Proof.
  unfold calculateSpeedForSlope. rewrite is_trained_name.
  cbn [Num.geb Num.leb Num.gtb Num.ltb Num.abs].
  repeat match goal with
  | |- exists r t, (if (?a && ?b)%bool then _ else _) = _ /\ _ =>
      destruct (a && b)%bool eqn:?
  | |- exists r t, (if Num.Qltb ?a ?b then _ else _) = _ /\ _ =>
      destruct (Num.Qltb a b) eqn:?
  end.
  all: qfacts; qcases.
  all: destruct p.
  all: cbn [Num.add Num.mul Num.sub Num.opp pickSpeedFromRange].
  all: table_row.
  all: unfold Table.by_profile, Table.range_pick; try reflexivity; try lra.
Qed.

(** ** Filling of missing elevations *)

Lemma fillForward_length (l : list num) : forall last,
  length (fillForward last l) = length l.
Proof.
  induction l as [|x l IH]; intro last; simpl; [reflexivity|].
  destruct (Num.isFinite x); [|destruct last]; simpl; now rewrite IH.
Qed.

Lemma fillBackward_length (l : list num) : length (fillBackward l) = length l.
Proof.
  unfold fillBackward. now rewrite length_rev, fillForward_length, length_rev.
Qed.

Lemma nearestBefore_finite (l : list num) : forall i v,
  nearestBefore l i = Some v -> Num.isFinite v = true.
Proof.
  induction l as [|x l IH]; intros i v; simpl; [discriminate|].
  destruct i as [|i].
  - destruct (Num.isFinite x) eqn:E; intro H; inversion H; subst; assumption.
  - destruct (nearestBefore l i) eqn:B.
    + intro H; inversion H; subst. eapply IH; eassumption.
    + destruct (Num.isFinite x) eqn:E; intro H; inversion H; subst; assumption.
Qed.

Lemma nearestAfter_finite (l : list num) : forall i v,
  nearestAfter l i = Some v -> Num.isFinite v = true.
Proof.
  induction l as [|x l IH]; intros i v; simpl; [discriminate|].
  destruct i as [|i]; [|apply IH].
  destruct (Num.isFinite x) eqn:E; [|apply IH].
  intro H; inversion H; subst; assumption.
Qed.

(** The forward loop writes the nearest finite entry seen so far, or the
    value carried in [last]; otherwise it leaves the entry. *)
Lemma fillForward_nth (l : list num) : forall last i, (i < length l)%nat ->
  nth i (fillForward last l) NaN =
  match nearestBefore l i with
  | Some v => v
  | None => match last with Some v => v | None => nth i l NaN end
  end.
Proof.
  induction l as [|x l IH]; intros last i Hi; simpl in Hi; [lia|].
  simpl. destruct (Num.isFinite x) eqn:E.
  - destruct i as [|i]; simpl; [reflexivity|].
    rewrite IH by lia. now destruct (nearestBefore l i).
  - destruct last as [v|]; (destruct i as [|i]; simpl; [reflexivity|]);
      rewrite IH by lia; now destruct (nearestBefore l i).
Qed.

Lemma fillForward_app (a b : list num) : forall last,
  fillForward last (a ++ b) = fillForward last a ++ fillForward (carried last a) b.
Proof.
  induction a as [|x a IH]; intro last; simpl; [reflexivity|].
  destruct (Num.isFinite x); [|destruct last]; now rewrite IH.
Qed.

Lemma carried_rev (l : list num) : forall last,
  carried last (rev l) =
  match nearestAfter l 0 with Some v => Some v | None => last end.
Proof.
  induction l as [|x l IH]; intro last; simpl; [reflexivity|].
  unfold carried in *. rewrite fold_left_app. simpl.
  destruct (Num.isFinite x); [reflexivity|apply IH].
Qed.

Lemma fillBackward_cons (x : num) (l : list num) :
  fillBackward (x :: l) =
  (if Num.isFinite x then x
   else match nearestAfter l 0 with Some v => v | None => x end)
  :: fillBackward l.
Proof.
  unfold fillBackward. simpl rev at 2.
  rewrite fillForward_app, rev_app_distr, carried_rev. simpl.
  destruct (Num.isFinite x); [reflexivity|].
  now destruct (nearestAfter l 0).
Qed.

Lemma nearestAfter_step (l : list num) : forall i,
  nearestAfter l i =
  if Num.isFinite (nth i l NaN) then Some (nth i l NaN) else nearestAfter l (S i).
Proof.
  induction l as [|x l IH]; intro i; [now destruct i|].
  destruct i as [|i]; simpl.
  - destruct (Num.isFinite x); [reflexivity|]. now destruct l.
  - rewrite (IH i). now destruct l.
Qed.

Lemma fillBackward_nth (l : list num) : forall i, (i < length l)%nat ->
  nth i (fillBackward l) NaN =
  match nearestAfter l i with Some v => v | None => nth i l NaN end.
Proof.
  induction l as [|x l IH]; intros i Hi; simpl in Hi; [lia|].
  rewrite fillBackward_cons. destruct i as [|i]; simpl.
  - destruct (Num.isFinite x); reflexivity.
  - apply IH. lia.
Qed.

Lemma nearestAfter_at_finite (l : list num) (i : nat) :
  Num.isFinite (nth i l NaN) = true -> nearestAfter l i = Some (nth i l NaN).
Proof. intro H. now rewrite nearestAfter_step, H. Qed.

Lemma nearestAfter_fillForward_None (l : list num) : forall i, (i < length l)%nat ->
  nearestAfter (fillForward None l) i =
  match nearestBefore l i with Some v => Some v | None => nearestAfter l i end.
Proof.
  induction l as [|x l IH]; intros i Hi; simpl in Hi; [lia|].
  destruct (Num.isFinite x) eqn:E.
  - assert (B : exists v, nearestBefore (x :: l) i = Some v).
    { destruct i; simpl; rewrite E; [eauto|].
      destruct (nearestBefore l i); eauto. }
    destruct B as [v B].
    assert (N : nth i (fillForward None (x :: l)) NaN = v).
    { rewrite fillForward_nth by (simpl; lia). now rewrite B. }
    rewrite nearestAfter_at_finite; rewrite N.
    + now rewrite B.
    + eapply nearestBefore_finite; eassumption.
  - simpl fillForward. rewrite E.
    destruct i as [|i]; simpl; rewrite E.
    + destruct l as [|y l]; [reflexivity|].
      rewrite IH by (simpl; lia). simpl.
      destruct (Num.isFinite y); reflexivity.
    + rewrite IH by lia. now destruct (nearestBefore l i).
Qed.

Lemma fillMissingElevation_length (l : list num) :
  length (fillMissingElevation l) = length l.
Proof.
  unfold fillMissingElevation.
  now rewrite length_map, fillBackward_length, fillForward_length.
Qed.

Lemma fillMissingElevation_nth (l : list num) (i : nat) : (i < length l)%nat ->
  nth i (fillMissingElevation l) NaN = filledEntry l i.
Proof.
  intro Hi. unfold fillMissingElevation, filledEntry.
  set (f := fun v => if Num.isFinite v then v else Fin 0).
  rewrite (nth_indep _ NaN (f NaN))
    by now rewrite length_map, fillBackward_length, fillForward_length.
  rewrite map_nth.
  rewrite fillBackward_nth by now rewrite fillForward_length.
  rewrite nearestAfter_fillForward_None by assumption.
  rewrite fillForward_nth by assumption.
  destruct (nearestBefore l i) as [v|] eqn:B.
  - unfold f. now rewrite (nearestBefore_finite _ _ _ B).
  - destruct (nearestAfter l i) as [v|] eqn:A.
    + unfold f. now rewrite (nearestAfter_finite _ _ _ A).
    + unfold f. rewrite nearestAfter_step in A.
      destruct (Num.isFinite (nth i l NaN)); [discriminate|reflexivity].
Qed.

Lemma filledEntry_finite (l : list num) (i : nat) :
  Num.isFinite (filledEntry l i) = true.
Proof.
  unfold filledEntry.
  destruct (nearestBefore l i) eqn:B; [eapply nearestBefore_finite; eassumption|].
  destruct (nearestAfter l i) eqn:A; [eapply nearestAfter_finite; eassumption|].
  reflexivity.
Qed.

Lemma fillMissingElevation_all_finite (l : list num) :
  Forall (fun v => Num.isFinite v = true) (fillMissingElevation l).
Proof.
  apply Forall_forall. intros v Hv.
  destruct (In_nth _ _ NaN Hv) as [i [Hi Hn]].
  rewrite fillMissingElevation_length in Hi.
  rewrite fillMissingElevation_nth in Hn by assumption.
  subst v. apply filledEntry_finite.
Qed.

(** C9. For every elevation sequence, also one without any finite entry,
    fillMissingElevation keeps the length and returns finite values only:
    entry [i] is the nearest finite entry at or before [i]; failing that, the
    nearest finite entry after [i]; failing that, 0. *)
Theorem fillMissingElevation_filled (elevations : list num) :
  length (fillMissingElevation elevations) = length elevations
  /\ Forall (fun v => Num.isFinite v = true) (fillMissingElevation elevations)
  /\ forall i, (i < length elevations)%nat ->
       nth i (fillMissingElevation elevations) NaN = filledEntry elevations i.
Proof.
  split; [apply fillMissingElevation_length|].
  split; [apply fillMissingElevation_all_finite|].
  intros i Hi. now apply fillMissingElevation_nth.
Qed.

(** ** The speed model on finite inputs *)

Lemma speed_variants_agree (s : Q) (v : num) (profile : string) (c : num) :
  speedForSlopeKmh (Fin s) v profile c = calculateSpeedForSlope (Fin s) v profile c.
Proof.
  unfold speedForSlopeKmh, calculateSpeedForSlope.
  cbn [Num.geb Num.leb Num.gtb Num.ltb Num.abs].
  repeat match goal with
  | |- (if ?b then _ else _) = (if ?b then _ else _) =>
      destruct b eqn:?; [reflexivity|]
  end.
  destruct (Num.Qltb s (-12)) eqn:?; [reflexivity|].
  exfalso. qfacts; qcases.
Qed.

(** Runs the chain of tests of the speed function with the outcomes
    recorded in the context. *)
Ltac speed_eval :=
  unfold calculateSpeedForSlope;
  cbn [Num.geb Num.leb Num.gtb Num.ltb Num.abs];
  repeat match goal with
  | H : ?b = true |- context [if ?b then _ else _] => rewrite H
  | H : ?b = false |- context [if ?b then _ else _] => rewrite H
  end.

Ltac shape_scaled_by d :=
  apply (shape_scaled _ _ _ d);
  [ qfacts; try (rewrite Qabs_of_neg by lra); lra
  | let v := fresh "v" in
    intro v; eexists; split;
    [ speed_eval; apply div_Fin; qfacts;
      let E := fresh "E" in
      intro E; try (rewrite Qabs_of_neg in E by lra); lra
    | reflexivity ] ].

Ltac shape_picked_in lo hi :=
  apply (shape_picked _ _ _ lo hi);
  [ lra | lra | let v := fresh "v" in intro v; speed_eval; reflexivity ].

Lemma speed_shape (s : Q) (profile : string) (c : Q) : SpeedShape s profile c.
Proof.
  destruct (Qle_bool (-1) s && Qle_bool s 1) eqn:R0.
  { apply (shape_scaled _ _ _ 1); [lra|].
    intro v. exists v. split; [speed_eval; reflexivity|field]. }
  destruct (Num.Qltb 1 s && Qle_bool s 12) eqn:R1.
  { shape_scaled_by (1 + 0.04 * s). }
  destruct (Num.Qltb 12 s && Qle_bool s 15) eqn:R2.
  { destruct (is_trained profile) eqn:T;
      [shape_picked_in 5.45 6.0|shape_picked_in 4.62 5.45]. }
  destruct (Num.Qltb 15 s && Qle_bool s 20) eqn:R3.
  { destruct (is_trained profile) eqn:T;
      [shape_picked_in 4.80 5.45|shape_picked_in 4.0 4.62]. }
  destruct (Num.Qltb 20 s) eqn:R4.
  { destruct (is_trained profile) eqn:T;
      [shape_picked_in 4.0 4.62|shape_picked_in 3.33 4.0]. }
  destruct (Num.Qltb s (-1) && Qle_bool (-3) s) eqn:R5.
  { shape_scaled_by (1 - 0.02 * Qabs s). }
  destruct (Num.Qltb s (-3) && Qle_bool (-4) s) eqn:R6.
  { shape_scaled_by ((1 - 0.02 * Qabs s) * 1.05). }
  destruct (Num.Qltb s (-4) && Qle_bool (-6) s) eqn:R7.
  { shape_scaled_by ((1 - 0.02 * Qabs s) * 1.10). }
  destruct (Num.Qltb s (-6) && Qle_bool (-8) s) eqn:R8.
  { shape_picked_in 5.45 6.67. }
  destruct (Num.Qltb s (-8) && Qle_bool (-12) s) eqn:R9.
  { shape_picked_in 4.62 6.0. }
  destruct (Num.Qltb s (-12)) eqn:R10.
  { shape_picked_in 4.0 5.45. }
  exfalso. qfacts; qcases.
Qed.

(** *** Arithmetic on the rationals *)

Lemma Qdiv_pos (a d : Q) : 0 < a -> 0 < d -> 0 < a / d.
Proof.
  intros Ha Hd. apply Qlt_shift_div_l; [assumption|]. lra.
Qed.

Lemma Qdiv_nonneg (a d : Q) : 0 <= a -> 0 < d -> 0 <= a / d.
Proof.
  intros Ha Hd. apply Qle_shift_div_l; [assumption|]. lra.
Qed.

Lemma Qdiv_le_num (a b d : Q) : 0 < d -> a <= b -> a / d <= b / d.
Proof.
  intros Hd Hab. apply Qle_shift_div_l; [assumption|].
  setoid_replace (a / d * d) with a by (field; lra). assumption.
Qed.

Lemma Qdiv_le_den (a r1 r2 : Q) : 0 <= a -> 0 < r1 -> r1 <= r2 -> a / r2 <= a / r1.
Proof.
  intros Ha H1 H12.
  assert (H2 : 0 < r2) by lra.
  apply Qle_shift_div_l; [assumption|].
  assert (X : 0 <= a / r2) by now apply Qdiv_nonneg.
  assert (E : a / r2 * r2 == a) by (field; lra).
  assert (M : a / r2 * r1 <= a / r2 * r2).
  { rewrite (Qmult_comm _ r1), (Qmult_comm _ r2).
    now apply Qmult_le_compat_r. }
  lra.
Qed.

Lemma speed_positive (s v : Q) (profile : string) (c : Q) :
  0 < v -> 0 <= c <= 1 ->
  exists r, calculateSpeedForSlope (Fin s) (Fin v) profile (Fin c) = Fin r /\ 0 < r.
Proof.
  intros Hv [Hc0 Hc1].
  destruct (speed_shape s profile c) as [d Hd H|lo hi Hlo Hhi H].
  - destruct (H v) as [r [E R]]. exists r. split; [assumption|].
    rewrite R. now apply Qdiv_pos.
  - eexists. split; [apply H|].
    assert (M : c * (hi - lo) <= 1 * (hi - lo)).
    { apply Qmult_le_compat_r; lra. }
    lra.
Qed.

Lemma speed_monotone (s v1 v2 : Q) (profile : string) (c : Q) :
  v1 <= v2 ->
  exists r1 r2,
    calculateSpeedForSlope (Fin s) (Fin v1) profile (Fin c) = Fin r1
    /\ calculateSpeedForSlope (Fin s) (Fin v2) profile (Fin c) = Fin r2
    /\ r1 <= r2.
Proof.
  intro Hv.
  destruct (speed_shape s profile c) as [d Hd H|lo hi Hlo Hhi H].
  - destruct (H v1) as [r1 [E1 R1]]. destruct (H v2) as [r2 [E2 R2]].
    exists r1, r2. repeat split; try assumption.
    rewrite R1, R2. now apply Qdiv_le_num.
  - do 2 eexists. repeat split; try apply H. lra.
Qed.

(** *** The moving time *)

Lemma movingTimeLoop_step (s : Segment) (rest : list Segment) (v : num)
    (profile : string) (c acc : num) :
  movingTimeLoop (s :: rest) v profile c acc =
  let speed := calculateSpeedForSlope (slopePct s) v profile c in
  if infeasibleSpeed speed then PInf
  else movingTimeLoop rest v profile c (acc + segmentTime s speed)%num.
Proof. reflexivity. Qed.

Lemma infeasible_Fin (r : Q) : infeasibleSpeed (Fin r) = Qle_bool r 0.
Proof. reflexivity. Qed.

Lemma segmentTime_Fin (s : Segment) (len r : Q) :
  lengthM s = Fin len -> 0 < r ->
  segmentTime s (Fin r) = Fin (len / 1000 / r * 3600).
Proof.
  intros L Hr. unfold segmentTime. rewrite L.
  rewrite (div_Fin len 1000) by lra.
  rewrite div_Fin by lra. reflexivity.
Qed.

Lemma wellFormed_slope (s : Segment) :
  wellFormedSegment s -> exists q, slopePct s = Fin q.
Proof.
  intros [F _]. unfold finiteSlope in F.
  destruct (slopePct s); try discriminate. eauto.
Qed.

(** The rows of the table do not overlap: a slope has one table value. *)
Lemma table_value_unique (s v : Q) (p : Table.profile) (c t1 t2 : Q) :
  Table.value s v p c t1 -> Table.value s v p c t2 -> t1 = t2.
Proof.
  intros H1 H2.
  destruct H1; destruct H2; try reflexivity; exfalso; lra.
Qed.

(** C1. On every slope, flat speed, profile (trained or standard) and
    caution the speed functions of both variants return the value of the
    table of the specification, with the bounds of each bracket as the table
    has them: [-1, 1] flat; (1, 12], (12, 15], (15, 20], (20, inf) uphill;
    [-3, -1), [-4, -3), [-6, -4), [-8, -6), [-12, -8), (-inf, -12)
    downhill. *)
Theorem speed_table (s v : Q) (p : Table.profile) (c : Q) :
  exists r t,
    calculateSpeedForSlope (Fin s) (Fin v) (Table.name p) (Fin c) = Fin r
    /\ speedForSlopeKmh (Fin s) (Fin v) (Table.name p) (Fin c) = Fin r
    /\ Table.value s v p c t
    /\ r == t.
Proof.
  destruct (speed_table_browser s v p c) as [r [t [E [T R]]]].
  exists r, t. rewrite speed_variants_agree. auto.
Qed.

Lemma speed_finite (s v : Q) (profile : string) (c : Q) :
  exists r, calculateSpeedForSlope (Fin s) (Fin v) profile (Fin c) = Fin r.
Proof.
  destruct (speed_monotone s v v profile c) as [r [_ [E _]]]; [lra|eauto].
Qed.

(** With finite lengths and slopes the loop ends on a finite total or on
    [+Infinity], never on [NaN]. *)
Lemma movingTimeLoop_total (segments : list Segment) (v : Q) (profile : string) (c : Q) :
  Forall wellFormedSegment segments ->
  forall acc : Q,
    movingTimeLoop segments (Fin v) profile (Fin c) (Fin acc) = PInf
    \/ exists T, movingTimeLoop segments (Fin v) profile (Fin c) (Fin acc) = Fin T.
Proof.
  induction 1 as [|s rest W _ IH]; intro acc; [right; simpl; eauto|].
  rewrite movingTimeLoop_step. cbv zeta.
  destruct (wellFormed_slope s W) as [q Q]. rewrite Q.
  destruct (speed_finite q v profile c) as [r R]. rewrite R, infeasible_Fin.
  destruct (Qle_bool r 0) eqn:B; [now left|]. qfacts.
  destruct W as [_ [len [L _]]].
  rewrite (segmentTime_Fin s len r L B). apply IH.
Qed.

Lemma leb_PInf_r (x : num) : x <> NaN -> (x <=? PInf)%num = true.
Proof. destruct x; intro H; try reflexivity. congruence. Qed.

Lemma movingTimeLoop_monotone (segments : list Segment) (profile : string)
    (c v1 v2 : Q) :
  Forall wellFormedSegment segments -> v1 <= v2 ->
  forall acc1 acc2 : Q, acc2 <= acc1 ->
    (movingTimeLoop segments (Fin v2) profile (Fin c) (Fin acc2)
     <=? movingTimeLoop segments (Fin v1) profile (Fin c) (Fin acc1))%num = true.
Proof.
  intros W Hv. induction W as [|s rest W Wrest IH]; intros acc1 acc2 Hacc.
  - simpl. now apply Qle_bool_iff.
  - rewrite !movingTimeLoop_step. cbv zeta.
    destruct (wellFormed_slope s W) as [q Q]. rewrite Q.
    destruct (speed_monotone q v1 v2 profile c Hv) as [r1 [r2 [R1 [R2 R12]]]].
    rewrite R1, R2, !infeasible_Fin.
    destruct (Qle_bool r1 0) eqn:B1.
    + apply leb_PInf_r.
      destruct (Qle_bool r2 0) eqn:B2; [discriminate|].
      destruct W as [_ [len [L _]]].
      qfacts.
      rewrite (segmentTime_Fin s len r2 L B2). cbn [Num.add].
      destruct (movingTimeLoop_total rest v2 profile c Wrest
                  (acc2 + len / 1000 / r2 * 3600)) as [E|[T E]];
        rewrite E; discriminate.
    + qfacts. assert (B2 : 0 < r2) by lra.
      destruct (Qle_bool r2 0) eqn:B2'; [qfacts; lra|].
      destruct W as [_ [len [L Hlen]]].
      rewrite (segmentTime_Fin s len r1 L B1), (segmentTime_Fin s len r2 L B2).
      cbn [Num.add]. apply IH.
      assert (D : len / 1000 / r2 <= len / 1000 / r1).
      { apply Qdiv_le_den; [apply Qdiv_nonneg; lra|assumption|assumption]. }
      lra.
Qed.

Lemma movingTimeLoopCli_agree (segments : list Segment) (v : num) (profile : string)
    (c : num) :
  Forall finiteSlope segments ->
  forall acc, movingTimeLoopCli segments v profile c acc
              = movingTimeLoop segments v profile c acc.
Proof.
  induction 1 as [|s rest F _ IH]; intro acc; [reflexivity|].
  simpl. unfold finiteSlope in F.
  destruct (slopePct s) as [q| | |] eqn:Q; try discriminate.
  rewrite speed_variants_agree.
  destruct (negb _ || _); [reflexivity|apply IH].
Qed.

Lemma wellFormed_finiteSlope (segments : list Segment) :
  Forall wellFormedSegment segments -> Forall finiteSlope segments.
Proof. apply Forall_impl. now intros s [F _]. Qed.

(** C3. For a fixed list of segments with finite slopes and finite lengths
    that are not negative, a fixed profile and a fixed caution, the total
    moving time does not increase with the flat speed: v1 < v2 gives
    time(v2) <= time(v1), in the browser and in the command line variant. *)
Theorem movingTime_monotone (segments : list Segment) (profile : string)
    (caution v1 v2 : Q) :
  Forall wellFormedSegment segments ->
  v1 < v2 ->
  (calculateMovingTimeForVflat segments (Fin v2) profile (Fin caution)
   <=? calculateMovingTimeForVflat segments (Fin v1) profile (Fin caution))%num = true
  /\ (movingTimeForVflatSec segments profile (Fin caution) (Fin v2)
      <=? movingTimeForVflatSec segments profile (Fin caution) (Fin v1))%num = true.
Proof.
  intros W Hv.
  assert (M : (calculateMovingTimeForVflat segments (Fin v2) profile (Fin caution)
     <=? calculateMovingTimeForVflat segments (Fin v1) profile (Fin caution))%num = true).
  { unfold calculateMovingTimeForVflat.
    apply movingTimeLoop_monotone; [assumption|lra|lra]. }
  split; [exact M|].
  unfold movingTimeForVflatSec.
  rewrite !movingTimeLoopCli_agree by now apply wellFormed_finiteSlope.
  exact M.
Qed.

Section MovingTime.

Variables (v : num) (profile : string) (c : num).

Lemma movingTimeLoop_feasible (segments : list Segment) :
  existsb (fun s => infeasibleSpeed (resolvedSpeed v profile c s)) segments = false ->
  forall acc,
    movingTimeLoop segments v profile c acc
    = fold_left Num.add (map (fun s => segmentTime s (resolvedSpeed v profile c s)) segments) acc.
Proof.
  induction segments as [|s rest IH]; intros E acc; [reflexivity|].
  simpl in E. apply orb_false_iff in E. destruct E as [E1 E2].
  rewrite movingTimeLoop_step. cbv zeta. fold (resolvedSpeed v profile c s). rewrite E1.
  simpl. now apply IH.
Qed.

Lemma movingTimeLoop_infeasible (segments : list Segment) :
  existsb (fun s => infeasibleSpeed (resolvedSpeed v profile c s)) segments = true ->
  forall acc, movingTimeLoop segments v profile c acc = PInf.
Proof.
  induction segments as [|s rest IH]; intros E acc; [discriminate|].
  rewrite movingTimeLoop_step. cbv zeta. fold (resolvedSpeed v profile c s).
  simpl in E. destruct (infeasibleSpeed (resolvedSpeed v profile c s)); [reflexivity|].
  now apply IH.
Qed.

Lemma feasible_speed_positive (x : num) :
  infeasibleSpeed x = false -> exists r, x = Fin r /\ 0 < r.
Proof.
  destruct x as [r| | |]; try discriminate.
  rewrite infeasible_Fin. intro H. qfacts. eauto.
Qed.

Lemma movingTimeLoop_finite (segments : list Segment) :
  existsb (fun s => infeasibleSpeed (resolvedSpeed v profile c s)) segments = false ->
  Forall finiteLength segments ->
  forall acc : Q, exists T, movingTimeLoop segments v profile c (Fin acc) = Fin T.
Proof.
  intros E F. revert E.
  induction F as [|s rest Fs _ IH]; intros E acc; [simpl; eauto|].
  simpl in E. apply orb_false_iff in E. destruct E as [E1 E2].
  rewrite movingTimeLoop_step. cbv zeta. fold (resolvedSpeed v profile c s). rewrite E1.
  destruct (feasible_speed_positive _ E1) as [r [R Hr]]. rewrite R.
  unfold finiteLength in Fs.
  destruct (lengthM s) as [len| | |] eqn:L; try discriminate.
  rewrite (segmentTime_Fin s len r L Hr). cbn [Num.add]. now apply IH.
Qed.

End MovingTime.

Lemma speeds_feasible (segments : list Segment) (v : Q) (profile : string) (c : Q) :
  0 < v -> 0 <= c <= 1 -> Forall finiteSlope segments ->
  Forall (fun s => exists r,
            calculateSpeedForSlope (slopePct s) (Fin v) profile (Fin c) = Fin r /\ 0 < r)
         segments.
Proof.
  intros Hv Hc. apply Forall_impl. intros s F. unfold finiteSlope in F.
  destruct (slopePct s) as [q| | |]; try discriminate.
  now apply speed_positive.
Qed.

Lemma feasible_existsb (segments : list Segment) (speedOf : Segment -> num) :
  Forall (fun s => exists r, speedOf s = Fin r /\ 0 < r) segments ->
  existsb (fun s => infeasibleSpeed (speedOf s)) segments = false.
Proof.
  induction 1 as [|s rest [r [R Hr]] _ IH]; [reflexivity|].
  simpl. rewrite R, infeasible_Fin, IH.
  destruct (Qle_bool r 0) eqn:B; [qfacts; lra|reflexivity].
Qed.

(** C8. calculateMovingTimeForVflat adds (lengthKm / speed) * 3600 over the
    segments, and returns +Infinity exactly when the resolved speed of some
    segment is not finite or not positive. With a positive flat speed, a
    caution in [0, 1] and finite slopes every resolved speed is finite and
    positive, so that branch is not taken and the total is finite. *)
Theorem movingTime_infinite_iff_infeasible (segments : list Segment) (v : num)
    (profile : string) (c : num) :
  let speedOf := resolvedSpeed v profile c in
  let anyInfeasible := existsb (fun s => infeasibleSpeed (speedOf s)) segments in
  let time := calculateMovingTimeForVflat segments v profile c in
  (anyInfeasible = false ->
     time = sumNum (map (fun s => segmentTime s (speedOf s)) segments))
  /\ (anyInfeasible = true -> time = PInf)
  /\ (Forall finiteLength segments -> (time = PInf <-> anyInfeasible = true))
  /\ (forall vq cq, v = Fin vq -> c = Fin cq -> 0 < vq -> 0 <= cq <= 1 ->
        Forall finiteSlope segments ->
        Forall (fun s => exists r, speedOf s = Fin r /\ 0 < r) segments
        /\ anyInfeasible = false
        /\ (Forall finiteLength segments -> Num.isFinite time = true)).
Proof.
  intros speedOf anyInfeasible time.
  assert (P1 : anyInfeasible = false ->
               time = sumNum (map (fun s => segmentTime s (speedOf s)) segments)).
  { intro E. apply (movingTimeLoop_feasible v profile c segments E). }
  assert (P2 : anyInfeasible = true -> time = PInf).
  { intro E. apply (movingTimeLoop_infeasible v profile c segments E). }
  assert (P3 : anyInfeasible = false -> Forall finiteLength segments ->
               Num.isFinite time = true).
  { intros E F.
    destruct (movingTimeLoop_finite v profile c segments E F 0) as [T HT].
    unfold time, calculateMovingTimeForVflat. now rewrite HT. }
  repeat split; try assumption.
  - intro E. destruct anyInfeasible eqn:A; [reflexivity|].
    specialize (P3 eq_refl H). rewrite E in P3. discriminate.
  - subst v c. now apply speeds_feasible.
  - subst v c. apply feasible_existsb. now apply speeds_feasible.
  - intro F. apply P3; [|assumption].
    subst v c. apply feasible_existsb. now apply speeds_feasible.
Qed.

(** ** Calibration by bisection *)

Lemma bisectionStep_pair (totalTime : num -> num) (target lo hi : num) :
  bisectionStep totalTime target (lo, hi)
  = if (totalTime ((lo + hi) / Fin 2) >? target)%num
    then (((lo + hi) / Fin 2)%num, hi) else (lo, ((lo + hi) / Fin 2)%num).
Proof. reflexivity. Qed.

Lemma bisectLoop_iter (segments : list Segment) (target : num) (profile : string)
    (prudence : num) (n : nat) : forall lo hi,
  bisectLoop segments target profile prudence n lo hi
  = Nat.iter n
      (bisectionStep (fun v => calculateMovingTimeForVflat segments v profile prudence)
                     target)
      (lo, hi).
Proof.
  induction n as [|n IH]; intros lo hi; [reflexivity|].
  cbn [bisectLoop]. rewrite Nat.iter_succ_r, bisectionStep_pair.
  destruct (_ >? _)%num; apply IH.
Qed.

Lemma bisectLoopCli_iter (segments : list Segment) (target : num) (profile : string)
    (prudence : num) (n : nat) : forall lo hi,
  bisectLoopCli segments target profile prudence n lo hi
  = Nat.iter n (bisectionStep (movingTimeForVflatSec segments profile prudence) target)
      (lo, hi).
Proof.
  induction n as [|n IH]; intros lo hi; [reflexivity|].
  cbn [bisectLoopCli]. rewrite Nat.iter_succ_r, bisectionStep_pair.
  destruct (_ >? _)%num; apply IH.
Qed.

Lemma findVflat_fixed_iterations_browser (segments : list Segment) (target : num)
    (profile : string) (prudence vMin vMax : num) (iterations : nat) :
  findVflatForTargetTime segments target profile prudence vMin vMax iterations
  = midpoint
      (Nat.iter iterations
         (bisectionStep
            (fun v => calculateMovingTimeForVflat segments v profile prudence) target)
         (vMin, vMax)).
Proof.
  unfold findVflatForTargetTime. rewrite bisectLoop_iter.
  now destruct (Nat.iter _ _ _).
Qed.

(** C2. findVflatForTargetTime runs the bisection step [iterations] times,
    whatever the times it meets, and returns the midpoint of the bracket it
    ends on; a step evaluates the total moving time at the midpoint of the
    bracket, moves the lower bound there when that time exceeds the target
    and the upper bound otherwise. The loop of the command line script does
    the same. *)
Theorem findVflat_fixed_iterations (segments : list Segment) (target : num)
    (profile : string) (prudence vMin vMax : num) (iterations : nat) :
  findVflatForTargetTime segments target profile prudence vMin vMax iterations
  = midpoint
      (Nat.iter iterations
         (bisectionStep
            (fun v => calculateMovingTimeForVflat segments v profile prudence) target)
         (vMin, vMax))
  /\ bisectLoopCli segments target profile prudence iterations vMin vMax
     = Nat.iter iterations
         (bisectionStep (movingTimeForVflatSec segments profile prudence) target)
         (vMin, vMax).
Proof.
  split; [apply findVflat_fixed_iterations_browser|apply bisectLoopCli_iter].
Qed.

Lemma midpoint_Fin (lo hi : Q) : midpoint (Fin lo, Fin hi) = Fin ((lo + hi) / 2).
Proof. reflexivity. Qed.

Lemma Qhalf_between (lo hi : Q) : lo <= hi -> lo <= (lo + hi) / 2 <= hi.
Proof.
  intro H. split.
  - apply Qle_shift_div_l; lra.
  - apply Qle_shift_div_r; lra.
Qed.

(** The bracket after any number of steps stays inside the bounds, and its
    width is the first width halved once per step. *)
Lemma bisection_invariant (totalTime : num -> num) (target : num) (a b : Q) :
  a <= b -> forall k, exists lo hi,
    Nat.iter k (bisectionStep totalTime target) (Fin a, Fin b) = (Fin lo, Fin hi)
    /\ a <= lo /\ lo <= hi /\ hi <= b /\ hi - lo == halved (b - a) k.
Proof.
  intros Hab k. induction k as [|k [lo [hi [E [H1 [H2 [H3 H4]]]]]]].
  - exists a, b. simpl. repeat split; lra.
  - rewrite Nat.iter_succ, E. unfold bisectionStep. rewrite midpoint_Fin.
    cbn [fst snd halved].
    destruct (_ >? _)%num; do 2 eexists; (split; [reflexivity|]);
      destruct (Qhalf_between lo hi H2); repeat split; try lra;
      rewrite <- H4; field.
Qed.

(** When every evaluation exceeds the target the bracket closes on the upper
    bound, and on the lower bound when none does. *)
Lemma bisection_to_upper (totalTime : num -> num) (target : num) (a b : Q) :
  (forall v, (totalTime (Fin v) >? target)%num = true) ->
  forall k, exists lo,
    Nat.iter k (bisectionStep totalTime target) (Fin a, Fin b) = (Fin lo, Fin b)
    /\ b - lo == halved (b - a) k.
Proof.
  intros Hall k. induction k as [|k [lo [E H]]].
  - exists a. simpl. split; [reflexivity|lra].
  - rewrite Nat.iter_succ, E. unfold bisectionStep. rewrite midpoint_Fin, Hall.
    cbn [fst snd halved]. eexists. split; [reflexivity|]. rewrite <- H. field.
Qed.

Lemma bisection_to_lower (totalTime : num -> num) (target : num) (a b : Q) :
  (forall v, (totalTime (Fin v) >? target)%num = false) ->
  forall k, exists hi,
    Nat.iter k (bisectionStep totalTime target) (Fin a, Fin b) = (Fin a, Fin hi)
    /\ hi - a == halved (b - a) k.
Proof.
  intros Hall k. induction k as [|k [hi [E H]]].
  - exists b. simpl. split; [reflexivity|lra].
  - rewrite Nat.iter_succ, E. unfold bisectionStep. rewrite midpoint_Fin, Hall.
    cbn [fst snd halved]. eexists. split; [reflexivity|]. rewrite <- H. field.
Qed.

(** C10. With bounds vMin < vMax, every bracket of the bisection satisfies
    vMin <= lo <= hi <= vMax, and findVflatForTargetTime returns a number of
    [vMin, vMax]; it is a total function and raises nothing, whatever the
    target. When the target is below every time it meets, the result is the
    upper bound minus the width halved iterations + 1 times; when it is not
    below any, the lower bound plus as much. *)
Theorem findVflat_within_bounds (segments : list Segment) (target : num)
    (profile : string) (prudence : num) (vMin vMax : Q) (iterations : nat) :
  vMin < vMax ->
  let totalTime := fun v => calculateMovingTimeForVflat segments v profile prudence in
  let result :=
    findVflatForTargetTime segments target profile prudence (Fin vMin) (Fin vMax)
      iterations in
  (forall k, exists lo hi,
      bisectLoop segments target profile prudence k (Fin vMin) (Fin vMax)
      = (Fin lo, Fin hi)
      /\ vMin <= lo /\ lo <= hi /\ hi <= vMax)
  /\ (exists r, result = Fin r /\ vMin <= r <= vMax)
  /\ ((forall v, (totalTime (Fin v) >? target)%num = true) ->
      exists r, result = Fin r /\ r == vMax - halved (vMax - vMin) (S iterations))
  /\ ((forall v, (totalTime (Fin v) >? target)%num = false) ->
      exists r, result = Fin r /\ r == vMin + halved (vMax - vMin) (S iterations)).
Proof.
  intros Hab totalTime result.
  assert (Hle : vMin <= vMax) by lra.
  assert (R : result
              = midpoint (Nat.iter iterations (bisectionStep totalTime target)
                            (Fin vMin, Fin vMax))).
  { apply findVflat_fixed_iterations_browser. }
  repeat split.
  - intro k. rewrite bisectLoop_iter.
    destruct (bisection_invariant totalTime target vMin vMax Hle k)
      as [lo [hi [E [H1 [H2 [H3 _]]]]]].
    exists lo, hi. fold totalTime. now rewrite E.
  - destruct (bisection_invariant totalTime target vMin vMax Hle iterations)
      as [lo [hi [E [H1 [H2 [H3 _]]]]]].
    rewrite R, E, midpoint_Fin. eexists. split; [reflexivity|].
    split.
    + apply Qle_shift_div_l; lra.
    + apply Qle_shift_div_r; lra.
  - intro Hall.
    destruct (bisection_to_upper totalTime target vMin vMax Hall iterations)
      as [lo [E H]].
    rewrite R, E, midpoint_Fin. eexists. split; [reflexivity|].
    cbn [halved]. rewrite <- H. field.
  - intro Hall.
    destruct (bisection_to_lower totalTime target vMin vMax Hall iterations)
      as [hi [E H]].
    rewrite R, E, midpoint_Fin. eexists. split; [reflexivity|].
    cbn [halved]. rewrite <- H. field.
Qed.

(** ** Gain and loss on the raw points *)

Lemma abs_of_negative (q : Q) : q < 0 -> Num.abs (Fin q) = Num.opp (Fin q).
Proof.
  intro H. destruct q as [n d]. simpl. unfold Qabs, Qopp. simpl.
  f_equal. f_equal. unfold Qlt in H. simpl in H. lia.
Qed.

Lemma abs_of_ltb (d : num) : (d <? Fin 0)%num = true -> Num.abs d = Num.opp d.
Proof.
  destruct d as [q| | |]; simpl; try discriminate; try reflexivity.
  intro H. apply Qltb_true in H. now apply abs_of_negative.
Qed.

Lemma gtb_ltb_exclusive (d : num) :
  (d >? Fin 0)%num = true -> (d <? Fin 0)%num = false.
Proof.
  destruct d as [q| | |]; simpl; try discriminate; try reflexivity.
  unfold Num.gtb. simpl. intro H. apply Qltb_true in H. apply Qltb_false. lra.
Qed.

Lemma gainLossFrom_spec (rest : list num) : forall prev dPlus dMinus,
  gainLossFrom prev rest (dPlus, dMinus)
  = (fold_left Num.add (filter (fun d => (d >? Fin 0)%num) (deltasFrom prev rest)) dPlus,
     fold_left Num.add
       (map Num.abs (filter (fun d => (d <? Fin 0)%num) (deltasFrom prev rest))) dMinus).
Proof.
  induction rest as [|e rest IH]; intros prev dPlus dMinus; [reflexivity|].
  cbn [gainLossFrom deltasFrom filter].
  destruct (e - prev >? Fin 0)%num eqn:G.
  - rewrite (gtb_ltb_exclusive _ G). rewrite IH. reflexivity.
  - destruct (e - prev <? Fin 0)%num eqn:L; rewrite IH; [|reflexivity].
    cbn [map fold_left]. now rewrite (abs_of_ltb _ L).
Qed.

Lemma gainLoss_spec (elevations : list num) :
  gainLoss elevations = (gainOf elevations, lossOf elevations).
Proof.
  destruct elevations as [|e0 rest]; [reflexivity|].
  apply gainLossFrom_spec.
Qed.

(** ** The run of calculatePacing *)

Section Run.

Variable haversineDistance : num * num -> num * num -> num.

Lemma calculatePacing_run (fuel : nat) (found : list (num * num * option num))
    (targetTime : list num) (profile : string) (prudence : num)
    (checkpoints : list (num * num)) (restPeriods : num * num)
    (segmentLengthM : num) (smoothingWindow : nat)
    (rawPoints : list Point) (resampledPoints : list Resampled)
    (targetTotalSec : num) :
  let points := conditionPoints rawPoints smoothingWindow in
  let cumulativeDistances := cumulativeOfPoints haversineDistance points in
  let totalDistanceKm :=
    (at_ cumulativeDistances (length cumulativeDistances - 1) / Fin 1000)%num in
  let totalStopSec := totalStopSecOf checkpoints restPeriods in
  parseGpxFile found = Ok rawPoints ->
  resamplePoints fuel points cumulativeDistances segmentLengthM = Ok resampledPoints ->
  parseTimeToSeconds targetTime = Ok targetTotalSec ->
  calculatePacing haversineDistance fuel found targetTime profile prudence
    checkpoints restPeriods segmentLengthM smoothingWindow
  = if (targetTotalSec - totalStopSec <=? Fin 0)%num
    then Error StopTimeExceedsTarget
    else Ok (finishPacing haversineDistance rawPoints totalDistanceKm
               (createSegments resampledPoints) targetTotalSec totalStopSec
               profile prudence checkpoints).
Proof.
  intros points cumulativeDistances totalDistanceKm totalStopSec H1 H2 H3.
  unfold calculatePacing. rewrite H1. cbn [bind].
  fold points. fold cumulativeDistances. rewrite H2. cbn [bind].
  rewrite H3. reflexivity.
Qed.

(** A run that returns a result went through every step. *)
Lemma calculatePacing_Ok (fuel : nat) (found : list (num * num * option num))
    (targetTime : list num) (profile : string) (prudence : num)
    (checkpoints : list (num * num)) (restPeriods : num * num)
    (segmentLengthM : num) (smoothingWindow : nat) (r : PacingResult) :
  calculatePacing haversineDistance fuel found targetTime profile prudence
    checkpoints restPeriods segmentLengthM smoothingWindow = Ok r ->
  exists rawPoints totalDistanceKm segments targetTotalSec,
    parseGpxFile found = Ok rawPoints
    /\ parseTimeToSeconds targetTime = Ok targetTotalSec
    /\ r = finishPacing haversineDistance rawPoints totalDistanceKm segments
             targetTotalSec (totalStopSecOf checkpoints restPeriods)
             profile prudence checkpoints.
Proof.
  unfold calculatePacing.
  destruct (parseGpxFile found) as [rawPoints|]; [|discriminate]. cbn [bind].
  destruct (resamplePoints _ _ _ _) as [resampled|]; [|discriminate]. cbn [bind].
  destruct (parseTimeToSeconds targetTime) as [t|]; [|discriminate]. cbn [bind].
  destruct (_ <=? _)%num; [discriminate|].
  intro H. inversion H. eauto 10.
Qed.

End Run.



Section Outcome.

Variable haversineDistance : num * num -> num * num -> num.


(** C4. The all-points totals of a result come from the raw elevations of
    the parsed points, not from the smoothed ones: dPlusMAllPoints is the
    sum of the positive deltas of consecutive raw elevations and
    dMinusMAllPoints the sum of the absolute values of the negative ones,
    each rounded to the metre for the report; a zero delta adds to
    neither. *)
Theorem allPoints_totals_raw (fuel : nat) (found : list (num * num * option num))
    (targetTime : list num) (profile : string) (prudence : num)
    (checkpoints : list (num * num)) (restPeriods : num * num)
    (segmentLengthM : num) (smoothingWindow : nat) (r : PacingResult) :
  calculatePacing haversineDistance fuel found targetTime profile prudence
    checkpoints restPeriods segmentLengthM smoothingWindow = Ok r ->
  exists rawPoints,
    parseGpxFile found = Ok rawPoints
    /\ gainLoss (map ele rawPoints)
       = (gainOf (map ele rawPoints), lossOf (map ele rawPoints))
    /\ dPlusMAllPoints (totals r) = Num.round (gainOf (map ele rawPoints))
    /\ dMinusMAllPoints (totals r) = Num.round (lossOf (map ele rawPoints)).
Proof.
  intro H.
  destruct (calculatePacing_Ok haversineDistance _ _ _ _ _ _ _ _ _ _ H)
    as [rawPoints [dist [segments [t [H1 [H2 ->]]]]]].
  exists rawPoints. split; [assumption|]. split; [apply gainLoss_spec|].
  unfold finishPacing. rewrite gainLoss_spec. split; reflexivity.
Qed.

End Outcome.

(** ** Whole seconds *)

Lemma round_whole (x : num) : wholeOrNonFinite (Num.round x).
Proof.
  destruct x; [right; simpl; eauto|left; reflexivity..].
Qed.

Lemma add_whole (x y : num) :
  wholeOrNonFinite x -> wholeOrNonFinite y -> wholeOrNonFinite (x + y).
Proof.
  intros [Hx|[a ->]] [Hy|[b ->]].
  - left. destruct x, y; try discriminate; reflexivity.
  - left. destruct x; try discriminate; reflexivity.
  - left. destruct y; try discriminate; reflexivity.
  - right. exists (a * 1 + b * 1)%Z. reflexivity.
Qed.

Lemma fold_add_whole (l : list num) : forall acc,
  wholeOrNonFinite acc -> Forall wholeOrNonFinite l ->
  wholeOrNonFinite (fold_left Num.add l acc).
Proof.
  induction l as [|x l IH]; intros acc Ha F; [assumption|].
  inversion F; subst. simpl. apply IH; [now apply add_whole|assumption].
Qed.

Lemma sumNum_whole (l : list num) :
  Forall wholeOrNonFinite l -> wholeOrNonFinite (sumNum l).
Proof.
  apply fold_add_whole. right. exists 0%Z. reflexivity.
Qed.

Lemma round_idem (x : num) : wholeOrNonFinite x -> Num.round x = x.
Proof.
  intros [H|[z ->]]; [destruct x; try discriminate; reflexivity|].
  simpl. unfold inject_Z, Qplus, Qfloor. simpl.
  do 2 f_equal. symmetry. apply Z.div_unique with (r := 1%Z); lia.
Qed.

Lemma detailed_times_whole (vFlat : num) (profile : string) (prudence : num)
    (segments : list Segment) (keep : DetailedSegment -> bool) :
  Forall wholeOrNonFinite
    (map timeSec (filter keep (map (detailSegment vFlat profile prudence) segments))).
Proof.
  apply Forall_forall. intros x Hx.
  apply in_map_iff in Hx. destruct Hx as [d [<- Hd]].
  apply filter_In in Hd. destruct Hd as [Hd _].
  apply in_map_iff in Hd. destruct Hd as [s [<- _]].
  apply round_whole.
Qed.

(** ** Property names *)

Lemma sameKey_refl (a : num) : sameKey a a = true.
Proof. destruct a; simpl; try reflexivity. apply Qeq_bool_iff. reflexivity. Qed.

Lemma sameKey_sym (a b : num) : sameKey a b = sameKey b a.
Proof.
  destruct a as [x| | |], b as [y| | |]; simpl; try reflexivity.
  destruct (Qeq_bool x y) eqn:A; destruct (Qeq_bool y x) eqn:B;
    try reflexivity; qfacts.
  - exfalso. apply B. now symmetry.
  - exfalso. apply A. now symmetry.
Qed.

Lemma sameKey_trans (a b c : num) :
  sameKey a b = true -> sameKey a c = sameKey b c.
Proof.
  destruct a as [x| | |], b as [y| | |]; simpl; try discriminate;
    destruct c as [z| | |]; simpl; try reflexivity.
  intro H. qfacts.
  destruct (Qeq_bool x z) eqn:A; destruct (Qeq_bool y z) eqn:B;
    try reflexivity; qfacts.
  - exfalso. apply B. now rewrite <- H.
  - exfalso. apply A. now rewrite H.
Qed.

(** ** Grouping by kilometre *)

Lemma upsert_In (key : num) (d : DetailedSegment) (obj : list (num * KmGroup)) :
  distinctKeys obj ->
  forall k g, In (k, g) (upsert key d obj) ->
    (In (k, g) obj /\ sameKey k key = false)
    \/ (exists g0, In (k, g0) obj /\ sameKey k key = true /\ g = addToKmGroup d g0)
    \/ (k = key /\ g = addToKmGroup d (newKmGroup key)
        /\ forall k' g', In (k', g') obj -> sameKey k' key = false).
Proof.
  induction obj as [|[k0 g0] rest IH]; intros D k g H.
  - simpl in H. destruct H as [H|[]]. inversion H; subst.
    right; right. repeat split. intros k' g' [].
  - destruct D as [D0 D]. simpl in H.
    destruct (sameKey k0 key) eqn:M.
    + destruct H as [H|H].
      * inversion H; subst. right; left. exists g0. simpl. auto.
      * left. split; [now right|].
        specialize (D0 _ _ H).
        rewrite sameKey_sym, <- (sameKey_trans k0 key k M). exact D0.
    + destruct H as [H|H].
      * inversion H; subst. left. split; [now left|assumption].
      * destruct (IH D _ _ H) as [[I N]|[[g1 [I [N E]]]|[E1 [E2 A]]]].
        -- left. split; [now right|assumption].
        -- right; left. exists g1. split; [now right|auto].
        -- right; right. repeat split; try assumption.
           intros k' g' [X|X]; [inversion X; subst; assumption|eauto].
Qed.

Lemma upsert_keeps_keys (key : num) (d : DetailedSegment) (obj : list (num * KmGroup)) :
  forall k g, In (k, g) obj -> exists g', In (k, g') (upsert key d obj).
Proof.
  induction obj as [|[k0 g0] rest IH]; intros k g H; [destruct H|].
  simpl. destruct (sameKey k0 key).
  - destruct H as [H|H]; [inversion H; subst|]; eexists; [now left|right; eassumption].
  - destruct H as [H|H]; [inversion H; subst; eexists; now left|].
    destruct (IH _ _ H) as [g' I]. exists g'. now right.
Qed.

Lemma upsert_has_key (key : num) (d : DetailedSegment) (obj : list (num * KmGroup)) :
  exists k g, In (k, g) (upsert key d obj) /\ sameKey k key = true.
Proof.
  induction obj as [|[k0 g0] rest IH]; simpl.
  - do 2 eexists. split; [now left|apply sameKey_refl].
  - destruct (sameKey k0 key) eqn:M.
    + do 2 eexists. split; [now left|assumption].
    + destruct IH as [k [g [I S]]]. exists k, g. split; [now right|assumption].
Qed.

Lemma upsert_distinct (key : num) (d : DetailedSegment) (obj : list (num * KmGroup)) :
  distinctKeys obj -> distinctKeys (upsert key d obj).
Proof.
  induction obj as [|[k0 g0] rest IH]; intro D.
  - simpl. split; [intros ? ? []|exact I].
  - destruct D as [D0 D]. simpl. destruct (sameKey k0 key) eqn:M.
    + split; assumption.
    + split; [|now apply IH].
      intros k' g' H.
      destruct (upsert_In key d rest D _ _ H) as [[X _]|[[g1 [X _]]|[-> _]]];
        eauto.
Qed.

Lemma segmentsOfKm_app (k : num) (ds : list DetailedSegment) (d : DetailedSegment) :
  sumNum (map timeSec (segmentsOfKm k (ds ++ [d])))
  = if sameKey (kmIndexOf d) k
    then (sumNum (map timeSec (segmentsOfKm k ds)) + timeSec d)%num
    else sumNum (map timeSec (segmentsOfKm k ds)).
Proof.
  unfold segmentsOfKm, sumNum. rewrite filter_app. simpl.
  destruct (sameKey (kmIndexOf d) k).
  - now rewrite map_app, fold_left_app.
  - now rewrite app_nil_r.
Qed.

Lemma GroupsOf_step (ds : list DetailedSegment) (obj : list (num * KmGroup))
    (d : DetailedSegment) :
  GroupsOf ds obj -> GroupsOf (ds ++ [d]) (upsert (kmIndexOf d) d obj).
Proof.
  intros [D [G C]]. split; [now apply upsert_distinct|]. split.
  - intros k g H. rewrite segmentsOfKm_app.
    destruct (upsert_In _ d obj D k g H) as [[I N]|[[g0 [I [N ->]]]|[-> [-> A]]]].
    + rewrite sameKey_sym, N. now apply G.
    + rewrite sameKey_sym, N. destruct (G _ _ I) as [G1 G2].
      simpl. split; [assumption|now rewrite G2].
    + rewrite sameKey_refl. simpl. split; [reflexivity|]. f_equal.
      assert (E : forall l, (forall x, In x l -> In x ds) ->
                  filter (fun x => sameKey (kmIndexOf x) (kmIndexOf d)) l = []).
      { induction l as [|x l IHl]; intro Hl; [reflexivity|]. simpl.
        destruct (C x (Hl x (or_introl eq_refl))) as [k' [g' [I S]]].
        specialize (A _ _ I).
        rewrite <- (sameKey_trans k' (kmIndexOf x) (kmIndexOf d) S), A.
        apply IHl. intros y Hy. apply Hl. now right. }
      unfold segmentsOfKm. rewrite (E ds) by auto. reflexivity.
  - intros x Hx. apply in_app_or in Hx. destruct Hx as [Hx|[<-|[]]].
    + destruct (C x Hx) as [k [g [I S]]].
      destruct (upsert_keeps_keys (kmIndexOf d) d obj k g I) as [g' I'].
      eauto.
    + apply upsert_has_key.
Qed.

Lemma groupPerKm_from (ds : list DetailedSegment) : forall ds0 obj,
  GroupsOf ds0 obj ->
  GroupsOf (ds0 ++ ds) (fold_left (fun perKm d => upsert (kmIndexOf d) d perKm) ds obj).
Proof.
  induction ds as [|d ds IH]; intros ds0 obj H.
  - now rewrite app_nil_r.
  - simpl. replace (ds0 ++ d :: ds) with ((ds0 ++ [d]) ++ ds)
      by now rewrite <- app_assoc.
    apply IH. now apply GroupsOf_step.
Qed.

Lemma groupPerKm_groups (ds : list DetailedSegment) : GroupsOf ds (groupPerKm ds).
Proof.
  apply (groupPerKm_from ds [] []).
  split; [exact I|]. split; [intros ? ? []|intros ? []].
Qed.

Lemma insertByKey_In {A} (e x : num * A) (l : list (num * A)) :
  In x (insertByKey e l) -> x = e \/ In x l.
Proof.
  induction l as [|y l IH]; simpl.
  - intros [<-|[]]. now left.
  - destruct (fst e <? fst y)%num; simpl.
    + intros [<-|H]; auto.
    + intros [<-|H]; auto. destruct (IH H); auto.
Qed.

Lemma objectValues_In {A} (obj : list (num * A)) (a : A) :
  In a (objectValues obj) -> exists k, In (k, a) obj.
Proof.
  unfold objectValues. intro H.
  apply in_map_iff in H. destruct H as [[k a'] [E H]]. simpl in E. subst a'.
  exists k. apply in_app_or in H. destruct H as [H|H].
  - assert (S : forall l, In (k, a) (fold_right insertByKey [] l) -> In (k, a) l).
    { induction l as [|y l IH]; simpl; [auto|].
      intro X. destruct (insertByKey_In _ _ _ X); auto. }
    apply S in H. now apply filter_In in H.
  - now apply filter_In in H.
Qed.

Lemma stepsFrom_In (rawPoints : list Point) (cumRaw : list num)
    (ds : list DetailedSegment) (checkpoints : list (num * num)) (rest : list num) :
  forall i fromKm st,
    In st (stepsFrom rawPoints cumRaw ds checkpoints i fromKm rest) ->
    exists j a b, st = makeStep rawPoints cumRaw ds checkpoints j a b.
Proof.
  induction rest as [|toKm rest IH]; intros i fromKm st H; [destruct H|].
  destruct H as [<-|H]; eauto.
Qed.

Lemma makeStep_moving (rawPoints : list Point) (cumRaw : list num)
    (ds : list DetailedSegment) (checkpoints : list (num * num)) (i : nat)
    (fromKm toKm : num) :
  let st := makeStep rawPoints cumRaw ds checkpoints i fromKm toKm in
  st_fromKm st = fromKm /\ st_toKm st = toKm
  /\ st_movingSec st = Num.round (sumNum (map timeSec (segmentsOfStage fromKm toKm ds))).
Proof.
  unfold makeStep. destruct (gainLoss _). repeat split.
Qed.

(** The keys of the kilometre groups are whole numbers (or not finite), so
    two keys that name the same property are the same number. *)
Lemma floor_sameKey (x y : num) :
  sameKey (Num.floor x) (Num.floor y) = true -> Num.floor x = Num.floor y.
Proof.
  destruct x as [a| | |], y as [b| | |]; cbn [Num.floor sameKey];
    try discriminate; try reflexivity.
  intro H. apply Qeq_bool_eq in H. rewrite inject_Z_injective in H. now rewrite H.
Qed.

Lemma upsert_key (key : num) (d : DetailedSegment) (obj : list (num * KmGroup)) :
  forall k g, In (k, g) (upsert key d obj) -> k = key \/ exists g0, In (k, g0) obj.
Proof.
  induction obj as [|[k0 g0] rest IH]; intros k g H.
  - destruct H as [H|[]]. inversion H. now left.
  - cbn [upsert] in H. destruct (sameKey k0 key).
    + destruct H as [H|H].
      * inversion H; subst. right. exists g0. now left.
      * right. exists g. now right.
    + destruct H as [H|H].
      * inversion H; subst. right. exists g. now left.
      * destruct (IH _ _ H) as [E|[g1 I]]; [now left|].
        right. exists g1. now right.
Qed.

(** A group is created for the kilometre of a segment only. *)
Lemma groupPerKm_keys (ds : list DetailedSegment) :
  forall k g, In (k, g) (groupPerKm ds) -> exists d, In d ds /\ k = kmIndexOf d.
Proof.
  unfold groupPerKm.
  assert (G : forall obj k g,
            In (k, g) (fold_left (fun perKm d => upsert (kmIndexOf d) d perKm) ds obj) ->
            (exists g0, In (k, g0) obj) \/ exists d, In d ds /\ k = kmIndexOf d).
  { induction ds as [|d ds IH]; intros obj k g H.
    - left. now exists g.
    - cbn [fold_left] in H. destruct (IH _ _ _ H) as [[g0 I]|[d' [I E]]].
      + destruct (upsert_key _ _ _ _ _ I) as [E|X].
        * right. exists d. split; [now left|exact E].
        * now left.
      + right. exists d'. split; [now right|exact E]. }
  intros k g H. destruct (G [] k g H) as [[g0 []]|X]. exact X.
Qed.

Lemma insertByKey_has {A} (e x : num * A) (l : list (num * A)) :
  x = e \/ In x l -> In x (insertByKey e l).
Proof.
  induction l as [|y l IH]; cbn [insertByKey].
  - intros [->|[]]. now left.
  - destruct (fst e <? fst y)%num.
    + intros [->|H]; [now left|now right].
    + intros [->|[->|H]].
      * right. apply IH. now left.
      * now left.
      * right. apply IH. now right.
Qed.

(** Object.values leaves no property out. *)
Lemma objectValues_has {A} (obj : list (num * A)) (k : num) (a : A) :
  In (k, a) obj -> In a (objectValues obj).
Proof.
  intro H. unfold objectValues.
  change a with (snd (k, a)). apply in_map. apply in_or_app.
  destruct (isArrayIndex k) eqn:E.
  - left.
    assert (S : forall l, In (k, a) l -> In (k, a) (fold_right insertByKey [] l)).
    { induction l as [|y l IH]; [auto|]. intros [->|X]; cbn [fold_right].
      - apply insertByKey_has. now left.
      - apply insertByKey_has. right. now apply IH. }
    apply S. apply filter_In. split; [exact H|exact E].
  - right. apply filter_In. split; [exact H|]. cbn [fst]. now rewrite E.
Qed.

(** *** The stages between the boundaries *)
Lemma stepsFrom_shape (rawPoints : list Point) (cumRaw : list num)
    (ds : list DetailedSegment) (checkpoints : list (num * num)) (rest : list num) :
  forall i fromKm,
    let sts := stepsFrom rawPoints cumRaw ds checkpoints i fromKm rest in
    map st_index sts = seq (S i) (length rest)
    /\ map st_fromKm sts = removelast (fromKm :: rest)
    /\ map st_toKm sts = rest.
Proof.
  induction rest as [|toKm rest IH]; intros i fromKm; [repeat split|].
  destruct (IH (S i) toKm) as [A [B C]].
  cbn zeta in *. cbn [stepsFrom map length seq]. rewrite A, C.
  change (removelast (fromKm :: toKm :: rest)) with (fromKm :: removelast (toKm :: rest)).
  rewrite B. unfold makeStep.
  destruct (gainLoss _). cbn [st_index st_fromKm st_toKm].
  rewrite Nat.add_1_r. repeat split.
Qed.

Lemma buildSteps_boundaries (rawPoints : list Point) (cumRaw : list num)
    (ds : list DetailedSegment) (checkpoints : list (num * num))
    (boundaries : list num) :
  let sts := buildSteps rawPoints cumRaw ds checkpoints boundaries in
  map st_fromKm sts = removelast boundaries /\ map st_toKm sts = tl boundaries.
Proof.
  destruct boundaries as [|b0 rest]; [now split|].
  cbn [buildSteps tl].
  destruct (stepsFrom_shape rawPoints cumRaw ds checkpoints rest 0 b0) as [_ [A B]].
  now split.
Qed.

Section Aggregates.

Variable haversineDistance : num * num -> num * num -> num.

(** C5. In every result the time of a kilometre group and the moving time
    of a stage are the sum of the times of the segments they contain, each
    rounded to the second beforehand: a whole number of seconds (or not
    finite when a segment time is not). No aggregate is missing: every
    segment lies in a kilometre group of the table, the one of its
    kilometre, and there is one stage for every two consecutive stage
    boundaries. *)
Theorem aggregates_sum_rounded_times (fuel : nat)
    (found : list (num * num * option num))
    (targetTime : list num) (profile : string) (prudence : num)
    (checkpoints : list (num * num)) (restPeriods : num * num)
    (segmentLengthM : num) (smoothingWindow : nat) (r : PacingResult) :
  calculatePacing haversineDistance fuel found targetTime profile prudence
    checkpoints restPeriods segmentLengthM smoothingWindow = Ok r ->
  Forall (fun d => timeSec d = Num.round (segmentTime (seg d) (speedKmh d)))
         (per250m r)
  /\ (forall k, In k (perKm r) ->
        exists kmIndex,
          k_km k = (kmIndex + Fin 1)%num
          /\ k_timeSec k = sumNum (map timeSec (segmentsOfKm kmIndex (per250m r)))
          /\ wholeOrNonFinite (k_timeSec k))
  /\ (forall st, In st (steps r) ->
        st_movingSec st
        = sumNum (map timeSec
                    (segmentsOfStage (st_fromKm st) (st_toKm st) (per250m r)))
        /\ wholeOrNonFinite (st_movingSec st))
  /\ (forall d, In d (per250m r) ->
        In d (segmentsOfKm (kmIndexOf d) (per250m r))
        /\ exists k,
             In k (perKm r)
             /\ k_km k = (kmIndexOf d + Fin 1)%num
             /\ k_timeSec k
                = sumNum (map timeSec (segmentsOfKm (kmIndexOf d) (per250m r))))
  /\ (forall k, In k (perKm r) ->
        exists d, In d (per250m r) /\ k_km k = (kmIndexOf d + Fin 1)%num)
  /\ (let boundaries :=
        uniqueBoundariesOf checkpoints (totalDistanceKm (totals r)) in
      map st_fromKm (steps r) = removelast boundaries
      /\ map st_toKm (steps r) = tl boundaries).
Proof.
  intro H.
  destruct (calculatePacing_Ok haversineDistance _ _ _ _ _ _ _ _ _ _ H)
    as [rawPoints [dist [segments [t [_ [_ ->]]]]]].
  unfold finishPacing. destruct (gainLoss _) as [dp dm].
  cbn [per250m perKm steps totals totalDistanceKm].
  set (vFlat := findVflatDefault _ _ _ _).
  set (ds := map (detailSegment vFlat profile prudence) segments).
  destruct (groupPerKm_groups ds) as [_ [G C]].
  assert (Wk : forall k, wholeOrNonFinite (sumNum (map timeSec (segmentsOfKm k ds)))).
  { intro k. apply sumNum_whole. apply detailed_times_whole. }
  assert (Ws : forall a b,
            wholeOrNonFinite (sumNum (map timeSec (segmentsOfStage a b ds)))).
  { intros a b. apply sumNum_whole. apply detailed_times_whole. }
  split; [|split; [|split; [|split; [|split]]]].
  - apply Forall_forall. intros d Hd. unfold ds in Hd.
    apply in_map_iff in Hd. destruct Hd as [s [<- _]]. reflexivity.
  - intros k Hk. unfold perKmArrayOf in Hk.
    apply in_map_iff in Hk. destruct Hk as [g [<- Hg]].
    apply objectValues_In in Hg. destruct Hg as [key Hg].
    destruct (G _ _ Hg) as [G1 G2].
    exists key. cbn [summarizeKm k_km k_timeSec].
    rewrite G2, (round_idem _ (Wk _)). repeat split; [assumption|apply Wk].
  - intros st Hst. unfold buildSteps in Hst.
    destruct (uniqueBoundariesOf checkpoints dist) as [|b0 rest]; [destruct Hst|].
    apply stepsFrom_In in Hst. destruct Hst as [j [a [b ->]]].
    destruct (makeStep_moving rawPoints
                (cumulativeDistancesOf haversineDistance
                   (map (fun p => (lat p, lon p)) rawPoints))
                ds checkpoints j a b) as [-> [-> M]].
    rewrite M, (round_idem _ (Ws _ _)). split; [reflexivity|apply Ws].
  - intros d Hd. split.
    { apply filter_In. split; [exact Hd|apply sameKey_refl]. }
    destruct (C d Hd) as [key [g [Hg S]]].
    destruct (groupPerKm_keys ds _ _ Hg) as [d0 [_ K]].
    rewrite K in S.
    assert (E : kmIndexOf d0 = kmIndexOf d) by (apply floor_sameKey; exact S).
    rewrite E in K. subst key.
    destruct (G _ _ Hg) as [G1 G2].
    exists (summarizeKm g). split; [|split].
    + unfold perKmArrayOf. apply in_map. now apply (objectValues_has _ (kmIndexOf d)).
    + exact G1.
    + cbn [summarizeKm k_timeSec]. rewrite G2. apply round_idem, Wk.
  - intros k Hk. unfold perKmArrayOf in Hk.
    apply in_map_iff in Hk. destruct Hk as [g [<- Hg]].
    apply objectValues_In in Hg. destruct Hg as [key Hg].
    destruct (groupPerKm_keys ds _ _ Hg) as [d0 [I K]].
    destruct (G _ _ Hg) as [G1 _].
    exists d0. split; [exact I|]. cbn [summarizeKm k_km]. now rewrite G1, K.
  - apply buildSteps_boundaries.
Qed.

End Aggregates.

(** ** Resampling *)

Lemma targetsLoop_bounded (total step : Q) : 0 < step ->
  forall (N : nat) (d : Q),
    total - d <= inject_Z (Z.of_nat N) * step ->
    forall fuel, (N <= fuel)%nat ->
      exists n,
        targetsLoop fuel (Fin d) (Fin total) (Fin step) = Ok (map Fin (arith d step n))
        /\ Forall (fun x => x < total) (arith d step n)
        /\ total <= arithEnd d step n.
Proof.
  intros Hs N. induction N as [|N IH]; intros d Hd fuel Hf.
  - change (inject_Z (Z.of_nat 0)) with 0 in Hd.
    exists O. assert (L : Num.Qltb d total = false).
    { apply Qltb_false. lra. }
    destruct fuel; simpl; rewrite L; repeat split; try constructor; lra.
  - destruct (Num.Qltb d total) eqn:L.
    + destruct fuel as [|fuel]; [lia|].
      assert (Hd' : total - (d + step) <= inject_Z (Z.of_nat N) * step).
      { rewrite Nat2Z.inj_succ in Hd. unfold Z.succ in Hd.
        rewrite inject_Z_plus in Hd. change (inject_Z 1) with 1 in Hd. lra. }
      destruct (IH (d + step) Hd' fuel ltac:(lia)) as [n [E [F B]]].
      exists (S n). cbn [targetsLoop Num.ltb Num.add]. rewrite L, E.
      simpl. repeat split; try assumption.
      constructor; [|assumption]. now apply Qltb_true in L.
    + exists O.
      destruct fuel; simpl; rewrite L; apply Qltb_false in L;
        repeat split; try constructor; lra.
Qed.

Lemma targetsLoop_terminates (total step : Q) : 0 < step ->
  exists fuel0, forall fuel, (fuel0 <= fuel)%nat ->
    exists n,
      targetsLoop fuel (Fin 0) (Fin total) (Fin step) = Ok (map Fin (arith 0 step n))
      /\ Forall (fun x => x < total) (arith 0 step n)
      /\ total <= arithEnd 0 step n.
Proof.
  intro Hs.
  exists (Z.to_nat (Qceiling (total / step))). intros fuel Hf.
  apply (targetsLoop_bounded total step Hs (Z.to_nat (Qceiling (total / step))));
    [|assumption].
  destruct (Qlt_le_dec total 0) as [Neg|Pos].
  - assert (0 <= inject_Z (Z.of_nat (Z.to_nat (Qceiling (total / step)))) * step).
    { apply Qmult_le_0_compat; [|lra].
      change 0 with (inject_Z 0). rewrite <- Zle_Qle. lia. }
    lra.
  - assert (C : total / step <= inject_Z (Qceiling (total / step)))
      by apply Qle_ceiling.
    assert (P : (0 <= Qceiling (total / step))%Z).
    { rewrite Zle_Qle. change (inject_Z 0) with 0.
      apply Qle_trans with (total / step); [|assumption].
      apply Qle_shift_div_l; lra. }
    rewrite Z2Nat.id by assumption.
    assert (M : total / step * step <= inject_Z (Qceiling (total / step)) * step).
    { apply Qmult_le_compat_r; lra. }
    assert (E : total / step * step == total) by (field; lra).
    lra.
Qed.

Lemma advance_ge (l : list num) (target : num) : forall j, (j <= advance l j target)%nat.
Proof.
  induction l as [|c l IH]; intro j; simpl; [lia|].
  destruct (c <? target)%num; [|lia].
  specialize (IH (S j)). lia.
Qed.

Lemma resampleOne_ok (points : list SmoothedPoint) (cum : list num)
    (j i : nat) (target : num) :
  (2 <= length points)%nat -> length cum = length points -> (1 <= j)%nat ->
  exists j' r,
    resampleOne points cum j i target = Ok (j', r)
    /\ (1 <= j')%nat /\ distanceM r = target /\ rindex r = i.
Proof.
  intros Hp Hc Hj. unfold resampleOne.
  pose proof (advance_ge (skipn j cum) target j) as A.
  set (j1 := advance (skipn j cum) j target) in *.
  set (j2 := if (length cum <=? j1)%nat then (length cum - 1)%nat else j1).
  assert (B : (1 <= j2 < length points)%nat).
  { unfold j2. destruct (length cum <=? j1)%nat eqn:E.
    - lia.
    - apply Nat.leb_gt in E. lia. }
  destruct j2 as [|j0] eqn:J; [lia|].
  destruct (nth_error points j0) as [p0|] eqn:P0;
    [|apply nth_error_None in P0; lia].
  destruct (nth_error points (S j0)) as [p1|] eqn:P1;
    [|apply nth_error_None in P1; lia].
  simpl. do 2 eexists. split; [reflexivity|]. simpl. repeat split. lia.
Qed.

Lemma resampleLoop_ok (points : list SmoothedPoint) (cum : list num) :
  (2 <= length points)%nat -> length cum = length points ->
  forall targets j i, (1 <= j)%nat ->
    exists out, resampleLoop points cum j i targets = Ok out
                /\ map distanceM out = targets.
Proof.
  intros Hp Hc. induction targets as [|t targets IH]; intros j i Hj.
  - exists []. split; reflexivity.
  - destruct (resampleOne_ok points cum j i t Hp Hc Hj) as [j' [r [E [Hj' [D _]]]]].
    destruct (IH j' (S i) Hj') as [out [E' M]].
    exists (r :: out). simpl. rewrite E. simpl. rewrite E'. simpl.
    split; [reflexivity|]. now rewrite D, M.
Qed.

(** *** The shape of the targets *)

Lemma arith_increasing (total step : Q) : 0 < step -> forall n d,
  Forall (fun x => x < total) (arith d step n) ->
  increasing (arith d step n ++ [total]).
Proof.
  intros Hs. induction n as [|n IH]; intros d F; [exact I|].
  simpl in F. inversion F as [|? ? Hd F']; subst.
  specialize (IH (d + step) F').
  simpl. destruct n as [|n]; simpl in *.
  - split; [assumption|exact I].
  - split; [lra|assumption].
Qed.

Lemma arith_evenlySpaced (total step : Q) : forall n d,
  total <= arithEnd d step n ->
  evenlySpaced step (arith d step n ++ [total]).
Proof.
  induction n as [|n IH]; intros d B; [exact I|].
  simpl in B. specialize (IH (d + step) B).
  destruct n as [|n]; simpl in *.
  - lra.
  - destruct (arith (d + step + step) step n ++ [total]) eqn:E;
      [destruct (arith (d + step + step) step n); discriminate|].
    split; [ring|assumption].
Qed.

Lemma last_app_one {A} (l : list A) (x d : A) : last (l ++ [x]) d = x.
Proof. apply last_last. Qed.

Lemma last_cons_indep {A} (l : list A) : forall x d d',
  last (x :: l) d = last (x :: l) d'.
Proof.
  induction l as [|y l IH]; intros x d d'; [reflexivity|].
  change (last (x :: y :: l) d) with (last (y :: l) d).
  change (last (x :: y :: l) d') with (last (y :: l) d').
  apply IH.
Qed.

(** The lengths of the segments add up to the last distance minus the
    first. *)
Lemma segments_telescope (rest : list Resampled) : forall i a x xs acc,
  distanceM a = Fin x -> map distanceM rest = map Fin xs ->
  exists sum,
    fold_left Num.add (map lengthM (segmentsFrom i a rest)) (Fin acc) = Fin sum
    /\ sum == acc + (last (x :: xs) x - x).
Proof.
  induction rest as [|b rest IH]; intros i a x xs acc Ha Hm.
  - destruct xs; [|discriminate]. exists acc. split; [reflexivity|simpl; ring].
  - destruct xs as [|y xs]; [discriminate|]. simpl in Hm. inversion Hm as [[Hb Hr]].
    destruct (IH (S i) b y xs (acc + (y - x)) Hb Hr) as [sum [E S]].
    exists sum. split.
    + simpl. rewrite Ha, Hb. exact E.
    + rewrite S. change (last (x :: y :: xs) x) with (last (y :: xs) x).
      rewrite (last_cons_indep xs y x y). ring.
Qed.

Lemma nth_last_index {A} (l : list A) (d : A) : nth (length l - 1) l d = last l d.
Proof.
  induction l as [|x l IH]; [reflexivity|].
  destruct l as [|y l]; [reflexivity|].
  simpl in *. rewrite Nat.sub_0_r in IH. exact IH.
Qed.

Lemma total_of_cum (cum : list Q) : cum <> [] ->
  at_ (map Fin cum) (length (map Fin cum) - 1) = Fin (last cum 0).
Proof.
  intro H. unfold at_. rewrite length_map.
  rewrite (nth_indep _ NaN (Fin 0)).
  - now rewrite map_nth, nth_last_index.
  - rewrite length_map. destruct cum; [congruence|simpl; lia].
Qed.

Lemma nondecreasing_last (l : list Q) : forall x d,
  nondecreasing (x :: l) -> x <= last (x :: l) d.
Proof.
  induction l as [|y l IH]; intros x d H; [simpl; lra|].
  destruct H as [H1 H2].
  change (last (x :: y :: l) d) with (last (y :: l) d).
  specialize (IH y d H2). lra.
Qed.

(** C6. For at least two points, their cumulative distances (starting at 0
    and never decreasing) and a positive step, resamplePoints ends (with
    enough fuel for its first loop) and returns points whose distances from
    the start strictly increase, [step] apart except for a last interval that
    may be shorter; the last distance is the total distance itself, and the
    lengths of the segments between the points add up to the total. *)
Theorem resample_distances (points : list SmoothedPoint) (cum : list Q) (step : Q) :
  (2 <= length points)%nat ->
  length cum = length points ->
  nth 0 cum 0 == 0 ->
  nondecreasing cum ->
  0 < step ->
  let total := last cum 0 in
  exists fuel0, forall fuel, (fuel0 <= fuel)%nat ->
    exists out ds,
      resamplePoints fuel points (map Fin cum) (Fin step) = Ok out
      /\ map distanceM out = map Fin ds
      /\ increasing ds
      /\ evenlySpaced step ds
      /\ last ds 0 = total
      /\ exists sum,
           sumNum (map lengthM (createSegments out)) = Fin sum /\ sum == total.
Proof.
  intros Hp Hc H0 Hm Hs total.
  assert (Hne : cum <> []) by (destruct cum; [simpl in Hc; lia|discriminate]).
  assert (Ht : 0 <= total).
  { unfold total. destruct cum as [|x l]; [congruence|].
    simpl in H0. pose proof (nondecreasing_last l x 0 Hm). lra. }
  destruct (targetsLoop_terminates total step Hs) as [fuel0 T].
  exists fuel0. intros fuel Hf.
  destruct (T fuel Hf) as [n [E [F B]]].
  destruct (resampleLoop_ok points (map Fin cum) Hp
              ltac:(now rewrite length_map)
              (map Fin (arith 0 step n) ++ [Fin total]) 1%nat 0%nat (le_n 1))
    as [out [R M]].
  exists out, (arith 0 step n ++ [total]).
  assert (M' : map distanceM out = map Fin (arith 0 step n ++ [total])).
  { now rewrite map_app. }
  split.
  { unfold resamplePoints. rewrite (total_of_cum cum Hne). fold total.
    rewrite E. exact R. }
  split; [exact M'|].
  split; [now apply arith_increasing|].
  split; [now apply arith_evenlySpaced|].
  split; [apply last_app_one|].
  destruct out as [|a rest].
  { destruct (arith 0 step n); discriminate. }
  destruct (arith 0 step n ++ [total]) as [|x xs] eqn:D;
    [destruct (arith 0 step n); discriminate|].
  simpl in M'. inversion M' as [[Ha Hr]].
  destruct (segments_telescope rest 1%nat a x xs 0 Ha Hr) as [sum [S1 S2]].
  exists sum. split; [exact S1|].
  rewrite S2.
  assert (L : last (x :: xs) x = total).
  { rewrite <- D. rewrite (last_app_one (arith 0 step n) total x). reflexivity. }
  rewrite L.
  destruct n as [|n]; simpl in D, B; inversion D as [[Hx Hxs]]; lra.
Qed.

(** *** The segments that the resampler hands to the calibration *)

Lemma targetsLoop_sound (total step : Q) : forall fuel d ts,
  targetsLoop fuel (Fin d) (Fin total) (Fin step) = Ok ts ->
  exists n, ts = map Fin (arith d step n)
            /\ Forall (fun x => x < total) (arith d step n).
Proof.
  induction fuel as [|fuel IH]; intros d ts; simpl.
  - destruct (Num.Qltb d total); [discriminate|].
    intro H. inversion H. exists O. split; [reflexivity|constructor].
  - destruct (Num.Qltb d total) eqn:L.
    + destruct (targetsLoop fuel (Fin (d + step)) (Fin total) (Fin step))
        as [rest|] eqn:E; [|discriminate].
      simpl. intro H. inversion H; subst ts.
      destruct (IH _ _ E) as [n [-> F]].
      exists (S n). split; [reflexivity|].
      constructor; [now apply Qltb_true in L|assumption].
    + intro H. inversion H. exists O. split; [reflexivity|constructor].
Qed.

Lemma at_Fin (cum : list Q) (j : nat) : (j < length cum)%nat ->
  at_ (map Fin cum) j = Fin (nth j cum 0).
Proof.
  intro H. unfold at_. rewrite (nth_indep _ NaN (Fin 0)) by now rewrite length_map.
  apply map_nth.
Qed.

Lemma resampleOne_finite (points : list SmoothedPoint) (cum : list Q)
    (j i : nat) (target : Q) (j' : nat) (r : Resampled) :
  length cum = length points -> Forall finiteElevation points ->
  resampleOne points (map Fin cum) j i (Fin target) = Ok (j', r) ->
  (1 <= j')%nat /\ distanceM r = Fin target /\ exists e, rele r = Fin e.
Proof.
  intros Hc Fp. unfold resampleOne.
  set (j2 := if (_ <=? _)%nat then _ else _).
  destruct j2 as [|j0]; [discriminate|].
  destruct (nth_error points j0) as [p0|] eqn:P0; [|discriminate].
  destruct (nth_error points (S j0)) as [p1|] eqn:P1; [|discriminate].
  cbn [ofOption bind]. intro H. inversion H; subst j' r. clear H.
  split; [lia|]. split; [reflexivity|]. cbn [rele].
  assert (L1 : (S j0 < length points)%nat)
    by (apply nth_error_Some; congruence).
  rewrite !at_Fin by lia.
  destruct (proj1 (Forall_forall _ _) Fp p0 (nth_error_In _ _ P0)) as [e0 ->].
  destruct (proj1 (Forall_forall _ _) Fp p1 (nth_error_In _ _ P1)) as [e1 ->].
  cbn [Num.eqb].
  destruct (Qeq_bool (nth (S j0) cum 0) (nth j0 cum 0)) eqn:E.
  - eexists. reflexivity.
  - cbn [Num.sub Num.opp Num.add]. rewrite div_Fin.
    + eexists. reflexivity.
    + qfacts. intro Z. apply E. lra.
Qed.

Lemma resampleLoop_finite (points : list SmoothedPoint) (cum : list Q) :
  length cum = length points -> Forall finiteElevation points ->
  forall (targets : list Q) j i out,
    resampleLoop points (map Fin cum) j i (map Fin targets) = Ok out ->
    map distanceM out = map Fin targets
    /\ Forall (fun r => exists e, rele r = Fin e) out.
Proof.
  intros Hc Fp. induction targets as [|t targets IH]; intros j i out; simpl.
  - intro H. inversion H. split; [reflexivity|constructor].
  - destruct (resampleOne points (map Fin cum) j i (Fin t)) as [[j' r]|] eqn:E;
      [|discriminate].
    cbn [bind].
    destruct (resampleLoop points (map Fin cum) j' (S i) (map Fin targets))
      as [rs|] eqn:E'; [|discriminate].
    cbn [bind]. intro H. inversion H; subst out.
    destruct (resampleOne_finite _ _ _ _ _ _ _ Hc Fp E) as [_ [D Fe]].
    destruct (IH _ _ _ E') as [M F].
    split; [simpl; now rewrite D, M|now constructor].
Qed.

Lemma segmentsFrom_wellFormed (rest : list Resampled) : forall i a x xs,
  distanceM a = Fin x -> (exists e, rele a = Fin e) ->
  map distanceM rest = map Fin xs ->
  Forall (fun r => exists e, rele r = Fin e) rest ->
  increasing (x :: xs) ->
  Forall wellFormedSegment (segmentsFrom i a rest).
Proof.
  induction rest as [|b rest IH]; intros i a x xs Ha [ea Ea] Hm Fe Hi;
    [constructor|].
  destruct xs as [|y xs]; [discriminate|]. simpl in Hm. inversion Hm as [[Hb Hr]].
  inversion Fe as [|? ? [eb Eb] Fe']; subst.
  destruct Hi as [Hxy Hi]. simpl. constructor.
  - split.
    + unfold finiteSlope, makeSegment. cbn [slopePct]. rewrite Ha, Hb, Ea, Eb.
      cbn [Num.sub Num.opp Num.add Num.gtb Num.ltb].
      destruct (Num.Qltb 0 (y + - x)) eqn:G; [|reflexivity].
      rewrite div_Fin by (apply Qltb_true in G; lra). reflexivity.
    + exists (y - x). simpl. rewrite Ha, Hb. split; [reflexivity|lra].
  - apply (IH (S i) b y xs); eauto.
Qed.

(** Whenever resamplePoints returns on finite inputs, the segments between
    its points are well formed. *)
Lemma resampled_segments_wellFormed (points : list SmoothedPoint) (cum : list Q)
    (step : Q) (fuel : nat) (out : list Resampled) :
  length cum = length points -> cum <> [] -> 0 < step ->
  Forall finiteElevation points ->
  resamplePoints fuel points (map Fin cum) (Fin step) = Ok out ->
  Forall wellFormedSegment (createSegments out).
Proof.
  intros Hc Hne Hs Fp. unfold resamplePoints.
  rewrite (total_of_cum cum Hne). set (total := last cum 0).
  destruct (targetsLoop fuel (Fin 0) (Fin total) (Fin step)) as [ts|] eqn:E;
    [|discriminate].
  cbn [bind]. destruct (targetsLoop_sound _ _ _ _ _ E) as [n [-> F]].
  replace (map Fin (arith 0 step n) ++ [Fin total])
    with (map Fin (arith 0 step n ++ [total])) by now rewrite map_app.
  intro R. destruct (resampleLoop_finite points cum Hc Fp _ _ _ _ R) as [M Fe].
  pose proof (arith_increasing total step Hs n 0 F) as Inc.
  destruct out as [|a rest]; [constructor|].
  destruct (arith 0 step n ++ [total]) as [|x xs]; [discriminate|].
  simpl in M. inversion M as [[Ha Hr]]. inversion Fe; subst.
  now apply (segmentsFrom_wellFormed rest 1%nat a x xs).
Qed.

Lemma smoothAt_finite (elevations : list num) (half i : nat) :
  match smoothAt elevations half i with
  | Some v => Num.isFinite v = true
  | None => True
  end.
Proof.
  unfold smoothAt.
  set (f := fun '(sum, count) j =>
              let e := nth j elevations NaN in
              if Num.isFinite e then ((sum + e)%num, S count) else (sum, count)).
  assert (Inv : forall l acc,
            (exists q, fst acc = Fin q) ->
            exists q, fst (fold_left f l acc) = Fin q).
  { induction l as [|j l IH]; intros [sum count] A; [exact A|].
    simpl. apply IH. unfold f.
    destruct (nth j elevations NaN) as [e| | |]; simpl; try exact A.
    destruct A as [q A]. simpl in A. subst sum. eexists. reflexivity. }
  destruct (Inv (windowIndices (length elevations) half i) (Fin 0, O))
    as [q Hq]; [eexists; reflexivity|].
  destruct (fold_left f _ _) as [sum count]. simpl in Hq. subst sum.
  destruct (0 <? count)%nat eqn:C; [|exact I].
  apply Nat.ltb_lt in C. rewrite div_Fin; [reflexivity|].
  intro Z. change 0 with (inject_Z 0) in Z.
  rewrite inject_Z_injective in Z. lia.
Qed.

Lemma smoothElevation_finite (elevations : list num) (windowSize : nat) :
  Forall (fun v => Num.isFinite v = true) elevations ->
  Forall (fun o => match o with Some v => Num.isFinite v = true | None => True end)
         (smoothElevation elevations windowSize).
Proof.
  intro F. unfold smoothElevation. destruct (windowSize =? 1)%nat.
  - apply Forall_map. exact F.
  - apply Forall_map. apply Forall_forall. intros i _. apply smoothAt_finite.
Qed.

(** The points that calculatePacing resamples have a finite elevation or
    the null marker. *)
Lemma conditionPoints_finite (rawPoints : list Point) (smoothingWindow : nat) :
  Forall finiteElevation (conditionPoints rawPoints smoothingWindow).
Proof.
  unfold conditionPoints. apply Forall_map. apply Forall_forall.
  intros [p e] H. apply in_combine_r in H.
  pose proof (smoothElevation_finite
                (fillMissingElevation (map ele rawPoints)) smoothingWindow) as S.
  assert (F : Forall (fun v => Num.isFinite v = true)
                (fillMissingElevation (map ele rawPoints))).
  { apply fillMissingElevation_all_finite. }
  specialize (S F). rewrite Forall_forall in S. specialize (S e H).
  unfold finiteElevation. simpl.
  destruct e as [v|]; [|eexists; reflexivity].
  destruct v; try discriminate. eexists. reflexivity.
Qed.

Section CalibrationInput.

Variable haversineDistance : num * num -> num * num -> num.

(** On finite coordinates the great-circle distance is a finite number. *)
Hypothesis haversine_finite :
  forall a b, exists q, haversineDistance a b = Fin q.

Lemma cumulativeFrom_finite (rest : list (num * num)) : forall prev acc,
  exists cq, cumulativeFrom haversineDistance prev (Fin acc) rest = map Fin cq
             /\ length cq = length rest.
Proof.
  induction rest as [|p rest IH]; intros prev acc.
  - exists []. split; reflexivity.
  - simpl. destruct (haversine_finite prev p) as [q ->]. cbn [Num.add].
    destruct (IH p (acc + q)) as [cq [E L]].
    exists ((acc + q) :: cq). simpl. rewrite E, L. split; reflexivity.
Qed.

Lemma cumulativeOfPoints_finite (points : list SmoothedPoint) :
  points <> [] ->
  exists cq, cumulativeOfPoints haversineDistance points = map Fin cq
             /\ length cq = length points.
Proof.
  intro H. destruct points as [|p rest]; [congruence|].
  unfold cumulativeOfPoints, cumulativeDistancesOf. simpl map.
  destruct (cumulativeFrom_finite
              (map (fun p => (slat p, slon p)) rest) (slat p, slon p) 0)
    as [cq [E L]].
  exists (0 :: cq). simpl. rewrite E, L, length_map. split; reflexivity.
Qed.

(** The segments on which calculatePacing calibrates the flat speed are
    well formed: finite slope, finite length that is not negative. *)
Lemma calibration_segments_wellFormed (rawPoints : list Point)
    (smoothingWindow fuel : nat) (step : Q) (resampledPoints : list Resampled) :
  rawPoints <> [] -> 0 < step ->
  let points := conditionPoints rawPoints smoothingWindow in
  resamplePoints fuel points (cumulativeOfPoints haversineDistance points) (Fin step)
  = Ok resampledPoints ->
  Forall wellFormedSegment (createSegments resampledPoints).
Proof.
  intros Hne Hs points R.
  assert (Hp : points <> []).
  { unfold points, conditionPoints.
    rewrite <- length_zero_iff_nil, length_map, length_combine.
    unfold smoothElevation.
    destruct (smoothingWindow =? 1)%nat;
      rewrite !length_map, ?length_seq, fillMissingElevation_length, length_map;
      destruct rawPoints; [congruence|simpl; lia|congruence|simpl; lia]. }
  destruct (cumulativeOfPoints_finite points Hp) as [cq [E L]].
  rewrite E in R.
  apply (resampled_segments_wellFormed points cq step fuel resampledPoints);
    try assumption.
  - destruct cq; [|discriminate]. destruct points; [congruence|discriminate].
  - apply conditionPoints_finite.
Qed.

End CalibrationInput.

(** ** The definitions at work *)

Example speed_at_12 :
  (calculateSpeedForSlope (Fin 12) (Fin 10) "trained" (Fin 0.5) =? Fin (250 # 37))%num
  = true.
Proof. vm_compute. reflexivity. Qed.

Example speed_above_12 :
  (calculateSpeedForSlope (Fin 12.01) (Fin 10) "trained" (Fin 0.5) =? Fin 5.725)%num
  = true
  /\ (calculateSpeedForSlope (Fin 12.01) (Fin 10) "standard" (Fin 0.5) =? Fin 5.035)%num
     = true.
Proof. split; vm_compute; reflexivity. Qed.

Example speed_at_minus_1_and_minus_3 :
  calculateSpeedForSlope (Fin (-1)) (Fin 10) "trained" (Fin 0.5) = Fin 10
  /\ (calculateSpeedForSlope (Fin (-3)) (Fin 9.4) "trained" (Fin 0.5) =? Fin 10)%num
     = true.
Proof. split; vm_compute; reflexivity. Qed.

(** On a slope that is no number the two variants part: the browser falls
    back on the flat speed, the command line script on its last bracket. *)
Example speed_on_NaN :
  calculateSpeedForSlope NaN (Fin 10) "trained" (Fin 0.5) = Fin 10
  /\ (speedForSlopeKmh NaN (Fin 10) "trained" (Fin 0.5) =? Fin 4.725)%num = true.
Proof. split; vm_compute; reflexivity. Qed.

Example fill_gaps :
  fillMissingElevation [NaN; NaN; Fin 5; NaN; Fin 7; PInf]
  = [Fin 5; Fin 5; Fin 5; Fin 5; Fin 7; Fin 7].
Proof. reflexivity. Qed.

Example fill_nothing_finite : fillMissingElevation [NaN; PInf; NInf] = [Fin 0; Fin 0; Fin 0].
Proof. reflexivity. Qed.

(** On the raw elevations 0, 10, 0 the browser counts a gain of 10 m; the
    command line script counts on the smoothed elevations 5, 10/3, 5. *)
Example gain_raw_and_smoothed :
  (fst (gainLoss [Fin 0; Fin 10; Fin 0]) =? Fin 10)%num = true
  /\ (fst (gainLossCli (smoothElevation (fillMissing [Fin 0; Fin 10; Fin 0]) 3))
      =? Fin (5 / 3))%num = true.
Proof. split; vm_compute; reflexivity. Qed.

Example demo_parse : parseGpxFile Demo.found = Ok Demo.rawPoints.
Proof. reflexivity. Qed.


Example demo_distances :
  Forall2 (fun r d => (distanceM r =? Fin d)%num = true) Demo.resampledPoints
    [0; 250; 500; 600].
Proof. repeat constructor. Qed.

Example demo_out_of_fuel :
  resamplePoints 2 Demo.points Demo.cumulativeDistances (Fin 250) = Error OutOfFuel.
Proof. vm_compute. reflexivity. Qed.

(** A caution far above 1 turns a picked speed negative: the time is
    +Infinity. *)
Example time_infeasible :
  calculateMovingTimeForVflat Demo.twoSegments (Fin 10) "trained" (Fin 10) = PInf.
Proof. vm_compute. reflexivity. Qed.

Example time_of_two_segments :
  (calculateMovingTimeForVflat Demo.twoSegments (Fin 10) "trained" (Fin 0)
   =? Fin (108 + 900 / 6.67))%num = true.
Proof. vm_compute. reflexivity. Qed.

(** A target that no flat speed reaches: the browser returns a speed next
    to the upper bound, the command line script stops. *)
Example too_fast_browser :
  (findVflatForTargetTime Demo.twoSegments (Fin 1) "trained" (Fin 0) (Fin 3) (Fin 25) 3
   =? Fin (25 - 22 / 16))%num = true.
Proof. vm_compute. reflexivity. Qed.

Example too_fast_cli :
  calibrateCli Demo.twoSegments (Fin 1) (Fin 0) "trained" (Fin 0) (Fin 3) (Fin 25) 3
  = Error ObjectiveTooFast.
Proof. vm_compute. reflexivity. Qed.

Example stop_exceeds_cli :
  calibrateCli Demo.twoSegments (Fin 3600) (Fin 3600) "trained" (Fin 0) (Fin 3) (Fin 25) 3
  = Error StopTimeExceedsTarget.
Proof. vm_compute. reflexivity. Qed.

Example demo_long_stop : Demo.run Demo.longStop = Error StopTimeExceedsTarget.
Proof. vm_compute. reflexivity. Qed.

Example smooth_window_3 :
  Forall2 (fun o q => match o with Some v => (v =? Fin q)%num = true | None => False end)
    (smoothElevation [Fin 1; Fin 2; Fin 3; Fin 4; Fin 5] 3) [1.5; 2; 3; 4; 4.5].
Proof. repeat constructor. Qed.

(** The midpoints 200, 600 lie in kilometre 1, 1000 (index 1), 1400 and 1800
    in kilometre 2. *)
Example perKm_of_five :
  map (fun k => (k_km k, k_timeSec k)) (perKmArrayOf Demo.fiveDetailed)
  = [(Fin 1, Fin 294); (Fin 2, Fin 444)].
Proof. vm_compute. reflexivity. Qed.

(** One checkpoint at 1.2 km, stop of 5 minutes: the midpoint 1000 belongs to
    the first stage. *)
Example steps_of_five :
  map (fun st => (st_index st, st_movingSec st, st_stopSec st, st_totalSec st))
    (buildSteps Demo.rawPoints Demo.cumulativeDistances Demo.fiveDetailed
       [(Fin 1.2, Fin 5)] (uniqueBoundariesOf [(Fin 1.2, Fin 5)] (Fin 2)))
  = [(1%nat, Fin 433, Fin 300, Fin 733); (2%nat, Fin 305, Fin 0, Fin 305)].
Proof. vm_compute. reflexivity. Qed.

Example boundaries_deduplicated :
  uniqueBoundariesOf [(Fin 1.2, Fin 5); (Fin 1.2005, Fin 3)] (Fin 2)
  = [Fin 0; Fin 1.2; Fin 2].
Proof. vm_compute. reflexivity. Qed.

Lemma demo_run : Demo.run Demo.checkpoints = Ok Demo.pacing.
Proof.
  unfold Demo.run.
  rewrite (calculatePacing_run Demo.distance 10 Demo.found Demo.targetTime
             "trained" (Fin 0.5) Demo.checkpoints Demo.restPeriods (Fin 250) 3
             Demo.rawPoints Demo.resampledPoints (Fin 3600)).
  - reflexivity.
  - reflexivity.
  - vm_compute. reflexivity.
  - reflexivity.
Defined.

(** ** The theorems on the small track *)

Lemma twoSegments_wellFormed : Forall wellFormedSegment Demo.twoSegments.
Proof.
  repeat constructor; try reflexivity;
    exists 250; (split; [reflexivity|apply Qle_bool_iff; reflexivity]).
Defined.

Lemma movingTime_monotone_witness :
  Forall wellFormedSegment Demo.twoSegments
  /\ 5 < 10
  /\ (calculateMovingTimeForVflat Demo.twoSegments (Fin 10) "trained" (Fin 0.5)
      <=? calculateMovingTimeForVflat Demo.twoSegments (Fin 5) "trained" (Fin 0.5))%num
     = true
  /\ (movingTimeForVflatSec Demo.twoSegments "trained" (Fin 0.5) (Fin 10)
      <=? movingTimeForVflatSec Demo.twoSegments "trained" (Fin 0.5) (Fin 5))%num
     = true.
Proof.
  assert (L : 5 < 10) by reflexivity.
  split; [exact twoSegments_wellFormed|]. split; [exact L|].
  exact (movingTime_monotone Demo.twoSegments "trained" 0.5 5 10
           twoSegments_wellFormed L).
Defined.

Lemma allPoints_totals_raw_witness :
  Demo.run Demo.checkpoints = Ok Demo.pacing
  /\ dPlusMAllPoints (totals Demo.pacing) = Fin 30
  /\ dMinusMAllPoints (totals Demo.pacing) = Fin 130.
Proof.
  split; [exact demo_run|].
  destruct (allPoints_totals_raw Demo.distance 10 Demo.found Demo.targetTime
              "trained" (Fin 0.5) Demo.checkpoints Demo.restPeriods (Fin 250) 3
              Demo.pacing demo_run) as [raw [P [_ [Gain Loss]]]].
  assert (E : raw = Demo.rawPoints).
  { rewrite demo_parse in P. now inversion P. }
  subst raw. rewrite Gain, Loss. split; vm_compute; reflexivity.
Defined.

Lemma aggregates_sum_rounded_times_witness :
  Demo.run Demo.checkpoints = Ok Demo.pacing
  /\ map timeSec (per250m Demo.pacing) = [Fin 190; Fin 293; Fin 116]
  /\ (exists d k,
        In d (per250m Demo.pacing) /\ In k (perKm Demo.pacing)
        /\ k_km k = (kmIndexOf d + Fin 1)%num
        /\ sameKey (k_km k) (Fin 1) = true
        /\ map timeSec (segmentsOfKm (kmIndexOf d) (per250m Demo.pacing))
           = [Fin 190; Fin 293; Fin 116]
        /\ k_timeSec k = Fin 599)
  /\ length (steps Demo.pacing) = 2%nat
  /\ map st_toKm (steps Demo.pacing)
     = tl (uniqueBoundariesOf Demo.checkpoints (totalDistanceKm (totals Demo.pacing)))
  /\ (exists st,
        In st (steps Demo.pacing)
        /\ st_index st = 2%nat
        /\ sameKey (st_fromKm st) (Fin 0.3) = true
        /\ sameKey (st_toKm st) (Fin 0.6) = true
        /\ map timeSec
             (segmentsOfStage (st_fromKm st) (st_toKm st) (per250m Demo.pacing))
           = [Fin 293; Fin 116]
        /\ st_movingSec st = Fin 409).
Proof.
  destruct (aggregates_sum_rounded_times Demo.distance 10 Demo.found
              Demo.targetTime "trained" (Fin 0.5) Demo.checkpoints
              Demo.restPeriods (Fin 250) 3 Demo.pacing demo_run)
    as [_ [_ [Stage [Group [_ [_ Ends]]]]]].
  split; [exact demo_run|]. split; [vm_compute; reflexivity|].
  split; [|split; [vm_compute; reflexivity|split; [exact Ends|]]].
  - set (d := nth 0 (per250m Demo.pacing) (Demo.detailedOf 0 0 0 0)).
    assert (Hd : In d (per250m Demo.pacing)) by (vm_compute; left; reflexivity).
    destruct (Group d Hd) as [_ [k [Ik [Km Kt]]]].
    exists d, k. split; [exact Hd|]. split; [exact Ik|]. split; [exact Km|].
    split; [rewrite Km; vm_compute; reflexivity|].
    split; [vm_compute; reflexivity|].
    rewrite Kt. vm_compute. reflexivity.
  - set (st := last (steps Demo.pacing)
                 (mkStep 0 NaN NaN NaN NaN NaN NaN NaN NaN NaN)).
    assert (Hst : In st (steps Demo.pacing))
      by (vm_compute; right; left; reflexivity).
    destruct (Stage st Hst) as [M _].
    exists st. split; [exact Hst|].
    split; [vm_compute; reflexivity|]. split; [vm_compute; reflexivity|].
    split; [vm_compute; reflexivity|]. split; [vm_compute; reflexivity|].
    rewrite M. vm_compute. reflexivity.
Defined.

Lemma resample_distances_witness :
  (2 <= length Demo.points)%nat
  /\ length [0; 300; 600] = length Demo.points
  /\ nth 0 [0; 300; 600] 0 == 0
  /\ nondecreasing [0; 300; 600]
  /\ 0 < 250
  /\ exists fuel0, forall fuel, (fuel0 <= fuel)%nat ->
       exists out ds,
         resamplePoints fuel Demo.points (map Fin [0; 300; 600]) (Fin 250) = Ok out
         /\ map distanceM out = map Fin ds
         /\ increasing ds
         /\ evenlySpaced 250 ds
         /\ last ds 0 = 600
         /\ exists sum,
              sumNum (map lengthM (createSegments out)) = Fin sum /\ sum == 600.
Proof.
  assert (H1 : (2 <= length Demo.points)%nat) by (vm_compute; lia).
  assert (H2 : length [0; 300; 600] = length Demo.points) by reflexivity.
  assert (H3 : nth 0 [0; 300; 600] 0 == 0) by reflexivity.
  assert (H4 : nondecreasing [0; 300; 600]).
  { simpl. repeat split; apply Qle_bool_iff; reflexivity. }
  assert (H5 : 0 < 250) by reflexivity.
  repeat (split; [assumption|]).
  exact (resample_distances Demo.points [0; 300; 600] 250 H1 H2 H3 H4 H5).
Defined.


Lemma movingTime_infinite_iff_infeasible_witness :
  0 < 10 /\ 0 <= 0.5 <= 1
  /\ Forall finiteSlope Demo.twoSegments
  /\ Forall finiteLength Demo.twoSegments
  /\ Num.isFinite
       (calculateMovingTimeForVflat Demo.twoSegments (Fin 10) "trained" (Fin 0.5))
     = true.
Proof.
  assert (H1 : 0 < 10) by reflexivity.
  assert (H2 : 0 <= 0.5 <= 1) by (split; apply Qle_bool_iff; reflexivity).
  assert (H3 : Forall finiteSlope Demo.twoSegments) by (repeat constructor).
  assert (H4 : Forall finiteLength Demo.twoSegments) by (repeat constructor).
  repeat (split; [assumption|]).
  pose proof (movingTime_infinite_iff_infeasible Demo.twoSegments (Fin 10)
                "trained" (Fin 0.5)) as T.
  cbv zeta in T. destruct T as [_ [_ [_ T]]].
  destruct (T 10 0.5 eq_refl eq_refl H1 H2 H3) as [_ [_ F]].
  exact (F H4).
Defined.

Lemma fillMissingElevation_filled_witness :
  (0 < length [NaN; Fin 3; PInf])%nat
  /\ nth 0 (fillMissingElevation [NaN; Fin 3; PInf]) NaN = Fin 3
  /\ nth 2 (fillMissingElevation [NaN; Fin 3; PInf]) NaN = Fin 3.
Proof.
  assert (H : (0 < length [NaN; Fin 3; PInf])%nat) by (simpl; lia).
  assert (H' : (2 < length [NaN; Fin 3; PInf])%nat) by (simpl; lia).
  split; [exact H|].
  destruct (fillMissingElevation_filled [NaN; Fin 3; PInf]) as [_ [_ N]].
  rewrite (N 0%nat H), (N 2%nat H'). split; reflexivity.
Defined.

Lemma findVflat_within_bounds_witness :
  3 < 25
  /\ exists r,
       findVflatForTargetTime Demo.twoSegments (Fin 200) "trained" (Fin 0.5)
         (Fin 3) (Fin 25) 3 = Fin r
       /\ 3 <= r <= 25.
Proof.
  assert (H : 3 < 25) by reflexivity.
  split; [exact H|].
  pose proof (findVflat_within_bounds Demo.twoSegments (Fin 200) "trained"
                (Fin 0.5) 3 25 3 H) as T.
  cbv zeta in T. exact (proj1 (proj2 T)).
Defined.

(** ** The track before resampling *)

Lemma flat_map_filter_map {A B} (keep : A -> bool) (g : A -> B) (l : list A) :
  flat_map (fun x => if keep x then [g x] else []) l = map g (filter keep l).
Proof.
  induction l as [|x l IH]; [reflexivity|].
  simpl. rewrite IH. now destruct (keep x).
Qed.

Lemma parseGpxFile_flat_map (found : list (num * num * option num)) :
  flat_map (fun '(la, lo, e) =>
      let ele := match e with Some v => v | None => Fin 0 end in
      let eleValue := if Num.isFinite ele then ele else Fin 0 in
      if Num.isFinite la && Num.isFinite lo then [mkPoint la lo eleValue] else [])
    found
  = map (fun '(la, lo, e) => mkPoint la lo (elevationOrZero e))
      (filter keptTrackPoint found).
Proof.
  rewrite <- flat_map_filter_map. apply flat_map_ext.
  intros [[la lo] e]. cbn [keptTrackPoint].
  destruct (Num.isFinite la && Num.isFinite lo); [|reflexivity].
  destruct e as [[q| | |]|]; reflexivity.
Qed.

Lemma kept_points_finite (found : list (num * num * option num)) :
  Forall finitePoint
    (map (fun '(la, lo, e) => mkPoint la lo (elevationOrZero e))
       (filter keptTrackPoint found)).
Proof.
  apply Forall_map. apply Forall_forall. intros [[la lo] e] H.
  apply filter_In in H. destruct H as [_ K]. cbn in K.
  apply andb_true_iff in K. destruct K as [K1 K2].
  destruct la as [a| | |]; try discriminate.
  destruct lo as [o| | |]; try discriminate.
  destruct e as [[q| | |]|]; do 3 eexists; reflexivity.
Qed.

Lemma parseGpxFile_Ok (found : list (num * num * option num)) (points : list Point) :
  parseGpxFile found = Ok points ->
  points = map (fun '(la, lo, e) => mkPoint la lo (elevationOrZero e))
             (filter keptTrackPoint found)
  /\ (2 <= length points)%nat
  /\ Forall finitePoint points.
Proof.
  unfold parseGpxFile. rewrite parseGpxFile_flat_map.
  destruct (_ <? 2)%nat eqn:L; [discriminate|].
  intro H. inversion H. subst points. apply Nat.ltb_ge in L.
  repeat split; [assumption|apply kept_points_finite].
Qed.

(** X1. parseGpxFile keeps, in the order of the file, the track points whose
    latitude and longitude read as finite numbers; a missing or non-finite
    elevation becomes 0; every point of the result has three finite fields;
    with fewer than two points kept the call fails, with two or more it
    succeeds. *)
Theorem parseGpxFile_kept_points (found : list (num * num * option num)) :
  let kept := filter keptTrackPoint found in
  ((length kept < 2)%nat -> parseGpxFile found = Error NotEnoughPoints)
  /\ ((2 <= length kept)%nat ->
      parseGpxFile found
      = Ok (map (fun '(la, lo, e) => mkPoint la lo (elevationOrZero e)) kept))
  /\ (forall points, parseGpxFile found = Ok points ->
        (2 <= length points)%nat /\ Forall finitePoint points).
Proof.
  intro kept. unfold parseGpxFile. rewrite parseGpxFile_flat_map. fold kept.
  rewrite length_map.
  split; [|split].
  - intro L. apply Nat.ltb_lt in L. now rewrite L.
  - intro L. apply Nat.ltb_ge in L. now rewrite L.
  - intros points H.
    destruct (length kept <? 2)%nat eqn:L; [discriminate|].
    inversion H. apply Nat.ltb_ge in L. rewrite length_map.
    split; [assumption|apply kept_points_finite].
Qed.

(** *** Filling and smoothing *)

Lemma fillForward_finite_id (l : list num) :
  Forall (fun v => Num.isFinite v = true) l ->
  forall last, fillForward last l = l.
Proof.
  induction 1 as [|x l Hx _ IH]; intro last; [reflexivity|].
  simpl. rewrite Hx. now rewrite IH.
Qed.

Lemma fillMissingElevation_finite_id (l : list num) :
  Forall (fun v => Num.isFinite v = true) l -> fillMissingElevation l = l.
Proof.
  intro F. unfold fillMissingElevation, fillBackward.
  rewrite (fillForward_finite_id l F).
  rewrite fillForward_finite_id by now apply Forall_rev.
  rewrite rev_involutive.
  rewrite <- (map_id l) at 2. apply map_ext_in.
  intros v Hv. rewrite Forall_forall in F. now rewrite (F v Hv).
Qed.

(** X2. fillMissingElevation changes nothing in a list of finite numbers,
    so filling a filled list again gives the same list. *)
Theorem fillMissingElevation_idempotent (elevations : list num) (finite : list Q) :
  fillMissingElevation (map Fin finite) = map Fin finite
  /\ fillMissingElevation (fillMissingElevation elevations)
     = fillMissingElevation elevations.
Proof.
  split.
  - apply fillMissingElevation_finite_id. apply Forall_map.
    apply Forall_forall. reflexivity.
  - apply fillMissingElevation_finite_id, fillMissingElevation_all_finite.
Qed.

(** *** The moving average stays within the range of its input *)

Lemma inject_nat_succ (c : nat) :
  inject_Z (Z.of_nat (S c)) == inject_Z (Z.of_nat c) + 1.
Proof.
  rewrite Nat2Z.inj_succ. unfold Z.succ. rewrite inject_Z_plus. reflexivity.
Qed.

Lemma inject_nat_pos (c : nat) : (0 < c)%nat -> 0 < inject_Z (Z.of_nat c).
Proof.
  intro H. change 0 with (inject_Z 0). rewrite <- Zlt_Qlt. lia.
Qed.

Lemma windowIndices_In (len half i j : nat) :
  In j (windowIndices len half i) -> (j < len)%nat.
Proof.
  unfold windowIndices. intro H. apply filter_In in H.
  destruct H as [_ H]. now apply Nat.ltb_lt in H.
Qed.

Lemma windowIndices_centre (len half i : nat) :
  (i < len)%nat -> In i (windowIndices len half i).
Proof.
  intro H. unfold windowIndices. apply filter_In. split.
  - apply in_seq. lia.
  - now apply Nat.ltb_lt.
Qed.

(** The sum and the count after the inner loop over some indices in range. *)
Lemma smooth_fold_within (elevations : list Q) (lo hi : Q) :
  Forall (fun e => lo <= e <= hi) elevations ->
  forall js, Forall (fun j => (j < length elevations)%nat) js ->
  forall (s : Q) (c : nat),
    inject_Z (Z.of_nat c) * lo <= s <= inject_Z (Z.of_nat c) * hi ->
    exists s',
      fold_left
        (fun '(sum, count) j =>
           let e := nth j (map Fin elevations) NaN in
           if Num.isFinite e then ((sum + e)%num, S count) else (sum, count))
        js (Fin s, c)
      = (Fin s', (c + length js)%nat)
      /\ inject_Z (Z.of_nat (c + length js)) * lo <= s'
         <= inject_Z (Z.of_nat (c + length js)) * hi.
Proof.
  intros R js J. induction J as [|j js Hj _ IH]; intros s c I.
  - exists s. rewrite Nat.add_0_r. split; [reflexivity|assumption].
  - cbn [fold_left].
    replace (nth j (map Fin elevations) NaN) with (Fin (nth j elevations 0)).
    2:{ symmetry. apply (at_Fin elevations j Hj). }
    cbn [Num.isFinite Num.add].
    assert (E : lo <= nth j elevations 0 <= hi).
    { rewrite Forall_forall in R. apply R. now apply nth_In. }
    destruct (IH (s + nth j elevations 0) (S c)) as [s' [F I']].
    { rewrite inject_nat_succ. lra. }
    exists s'. cbn [length]. rewrite Nat.add_succ_r. split; assumption.
Qed.

Lemma smoothAt_within (elevations : list Q) (half i : nat) (lo hi : Q) :
  Forall (fun e => lo <= e <= hi) elevations ->
  (i < length elevations)%nat ->
  exists v, smoothAt (map Fin elevations) half i = Some (Fin v) /\ lo <= v <= hi.
Proof.
  intros R Hi. unfold smoothAt. rewrite length_map.
  destruct (smooth_fold_within elevations lo hi R
              (windowIndices (length elevations) half i)) with (s := 0) (c := O)
    as [s' [F I]].
  - apply Forall_forall. intros j Hj. now apply windowIndices_In in Hj.
  - change (inject_Z (Z.of_nat 0)) with 0. lra.
  - cbv zeta in F |- *. rewrite F. cbn [Nat.add] in *.
    pose proof (windowIndices_centre (length elevations) half i Hi) as C.
    destruct (windowIndices (length elevations) half i) as [|j js] eqn:W;
      [contradiction|].
    set (n := length (j :: js)) in *.
    assert (N : (0 < n)%nat) by (unfold n; simpl; lia).
    apply Nat.ltb_lt in N. rewrite N. apply Nat.ltb_lt in N.
    pose proof (inject_nat_pos n N) as P.
    rewrite div_Fin by lra.
    eexists. split; [reflexivity|]. split.
    + apply Qle_shift_div_l; [assumption|]. lra.
    + apply Qle_shift_div_r; [assumption|]. lra.
Qed.

(** The smoothed values at [n] consecutive indices from [k] on. *)
Lemma smoothAt_run (elevations : list Q) (half : nat) (lo hi : Q) :
  Forall (fun e => lo <= e <= hi) elevations ->
  forall n k, (k + n <= length elevations)%nat ->
    exists smoothed,
      map (smoothAt (map Fin elevations) half) (seq k n)
      = map (fun v => Some (Fin v)) smoothed
      /\ length smoothed = n
      /\ Forall (fun v => lo <= v <= hi) smoothed.
Proof.
  intro R. induction n as [|n IH]; intros k L.
  - exists []. repeat split. constructor.
  - destruct (smoothAt_within elevations half k lo hi R) as [v [E V]]; [lia|].
    destruct (IH (S k)) as [rest [E' [L' V']]]; [lia|].
    exists (v :: rest). cbn [seq map length]. rewrite E, E', L'.
    repeat split; try reflexivity. now constructor.
Qed.



Lemma smoothElevation_length (elevations : list num) (windowSize : nat) :
  length (smoothElevation elevations windowSize) = length elevations.
Proof.
  unfold smoothElevation. destruct (windowSize =? 1)%nat.
  - apply length_map.
  - rewrite length_map. apply length_seq.
Qed.

Lemma finite_as_rationals (l : list num) :
  Forall (fun v => Num.isFinite v = true) l -> exists qs, l = map Fin qs.
Proof.
  induction 1 as [|x l Hx _ [qs IH]]; [now exists []|].
  destruct x as [q| | |]; try discriminate.
  exists (q :: qs). simpl. now rewrite IH.
Qed.

Lemma list_bounded (qs : list Q) :
  exists lo hi, Forall (fun e => lo <= e <= hi) qs.
Proof.
  induction qs as [|x qs [lo [hi IH]]]; [exists 0, 0; constructor|].
  exists (if Qlt_le_dec x lo then x else lo), (if Qlt_le_dec hi x then x else hi).
  constructor.
  - destruct (Qlt_le_dec x lo), (Qlt_le_dec hi x); lra.
  - eapply Forall_impl; [|exact IH]. cbv beta. intros e [A B].
    destruct (Qlt_le_dec x lo), (Qlt_le_dec hi x); lra.
Qed.

Lemma finitePoints_elevations (points : list Point) :
  Forall finitePoint points ->
  Forall (fun v => Num.isFinite v = true) (map ele points).
Proof.
  intro F. apply Forall_map. apply Forall_forall. intros p Hp.
  rewrite Forall_forall in F. destruct (F p Hp) as [la [lo [e ->]]]. reflexivity.
Qed.

(** X4. On the points that parseGpxFile returns, fillMissingElevation has
    nothing to fill: the conditioned points are the parsed points with the
    moving average of their raw elevations, one per parsed point, with the
    same coordinates and never the null marker. *)
Theorem parsed_points_conditioning (found : list (num * num * option num))
    (points : list Point) (smoothingWindow : nat) :
  parseGpxFile found = Ok points ->
  fillMissingElevation (map ele points) = map ele points
  /\ length (conditionPoints points smoothingWindow) = length points
  /\ map (fun p => (slat p, slon p)) (conditionPoints points smoothingWindow)
     = map (fun p => (lat p, lon p)) points
  /\ map sele (conditionPoints points smoothingWindow)
     = smoothElevation (map ele points) smoothingWindow
  /\ Forall (fun p => exists e, sele p = Some (Fin e))
       (conditionPoints points smoothingWindow).
Proof.
  intro H. apply parseGpxFile_Ok in H. destruct H as [_ [_ F]].
  pose proof (finitePoints_elevations points F) as FE.
  pose proof (fillMissingElevation_finite_id _ FE) as Id.
  split; [exact Id|].
  unfold conditionPoints. rewrite Id.
  set (sm := smoothElevation (map ele points) smoothingWindow).
  assert (L : length sm = length points).
  { unfold sm. now rewrite smoothElevation_length, length_map. }
  assert (M : forall (ps : list Point) (es : list (option num)),
            length es = length ps ->
            map (fun p => (slat p, slon p))
              (map (fun '(p, e) => mkSmoothedPoint (lat p) (lon p) e) (combine ps es))
            = map (fun p => (lat p, lon p)) ps
            /\ map sele
                 (map (fun '(p, e) => mkSmoothedPoint (lat p) (lon p) e) (combine ps es))
               = es).
  { induction ps as [|p ps IH]; intros [|e es] Le; try discriminate; [auto|].
    simpl in Le. injection Le as Le. destruct (IH es Le) as [A B].
    cbn [combine map slat slon sele]. now rewrite A, B. }
  destruct (M points sm L) as [A B].
  split; [|split; [exact A|split; [exact B|]]].
  - now rewrite length_map, length_combine, L, Nat.min_id.
  - destruct (finite_as_rationals _ FE) as [qs E].
    destruct (list_bounded qs) as [lo [hi R]].
    assert (S : exists vs, smoothElevation (map Fin qs) smoothingWindow
                           = map (fun v => Some (Fin v)) vs).
    { unfold smoothElevation. destruct (smoothingWindow =? 1)%nat.
      - exists qs. now rewrite map_map.
      - rewrite length_map.
        destruct (smoothAt_run qs (smoothingWindow / 2) lo hi R (length qs) O)
          as [vs [S _]]; [lia|].
        now exists vs. }
    destruct S as [vs S].
    apply (proj1 (Forall_map sele (fun o => exists e, o = Some (Fin e)) _)).
    rewrite B. unfold sm. rewrite E, S.
    apply Forall_map. apply Forall_forall. intros v _. now exists v.
Qed.

Lemma parsed_points_conditioning_witness :
  parseGpxFile Demo.found = Ok Demo.rawPoints
  /\ length (conditionPoints Demo.rawPoints 3) = 3%nat
  /\ Forall (fun p => exists e, sele p = Some (Fin e))
       (conditionPoints Demo.rawPoints 3).
Proof.
  assert (H : parseGpxFile Demo.found = Ok Demo.rawPoints) by reflexivity.
  split; [exact H|].
  destruct (parsed_points_conditioning Demo.found Demo.rawPoints 3 H)
    as [_ [L [_ [_ F]]]].
  split; [exact L|exact F].
Defined.

(** ** The outcomes of calculatePacing *)

Lemma parseGpxFile_cases (found : list (num * num * option num)) :
  parseGpxFile found
  = if (length (filter keptTrackPoint found) <? 2)%nat then Error NotEnoughPoints
    else Ok (map (fun '(la, lo, e) => mkPoint la lo (elevationOrZero e))
               (filter keptTrackPoint found)).
Proof.
  unfold parseGpxFile. rewrite parseGpxFile_flat_map, length_map. reflexivity.
Qed.

Lemma conditionPoints_length (rawPoints : list Point) (smoothingWindow : nat) :
  length (conditionPoints rawPoints smoothingWindow) = length rawPoints.
Proof.
  unfold conditionPoints.
  rewrite length_map, length_combine, smoothElevation_length,
    fillMissingElevation_length, length_map.
  apply Nat.min_id.
Qed.

Lemma conditionPoints_coordinates (rawPoints : list Point) (smoothingWindow : nat) :
  Forall finitePoint rawPoints ->
  Forall finiteCoordinates
    (map (fun p => (slat p, slon p)) (conditionPoints rawPoints smoothingWindow)).
Proof.
  intro F. unfold conditionPoints. rewrite map_map.
  apply Forall_map. apply Forall_forall. intros [p e] H.
  apply in_combine_l in H. rewrite Forall_forall in F.
  destruct (F p H) as [la [lo [el ->]]]. now exists la, lo.
Qed.

Section Outcomes.

Variable haversineDistance : num * num -> num * num -> num.

(** Between two points with finite coordinates the great-circle distance is
    a finite number. *)
Hypothesis haversine_finite :
  forall la1 lo1 la2 lo2 : Q,
    exists q, haversineDistance (Fin la1, Fin lo1) (Fin la2, Fin lo2) = Fin q.

Lemma cumulativeFrom_rationals (rest : list (num * num)) :
  Forall finiteCoordinates rest ->
  forall prev acc, finiteCoordinates prev ->
    exists cq, cumulativeFrom haversineDistance prev (Fin acc) rest = map Fin cq
               /\ length cq = length rest.
Proof.
  induction 1 as [|p rest Hp _ IH]; intros prev acc Hprev.
  - exists []. split; reflexivity.
  - simpl. destruct Hprev as [a [o ->]]. destruct Hp as [a' [o' ->]].
    destruct (haversine_finite a o a' o') as [q ->]. cbn [Num.add].
    destruct (IH (Fin a', Fin o') (acc + q)) as [cq [E L]]; [now exists a', o'|].
    exists ((acc + q) :: cq). simpl. rewrite E, L. split; reflexivity.
Qed.

Lemma cumulativeOfPoints_rationals (points : list SmoothedPoint) :
  points <> [] ->
  Forall finiteCoordinates (map (fun p => (slat p, slon p)) points) ->
  exists cq, cumulativeOfPoints haversineDistance points = map Fin cq
             /\ length cq = length points.
Proof.
  intros H F. destruct points as [|p rest]; [congruence|].
  unfold cumulativeOfPoints, cumulativeDistancesOf. simpl map in *.
  inversion F as [|x l Hp Hrest]; subst.
  destruct (cumulativeFrom_rationals _ Hrest (slat p, slon p) 0 Hp) as [cq [E L]].
  exists (0 :: cq). simpl. rewrite E, L, length_map. split; reflexivity.
Qed.

(** With enough fuel the resampling of a parsed track returns. *)
Lemma resample_parsed_track (rawPoints : list Point) (smoothingWindow : nat) (step : Q) :
  (2 <= length rawPoints)%nat -> Forall finitePoint rawPoints -> 0 < step ->
  let points := conditionPoints rawPoints smoothingWindow in
  exists fuel0, forall fuel, (fuel0 <= fuel)%nat ->
    exists out,
      resamplePoints fuel points (cumulativeOfPoints haversineDistance points) (Fin step)
      = Ok out.
Proof.
  intros L F Hs points.
  assert (Lp : length points = length rawPoints) by apply conditionPoints_length.
  assert (Hne : points <> []).
  { intro E. rewrite E in Lp. simpl in Lp. lia. }
  destruct (cumulativeOfPoints_rationals points Hne) as [cq [E Lc]].
  { now apply conditionPoints_coordinates. }
  rewrite E. unfold resamplePoints.
  assert (Hc : cq <> []).
  { intro Z. rewrite Z in Lc. simpl in Lc. lia. }
  rewrite (total_of_cum cq Hc).
  destruct (targetsLoop_terminates (last cq 0) step Hs) as [fuel0 T].
  exists fuel0. intros fuel Hf. destruct (T fuel Hf) as [n [-> _]]. cbn [bind].
  destruct (resampleLoop_ok points (map Fin cq)) with
    (targets := map Fin (arith 0 step n) ++ [Fin (last cq 0)]) (j := 1%nat) (i := O)
    as [out [R _]]; try lia.
  - now rewrite length_map.
  - exists out. exact R.
Qed.

(** X5. With a positive resampling step and enough fuel for the target loop,
    calculatePacing ends in one of four ways, decided in this order: fewer
    than two track points with finite coordinates give the not-enough-points
    error; a time that does not have two or three parts gives the time format
    error; a parsed target time that does not exceed the stop time gives the
    stop time error; otherwise a result is returned. Resampling never reads a
    missing point. A time whose parts are not numbers parses to NaN, fails no
    test, and a result is returned. *)
Theorem calculatePacing_outcomes (found : list (num * num * option num))
    (targetTime : list num) (profile : string) (prudence : num)
    (checkpoints : list (num * num)) (restPeriods : num * num)
    (step : Q) (smoothingWindow : nat) :
  0 < step ->
  exists fuel0, forall fuel, (fuel0 <= fuel)%nat ->
    let run :=
      calculatePacing haversineDistance fuel found targetTime profile prudence
        checkpoints restPeriods (Fin step) smoothingWindow in
    let kept := filter keptTrackPoint found in
    let totalStopSec := totalStopSecOf checkpoints restPeriods in
    ((length kept < 2)%nat -> run = Error NotEnoughPoints)
    /\ ((2 <= length kept)%nat ->
        match parseTimeToSeconds targetTime with
        | Error _ => run = Error InvalidTimeFormat
        | Ok targetTotalSec =>
            if (targetTotalSec - totalStopSec <=? Fin 0)%num
            then run = Error StopTimeExceedsTarget
            else exists r, run = Ok r
        end)
    /\ ((2 <= length kept)%nat -> In NaN targetTime ->
        (length targetTime = 2 \/ length targetTime = 3)%nat ->
        exists r, run = Ok r).
Proof.
  intro Hs.
  destruct (length (filter keptTrackPoint found) <? 2)%nat eqn:K.
  - exists O. intros fuel _ run kept totalStopSec.
    assert (E : run = Error NotEnoughPoints).
    { unfold run, calculatePacing. rewrite parseGpxFile_cases, K. reflexivity. }
    apply Nat.ltb_lt in K. fold kept in K.
    repeat split; intros; try lia. exact E.
  - pose proof (parseGpxFile_cases found) as P. rewrite K in P.
    destruct (parseGpxFile_Ok _ _ P) as [_ [L F]].
    set (rawPoints := map (fun '(la, lo, e) => mkPoint la lo (elevationOrZero e))
                        (filter keptTrackPoint found)) in *.
    destruct (resample_parsed_track rawPoints smoothingWindow step L F Hs)
      as [fuel0 R].
    exists fuel0. intros fuel Hf run kept totalStopSec.
    destruct (R fuel Hf) as [out Ro].
    apply Nat.ltb_ge in K. fold kept in K.
    assert (Cases : match parseTimeToSeconds targetTime with
                    | Error _ => run = Error InvalidTimeFormat
                    | Ok targetTotalSec =>
                        if (targetTotalSec - totalStopSec <=? Fin 0)%num
                        then run = Error StopTimeExceedsTarget
                        else exists r, run = Ok r
                    end).
    { destruct (parseTimeToSeconds targetTime) as [t|e] eqn:T.
      - unfold run.
        rewrite (calculatePacing_run haversineDistance fuel found targetTime profile
                   prudence checkpoints restPeriods (Fin step) smoothingWindow
                   rawPoints out t P Ro T).
        fold totalStopSec.
        destruct (t - totalStopSec <=? Fin 0)%num; [reflexivity|eauto].
      - assert (Ee : e = InvalidTimeFormat).
        { destruct targetTime as [|h [|m [|s [|x rest]]]]; simpl in T; congruence. }
        unfold run, calculatePacing. rewrite P. cbn [bind]. rewrite Ro. cbn [bind].
        rewrite T, Ee. reflexivity. }
    split; [intro; lia|]. split; [intro; exact Cases|].
    intros _ N Len.
    destruct targetTime as [|h [|m [|s [|x rest]]]];
      try (destruct Len; discriminate); cbn [parseTimeToSeconds] in Cases.
    + assert (E : (h * Fin 3600 + m * Fin 60)%num = NaN).
      { destruct N as [->|[->|[]]]; [reflexivity|]. now destruct h. }
      rewrite E in Cases. exact Cases.
    + assert (E : (h * Fin 3600 + m * Fin 60 + s)%num = NaN).
      { destruct N as [->|[->|[->|[]]]]; [reflexivity| |].
        - now destruct h.
        - now destruct (h * Fin 3600 + m * Fin 60)%num. }
      rewrite E in Cases. exact Cases.
Qed.

End Outcomes.

Lemma demo_distance_finite (la1 lo1 la2 lo2 : Q) :
  exists q, Demo.distance (Fin la1, Fin lo1) (Fin la2, Fin lo2) = Fin q.
Proof. eexists. reflexivity. Qed.

Lemma calculatePacing_outcomes_witness :
  0 < 250
  /\ exists fuel0, forall fuel, (fuel0 <= fuel)%nat ->
       calculatePacing Demo.distance fuel Demo.found Demo.targetTime "trained"
         (Fin 0.5) Demo.longStop Demo.restPeriods (Fin 250) 3
       = Error StopTimeExceedsTarget.
Proof.
  split; [reflexivity|].
  destruct (calculatePacing_outcomes Demo.distance demo_distance_finite Demo.found
              Demo.targetTime "trained" (Fin 0.5) Demo.longStop Demo.restPeriods
              250 3) as [fuel0 H]; [reflexivity|].
  exists fuel0. intros fuel Hf. destruct (H fuel Hf) as [_ [C _]].
  refine (C _). simpl. lia.
Defined.

(** ** The numbers of a result *)

Lemma findVflatDefault_bounds (segments : list Segment) (target : num)
    (profile : string) (prudence : num) :
  exists v, findVflatDefault segments target profile prudence = Fin v /\ 3 <= v <= 25.
Proof.
  unfold findVflatDefault. rewrite findVflat_fixed_iterations_browser.
  destruct (bisection_invariant
              (fun v => calculateMovingTimeForVflat segments v profile prudence)
              target 3 25) with (k := 40%nat) as [lo [hi [E [A [B [C _]]]]]]; [lra|].
  rewrite E, midpoint_Fin. eexists. split; [reflexivity|].
  pose proof (Qhalf_between lo hi B). lra.
Qed.

Lemma Qfloor_nonneg (x : Q) : 0 <= x -> (0 <= Qfloor x)%Z.
Proof.
  intro H. change 0%Z with (Qfloor 0). now apply Qfloor_resp_le.
Qed.

(** The speed and the rounded time of a well-formed segment. *)
Lemma detailSegment_finite (v : Q) (profile : string) (c : Q) (s : Segment) :
  0 < v -> 0 <= c <= 1 -> wellFormedSegment s ->
  exists sp t,
    speedKmh (detailSegment (Fin v) profile (Fin c) s) = Fin sp /\ 0 < sp
    /\ timeSec (detailSegment (Fin v) profile (Fin c) s) = Fin (inject_Z t)
    /\ (0 <= t)%Z.
Proof.
  intros Hv Hc W. destruct (wellFormed_slope s W) as [q Sq].
  destruct W as [_ [len [L Hl]]].
  destruct (speed_positive q v profile c Hv Hc) as [r [E Hr]].
  unfold detailSegment. cbn [speedKmh timeSec]. rewrite Sq, E, L.
  rewrite (div_Fin len 1000) by lra. rewrite div_Fin by lra.
  cbn [Num.mul Num.round].
  exists r. eexists. repeat split; try assumption.
  apply Qfloor_nonneg.
  assert (0 <= len / 1000 / r).
  { apply Qdiv_nonneg; [|assumption]. apply Qdiv_nonneg; lra. }
  assert (0 <= len / 1000 / r * 3600) by (apply Qmult_le_0_compat; lra).
  lra.
Qed.

Lemma sum_of_times (times : list num) :
  Forall (fun t => exists z, t = Fin (inject_Z z) /\ (0 <= z)%Z) times ->
  forall acc : Q, 0 <= acc ->
    exists T, fold_left Num.add times (Fin acc) = Fin T /\ 0 <= T.
Proof.
  induction 1 as [|t times [z [-> Hz]] _ IH]; intros acc Ha.
  - exists acc. split; [reflexivity|assumption].
  - cbn [fold_left Num.add]. apply IH.
    assert (0 <= inject_Z z).
    { change 0 with (inject_Z 0). now rewrite <- Zle_Qle. }
    lra.
Qed.

Section ResultShape.

Variable haversineDistance : num * num -> num * num -> num.

Hypothesis haversine_finite :
  forall la1 lo1 la2 lo2 : Q,
    exists q, haversineDistance (Fin la1, Fin lo1) (Fin la2, Fin lo2) = Fin q.

(** A run that returns a result went through every step. *)
Lemma calculatePacing_Ok_steps (fuel : nat) (found : list (num * num * option num))
    (targetTime : list num) (profile : string) (prudence : num)
    (checkpoints : list (num * num)) (restPeriods : num * num)
    (segmentLengthM : num) (smoothingWindow : nat) (r : PacingResult) :
  calculatePacing haversineDistance fuel found targetTime profile prudence
    checkpoints restPeriods segmentLengthM smoothingWindow = Ok r ->
  exists rawPoints resampledPoints targetTotalSec,
    let points := conditionPoints rawPoints smoothingWindow in
    let cumulativeDistances := cumulativeOfPoints haversineDistance points in
    let totalStopSec := totalStopSecOf checkpoints restPeriods in
    parseGpxFile found = Ok rawPoints
    /\ resamplePoints fuel points cumulativeDistances segmentLengthM
       = Ok resampledPoints
    /\ parseTimeToSeconds targetTime = Ok targetTotalSec
    /\ (targetTotalSec - totalStopSec <=? Fin 0)%num = false
    /\ r = finishPacing haversineDistance rawPoints
             (at_ cumulativeDistances (length cumulativeDistances - 1) / Fin 1000)%num
             (createSegments resampledPoints) targetTotalSec totalStopSec
             profile prudence checkpoints.
Proof.
  unfold calculatePacing.
  destruct (parseGpxFile found) as [rawPoints|]; [|discriminate]. cbn [bind].
  destruct (resamplePoints _ _ _ _) as [resampled|] eqn:R; [|discriminate].
  cbn [bind].
  destruct (parseTimeToSeconds targetTime) as [t|]; [|discriminate]. cbn [bind].
  destruct (_ <=? _)%num eqn:C; [discriminate|].
  intro H. inversion H. exists rawPoints, resampled, t. cbv zeta.
  repeat split; try assumption.
Qed.

Lemma parsed_segments_wellFormed (found : list (num * num * option num))
    (rawPoints : list Point) (smoothingWindow fuel : nat) (step : Q)
    (resampledPoints : list Resampled) :
  parseGpxFile found = Ok rawPoints -> 0 < step ->
  let points := conditionPoints rawPoints smoothingWindow in
  resamplePoints fuel points (cumulativeOfPoints haversineDistance points) (Fin step)
  = Ok resampledPoints ->
  Forall wellFormedSegment (createSegments resampledPoints).
Proof.
  intros P Hs points R. destruct (parseGpxFile_Ok _ _ P) as [_ [L F]].
  assert (Lp : length points = length rawPoints) by apply conditionPoints_length.
  assert (Hne : points <> []).
  { intro E. rewrite E in Lp. simpl in Lp. lia. }
  destruct (cumulativeOfPoints_rationals haversineDistance haversine_finite
              points Hne) as [cq [E Lc]].
  { now apply conditionPoints_coordinates. }
  rewrite E in R.
  apply (resampled_segments_wellFormed points cq step fuel resampledPoints);
    try assumption.
  - intro Z. rewrite Z in Lc. simpl in Lc. lia.
  - apply conditionPoints_finite.
Qed.

(** X6. With a caution in [0, 1] and a positive resampling step, every
    result of calculatePacing holds numbers only: the calibrated flat speed
    is a finite number of [3, 25] km/h, every segment has a finite slope, a
    finite length that is not negative, a finite positive speed and a whole
    number of seconds that is not negative, and the computed moving time is
    finite and not negative. No NaN and no infinity reaches these fields. *)
Theorem calculatePacing_result_finite (fuel : nat)
    (found : list (num * num * option num)) (targetTime : list num)
    (profile : string) (caution : Q) (checkpoints : list (num * num))
    (restPeriods : num * num) (step : Q) (smoothingWindow : nat)
    (r : PacingResult) :
  0 <= caution <= 1 -> 0 < step ->
  calculatePacing haversineDistance fuel found targetTime profile (Fin caution)
    checkpoints restPeriods (Fin step) smoothingWindow = Ok r ->
  (exists v, vFlatKmh r = Fin v /\ 3 <= v <= 25)
  /\ Forall (fun d =>
       wellFormedSegment (seg d)
       /\ exists sp t, speedKmh d = Fin sp /\ 0 < sp
                       /\ timeSec d = Fin (inject_Z t) /\ (0 <= t)%Z)
       (per250m r)
  /\ exists T, computedMoving (totals r) = Fin T /\ 0 <= T.
Proof.
  intros Hc Hs H.
  destruct (calculatePacing_Ok_steps _ _ _ _ _ _ _ _ _ _ H)
    as [rawPoints [resampled [t [P [R [_ [_ ->]]]]]]].
  pose proof (parsed_segments_wellFormed found rawPoints smoothingWindow fuel step
                resampled P Hs R) as W.
  unfold finishPacing. destruct (gainLoss (map ele rawPoints)) as [dp dm].
  cbn [vFlatKmh per250m totals computedMoving].
  destruct (findVflatDefault_bounds (createSegments resampled)
              (t - totalStopSecOf checkpoints restPeriods)%num profile (Fin caution))
    as [v [V Hv]].
  rewrite V.
  assert (D : Forall (fun d =>
       wellFormedSegment (seg d)
       /\ exists sp t, speedKmh d = Fin sp /\ 0 < sp
                       /\ timeSec d = Fin (inject_Z t) /\ (0 <= t)%Z)
       (map (detailSegment (Fin v) profile (Fin caution)) (createSegments resampled))).
  { apply Forall_map. eapply Forall_impl; [|exact W]. cbv beta. intros s Ws.
    split; [exact Ws|]. apply detailSegment_finite; [lra|assumption|assumption]. }
  split; [now exists v|]. split; [exact D|].
  apply sum_of_times; [|lra].
  apply Forall_map. eapply Forall_impl; [|exact D]. cbv beta.
  intros d [_ [sp [z [_ [_ [E Hz]]]]]]. now exists z.
Qed.

End ResultShape.

Lemma calculatePacing_result_finite_witness :
  0 <= 0.5 <= 1 /\ 0 < 250
  /\ Demo.run Demo.checkpoints = Ok Demo.pacing
  /\ (exists v, vFlatKmh Demo.pacing = Fin v /\ 3 <= v <= 25)
  /\ exists T, computedMoving (totals Demo.pacing) = Fin T /\ 0 <= T.
Proof.
  assert (C : 0 <= 0.5 <= 1) by (split; discriminate).
  assert (S : 0 < 250) by reflexivity.
  destruct (calculatePacing_result_finite Demo.distance demo_distance_finite 10
              Demo.found Demo.targetTime "trained" 0.5 Demo.checkpoints
              Demo.restPeriods 250 3 Demo.pacing C S demo_run) as [V [_ T]].
  split; [exact C|]. split; [exact S|]. split; [exact demo_run|].
  split; [exact V|exact T].
Defined.

(** ** What the bisection finds *)

Lemma gtb_leb_trans (t x y : num) :
  (x >? t)%num = true -> (x <=? y)%num = true -> (y >? t)%num = true.
Proof.
  unfold Num.gtb.
  destruct t, x, y; simpl; intros A B; try discriminate; try reflexivity.
  qfacts. apply Qltb_true. lra.
Qed.

Lemma halved_step (w : Q) (k : nat) (lo hi : Q) :
  hi - lo == halved w k ->
  hi - (lo + hi) / 2 == halved w (S k) /\ (lo + hi) / 2 - lo == halved w (S k).
Proof.
  intro H. cbn [halved]. rewrite <- H. split; field.
Qed.

(** When the time at the lower bound exceeds the target and the time at the
    upper bound does not, every bracket keeps that property. *)
Lemma bisection_brackets (totalTime : num -> num) (target : num) (a b : Q) :
  a <= b ->
  (totalTime (Fin a) >? target)%num = true ->
  (totalTime (Fin b) >? target)%num = false ->
  forall k, exists lo hi,
    Nat.iter k (bisectionStep totalTime target) (Fin a, Fin b) = (Fin lo, Fin hi)
    /\ a <= lo /\ lo <= hi /\ hi <= b /\ hi - lo == halved (b - a) k
    /\ (totalTime (Fin lo) >? target)%num = true
    /\ (totalTime (Fin hi) >? target)%num = false.
Proof.
  intros Hab Ha Hb. induction k as [|k [lo [hi [E [A [B [C [W [Tl Th]]]]]]]]].
  - exists a, b. cbn [Nat.iter halved]. repeat split; try assumption; lra.
  - rewrite Nat.iter_succ, E, bisectionStep_pair.
    change ((Fin lo + Fin hi) / Fin 2)%num with (Fin ((lo + hi) / 2)).
    pose proof (Qhalf_between lo hi B) as M.
    destruct (halved_step (b - a) k lo hi W) as [W1 W2].
    destruct (totalTime (Fin ((lo + hi) / 2)) >? target)%num eqn:T.
    + exists ((lo + hi) / 2), hi. repeat split; try assumption; lra.
    + exists lo, ((lo + hi) / 2). repeat split; try assumption; lra.
Qed.

(** X7. When the moving time at vMin exceeds the target and the moving time
    at vMax does not, findVflatForTargetTime returns the midpoint of a
    bracket [lo, hi] inside [vMin, vMax] whose width is (vMax - vMin) / 2^n
    and which still encloses the crossing: the time at lo exceeds the target,
    the time at hi does not. On well-formed segments every flat speed at or
    below lo is then too slow for the target and every flat speed at or
    above hi is fast enough. *)
Theorem findVflat_brackets_target (segments : list Segment) (target : num)
    (profile : string) (prudence : num) (vMin vMax : Q) (iterations : nat) :
  let time := fun v => calculateMovingTimeForVflat segments (Fin v) profile prudence in
  vMin <= vMax ->
  (time vMin >? target)%num = true ->
  (time vMax >? target)%num = false ->
  exists lo hi,
    bisectLoop segments target profile prudence iterations (Fin vMin) (Fin vMax)
    = (Fin lo, Fin hi)
    /\ findVflatForTargetTime segments target profile prudence (Fin vMin) (Fin vMax)
         iterations = Fin ((lo + hi) / 2)
    /\ vMin <= lo /\ lo <= hi /\ hi <= vMax
    /\ hi - lo == halved (vMax - vMin) iterations
    /\ (time lo >? target)%num = true
    /\ (time hi >? target)%num = false
    /\ (Forall wellFormedSegment segments -> (exists c, prudence = Fin c) ->
        forall v, (v <= lo -> (time v >? target)%num = true)
                  /\ (hi <= v -> (time v >? target)%num = false)).
Proof.
  intros time Hab Ha Hb.
  destruct (bisection_brackets
              (fun v => calculateMovingTimeForVflat segments v profile prudence)
              target vMin vMax Hab Ha Hb iterations)
    as [lo [hi [E [A [B [C [W [Tl Th]]]]]]]].
  exists lo, hi. rewrite findVflat_fixed_iterations_browser, bisectLoop_iter, E.
  rewrite midpoint_Fin. repeat split; try assumption.
  - destruct H0 as [c ->]. intro Hv. apply (gtb_leb_trans target (time lo)); [exact Tl|].
    unfold time, calculateMovingTimeForVflat.
    apply movingTimeLoop_monotone; [assumption|assumption|lra].
  - destruct H0 as [c ->]. intro Hv.
    destruct (time v >? target)%num eqn:T; [|reflexivity].
    rewrite <- Th. symmetry. apply (gtb_leb_trans target (time v)); [exact T|].
    unfold time, calculateMovingTimeForVflat.
    apply movingTimeLoop_monotone; [assumption|assumption|lra].
Qed.

Lemma findVflat_brackets_target_witness :
  3 <= 25
  /\ (calculateMovingTimeForVflat Demo.twoSegments (Fin 3) "trained" (Fin 0.5)
      >? Fin 300)%num = true
  /\ (calculateMovingTimeForVflat Demo.twoSegments (Fin 25) "trained" (Fin 0.5)
      >? Fin 300)%num = false
  /\ exists lo hi,
       findVflatForTargetTime Demo.twoSegments (Fin 300) "trained" (Fin 0.5)
         (Fin 3) (Fin 25) 5 = Fin ((lo + hi) / 2)
       /\ hi - lo == halved (25 - 3) 5
       /\ (calculateMovingTimeForVflat Demo.twoSegments (Fin lo) "trained" (Fin 0.5)
           >? Fin 300)%num = true
       /\ (calculateMovingTimeForVflat Demo.twoSegments (Fin hi) "trained" (Fin 0.5)
           >? Fin 300)%num = false.
Proof.
  assert (A : 3 <= 25) by discriminate.
  assert (B : (calculateMovingTimeForVflat Demo.twoSegments (Fin 3) "trained" (Fin 0.5)
               >? Fin 300)%num = true) by (vm_compute; reflexivity).
  assert (C : (calculateMovingTimeForVflat Demo.twoSegments (Fin 25) "trained" (Fin 0.5)
               >? Fin 300)%num = false) by (vm_compute; reflexivity).
  destruct (findVflat_brackets_target Demo.twoSegments (Fin 300) "trained" (Fin 0.5)
              3 25 5 A B C) as [lo [hi [_ [E [_ [_ [_ [W [Tl [Th _]]]]]]]]]].
  split; [exact A|]. split; [exact B|]. split; [exact C|].
  exists lo, hi. repeat split; assumption.
Defined.

(** ** The accuracy of the calibration *)

Lemma feasible_Fin (r : Q) : 0 < r -> infeasibleSpeed (Fin r) = false.
Proof.
  intro H. rewrite infeasible_Fin. apply Qle_bool_false. exact H.
Qed.

(** The time of one segment at two flat speeds: a faster flat speed never
    takes longer, and the product of time and flat speed never shrinks. *)
Lemma segment_time_scaling (s : Segment) (profile : string) (c v1 v2 : Q) :
  wellFormedSegment s -> 0 <= c <= 1 -> 0 < v1 -> v1 <= v2 ->
  exists r1 r2 x1 x2,
    calculateSpeedForSlope (slopePct s) (Fin v1) profile (Fin c) = Fin r1 /\ 0 < r1
    /\ calculateSpeedForSlope (slopePct s) (Fin v2) profile (Fin c) = Fin r2 /\ 0 < r2
    /\ segmentTime s (Fin r1) = Fin x1 /\ segmentTime s (Fin r2) = Fin x2
    /\ 0 <= x2 /\ x2 <= x1 /\ x1 * v1 <= x2 * v2.
Proof.
  intros W Hc H1 H12. destruct (wellFormed_slope s W) as [q Sq].
  destruct W as [_ [len [L Hl]]]. rewrite Sq.
  assert (K : 0 <= len / 1000) by (apply Qdiv_nonneg; lra).
  destruct (speed_shape q profile c) as [d Hd H|lo hi Hlo Hhi H].
  - destruct (H v1) as [r1 [E1 R1]]. destruct (H v2) as [r2 [E2 R2]].
    assert (P1 : 0 < r1) by (rewrite R1; apply Qdiv_pos; lra).
    assert (P2 : 0 < r2) by (rewrite R2; apply Qdiv_pos; lra).
    assert (R12 : r1 <= r2) by (rewrite R1, R2; apply Qdiv_le_num; lra).
    exists r1, r2, (len / 1000 / r1 * 3600), (len / 1000 / r2 * 3600).
    rewrite (segmentTime_Fin s len r1 L P1), (segmentTime_Fin s len r2 L P2).
    repeat split; try assumption.
    + assert (0 <= len / 1000 / r2) by (apply Qdiv_nonneg; assumption).
      apply Qmult_le_0_compat; lra.
    + assert (len / 1000 / r2 <= len / 1000 / r1) by (apply Qdiv_le_den; assumption).
      lra.
    + assert (A1 : len / 1000 / r1 * 3600 * v1 == len / 1000 * 3600 * d).
      { rewrite R1. field. split; lra. }
      assert (A2 : len / 1000 / r2 * 3600 * v2 == len / 1000 * 3600 * d).
      { rewrite R2. field. split; lra. }
      rewrite A1, A2. lra.
  - set (p := hi - c * (hi - lo)).
    assert (P : 0 < p).
    { unfold p. assert (M : c * (hi - lo) <= 1 * (hi - lo)).
      { apply Qmult_le_compat_r; lra. }
      lra. }
    exists p, p, (len / 1000 / p * 3600), (len / 1000 / p * 3600).
    rewrite (segmentTime_Fin s len p L P).
    assert (X : 0 <= len / 1000 / p * 3600).
    { assert (0 <= len / 1000 / p) by (apply Qdiv_nonneg; assumption).
      apply Qmult_le_0_compat; lra. }
    repeat split; try apply H; try assumption; try lra. nra.
Qed.

Lemma movingTimeLoop_scaling (segments : list Segment) (profile : string)
    (c v1 v2 : Q) :
  Forall wellFormedSegment segments -> 0 <= c <= 1 -> 0 < v1 -> v1 <= v2 ->
  forall acc1 acc2 : Q, 0 <= acc2 -> acc2 <= acc1 -> acc1 * v1 <= acc2 * v2 ->
    exists t1 t2,
      movingTimeLoop segments (Fin v1) profile (Fin c) (Fin acc1) = Fin t1
      /\ movingTimeLoop segments (Fin v2) profile (Fin c) (Fin acc2) = Fin t2
      /\ 0 <= t2 /\ t2 <= t1 /\ t1 * v1 <= t2 * v2.
Proof.
  intros W Hc H1 H12.
  induction W as [|s rest Ws _ IH]; intros acc1 acc2 A0 A12 Av.
  - exists acc1, acc2. repeat split; assumption.
  - destruct (segment_time_scaling s profile c v1 v2 Ws Hc H1 H12)
      as [r1 [r2 [x1 [x2 [E1 [P1 [E2 [P2 [X1 [X2 [X0 [X12 Xv]]]]]]]]]]]].
    rewrite !movingTimeLoop_step. cbv zeta.
    rewrite E1, E2, (feasible_Fin r1 P1), (feasible_Fin r2 P2), X1, X2.
    cbn [Num.add]. apply IH; lra.
Qed.

Lemma detailSegment_time (v : num) (profile : string) (c : num) (s : Segment) :
  timeSec (detailSegment v profile c s)
  = Num.round (segmentTime s (calculateSpeedForSlope (slopePct s) v profile c)).
Proof. reflexivity. Qed.

(** The sum of the rounded segment times stays within half a second per
    segment of the moving time. *)
Lemma rounded_times_close (segments : list Segment) (profile : string) (c v : Q) :
  Forall wellFormedSegment segments -> 0 <= c <= 1 -> 0 < v ->
  forall acc accR e : Q, acc - e <= accR <= acc + e ->
    exists t T,
      movingTimeLoop segments (Fin v) profile (Fin c) (Fin acc) = Fin t
      /\ fold_left Num.add
           (map timeSec (map (detailSegment (Fin v) profile (Fin c)) segments))
           (Fin accR) = Fin T
      /\ t - e - inject_Z (Z.of_nat (length segments)) / 2 <= T
         <= t + e + inject_Z (Z.of_nat (length segments)) / 2.
Proof.
  intros W Hc Hv.
  induction W as [|s rest Ws _ IH]; intros acc accR e A.
  - exists acc, accR. cbn [length Z.of_nat].
    assert (H0 : inject_Z 0 / 2 == 0) by reflexivity.
    repeat split; try reflexivity; rewrite H0; lra.
  - destruct (segment_time_scaling s profile c v v Ws Hc Hv (Qle_refl v))
      as [r [_ [x [_ [E [P [_ [_ [X [_ _]]]]]]]]]].
    rewrite movingTimeLoop_step. cbv zeta. rewrite E, (feasible_Fin r P), X.
    cbn [map fold_left]. rewrite detailSegment_time, E, X.
    cbn [Num.round Num.add].
    pose proof (Qfloor_le (x + (1 # 2))) as F1.
    pose proof (Qlt_floor (x + (1 # 2))) as F2.
    rewrite inject_Z_plus in F2. change (inject_Z 1) with 1 in F2.
    set (rounded := inject_Z (Qfloor (x + (1 # 2)))) in *. clearbody rounded.
    destruct (IH (acc + x) (accR + rounded) (e + (1 # 2)))
      as [t [T [Lt [LT B]]]].
    { split; lra. }
    exists t, T. split; [exact Lt|]. split; [exact LT|].
    cbn [length]. rewrite inject_nat_succ.
    set (n := inject_Z (Z.of_nat (length rest))) in *.
    assert (Hn : (n + 1) / 2 == n / 2 + (1 # 2)) by field.
    rewrite Hn. set (h := n / 2) in *. clearbody h. split; lra.
Qed.

(** X8. On well-formed segments, with a caution in [0, 1] and bounds
    0 < vMin <= vMax such that the moving time at vMin exceeds the target
    and the moving time at vMax does not, the calibrated flat speed gives a
    moving time within target * (vMax - vMin) / 2^n / vMin of the target,
    and the sum of the segment times rounded to the second, which the result
    reports as the computed moving time, lies within half a second per
    segment of that moving time. *)
Theorem calibration_accuracy (segments : list Segment) (target : Q)
    (profile : string) (caution vMin vMax : Q) (iterations : nat) :
  let time := fun v => calculateMovingTimeForVflat segments v profile (Fin caution) in
  let vFlat :=
    findVflatForTargetTime segments (Fin target) profile (Fin caution)
      (Fin vMin) (Fin vMax) iterations in
  let tolerance := target * halved (vMax - vMin) iterations / vMin in
  Forall wellFormedSegment segments ->
  0 <= caution <= 1 ->
  0 < vMin -> vMin <= vMax ->
  (time (Fin vMin) >? Fin target)%num = true ->
  (time (Fin vMax) >? Fin target)%num = false ->
  exists t T,
    time vFlat = Fin t
    /\ target - tolerance <= t <= target + tolerance
    /\ sumNum (map timeSec (map (detailSegment vFlat profile (Fin caution)) segments))
       = Fin T
    /\ t - inject_Z (Z.of_nat (length segments)) / 2 <= T
       <= t + inject_Z (Z.of_nat (length segments)) / 2.
Proof.
  intros time vFlat tolerance W Hc Hmin Hmm Ha Hb.
  destruct (bisection_brackets time (Fin target) vMin vMax Hmm Ha Hb iterations)
    as [lo [hi [E [A [B [C [Wd [Tl Th]]]]]]]].
  assert (V : vFlat = Fin ((lo + hi) / 2)).
  { unfold vFlat. rewrite findVflat_fixed_iterations_browser. fold time.
    rewrite E. apply midpoint_Fin. }
  rewrite V. set (mid := (lo + hi) / 2).
  pose proof (Qhalf_between lo hi B) as M. fold mid in M.
  assert (Z0 : 0 <= 0) by lra.
  assert (Zl : 0 * lo <= 0 * mid) by lra.
  assert (Zm : 0 * mid <= 0 * hi) by lra.
  destruct (movingTimeLoop_scaling segments profile caution lo mid W Hc
              ltac:(lra) ltac:(lra) 0 0 Z0 Z0 Zl)
    as [tl [tm [El [Em [_ [Lml Sl]]]]]].
  destruct (movingTimeLoop_scaling segments profile caution mid hi W Hc
              ltac:(lra) ltac:(lra) 0 0 Z0 Z0 Zm)
    as [tm' [th [Em' [Eh [H0 [Lhm Sm]]]]]].
  rewrite Em in Em'. injection Em' as <-.
  unfold time, calculateMovingTimeForVflat in Tl, Th. rewrite El in Tl.
  rewrite Eh in Th. cbn [Num.gtb Num.ltb] in Tl, Th.
  apply Qltb_true in Tl. apply Qltb_false in Th.
  destruct (rounded_times_close segments profile caution mid W Hc ltac:(lra) 0 0 0)
    as [t [T [Lt [LT Bd]]]]; [split; lra|].
  rewrite Em in Lt. injection Lt as <-.
  exists tm, T. unfold time, calculateMovingTimeForVflat, sumNum.
  split; [exact Em|]. split; [|split; [exact LT|split; lra]].
  set (w := halved (vMax - vMin) iterations) in *.
  assert (G : 0 <= target) by lra.
  assert (Up : (tm - target) * vMin <= target * w) by nra.
  assert (Dn : (target - tm) * vMin <= target * w) by nra.
  unfold tolerance. split.
  - assert (target - tm <= target * w / vMin).
    { apply Qle_shift_div_l; assumption. }
    lra.
  - assert (tm - target <= target * w / vMin).
    { apply Qle_shift_div_l; assumption. }
    lra.
Qed.

Lemma calibration_accuracy_witness :
  Forall wellFormedSegment Demo.twoSegments
  /\ 0 <= 0.5 <= 1 /\ 0 < 3 /\ 3 <= 25
  /\ (calculateMovingTimeForVflat Demo.twoSegments (Fin 3) "trained" (Fin 0.5)
      >? Fin 300)%num = true
  /\ (calculateMovingTimeForVflat Demo.twoSegments (Fin 25) "trained" (Fin 0.5)
      >? Fin 300)%num = false
  /\ exists t T,
       calculateMovingTimeForVflat Demo.twoSegments
         (findVflatForTargetTime Demo.twoSegments (Fin 300) "trained" (Fin 0.5)
            (Fin 3) (Fin 25) 5)
         "trained" (Fin 0.5) = Fin t
       /\ 300 - 300 * halved (25 - 3) 5 / 3 <= t <= 300 + 300 * halved (25 - 3) 5 / 3
       /\ sumNum
            (map timeSec
               (map (detailSegment
                       (findVflatForTargetTime Demo.twoSegments (Fin 300) "trained"
                          (Fin 0.5) (Fin 3) (Fin 25) 5)
                       "trained" (Fin 0.5))
                  Demo.twoSegments)) = Fin T
       /\ t - inject_Z (Z.of_nat (length Demo.twoSegments)) / 2 <= T
          <= t + inject_Z (Z.of_nat (length Demo.twoSegments)) / 2.
Proof.
  assert (C : 0 <= 0.5 <= 1) by (split; discriminate).
  assert (P : 0 < 3) by reflexivity.
  assert (M : 3 <= 25) by discriminate.
  assert (A : (calculateMovingTimeForVflat Demo.twoSegments (Fin 3) "trained" (Fin 0.5)
               >? Fin 300)%num = true) by (vm_compute; reflexivity).
  assert (B : (calculateMovingTimeForVflat Demo.twoSegments (Fin 25) "trained" (Fin 0.5)
               >? Fin 300)%num = false) by (vm_compute; reflexivity).
  split; [exact twoSegments_wellFormed|].
  split; [exact C|]. split; [exact P|]. split; [exact M|].
  split; [exact A|]. split; [exact B|].
  exact (calibration_accuracy Demo.twoSegments 300 "trained" 0.5 3 25 5
           twoSegments_wellFormed C P M A B).
Defined.

(** ** Caution and profile in the speed model *)

(** The speed depends on the profile only through the test for "trained". *)
Lemma speed_profile_name (slope v : num) (profile : string) (c : num) :
  calculateSpeedForSlope slope v profile c
  = calculateSpeedForSlope slope v
      (Table.name (if is_trained profile then Table.trained else Table.standard)) c.
Proof.
  unfold calculateSpeedForSlope. rewrite is_trained_name.
  destruct (is_trained profile); reflexivity.
Qed.

Lemma table_value_caution (s v : Q) (p : Table.profile) (c1 c2 t1 t2 : Q) :
  c1 <= c2 -> Table.value s v p c1 t1 -> Table.value s v p c2 t2 -> t2 <= t1.
Proof.
  intros Hc T1 T2.
  destruct T1; destruct T2; try (exfalso; lra); try apply Qle_refl;
    unfold Table.range_pick, Table.by_profile; destruct p; lra.
Qed.

Lemma table_value_profile (s v c ts tt : Q) :
  0 <= c <= 1 ->
  Table.value s v Table.standard c ts -> Table.value s v Table.trained c tt ->
  ts <= tt.
Proof.
  intros Hc T1 T2.
  destruct T1; destruct T2; try (exfalso; lra); try apply Qle_refl;
    unfold Table.range_pick, Table.by_profile; lra.
Qed.

(** X9. For every slope, flat speed and profile, a larger caution never
    gives a larger speed. *)
Theorem speed_decreases_with_caution (s v : Q) (profile : string) (c1 c2 : Q) :
  c1 <= c2 ->
  exists r1 r2,
    calculateSpeedForSlope (Fin s) (Fin v) profile (Fin c1) = Fin r1
    /\ calculateSpeedForSlope (Fin s) (Fin v) profile (Fin c2) = Fin r2
    /\ r2 <= r1.
Proof.
  intro Hc. rewrite !(speed_profile_name _ _ profile).
  set (p := if is_trained profile then Table.trained else Table.standard).
  destruct (speed_table_browser s v p c1) as [r1 [t1 [E1 [T1 R1]]]].
  destruct (speed_table_browser s v p c2) as [r2 [t2 [E2 [T2 R2]]]].
  exists r1, r2. repeat split; try assumption.
  rewrite R1, R2. exact (table_value_caution s v p c1 c2 t1 t2 Hc T1 T2).
Qed.

Lemma speed_decreases_with_caution_witness :
  0 <= 1
  /\ exists r1 r2,
       calculateSpeedForSlope (Fin 13) (Fin 10) "trained" (Fin 0) = Fin r1
       /\ calculateSpeedForSlope (Fin 13) (Fin 10) "trained" (Fin 1) = Fin r2
       /\ r2 <= r1.
Proof.
  assert (H : 0 <= 1) by discriminate.
  split; [exact H|].
  exact (speed_decreases_with_caution 13 10 "trained" 0 1 H).
Defined.

(** X10. For a caution in [0, 1], on every slope and flat speed the trained
    profile is never slower than any other profile (every profile name other
    than "trained" is treated as standard). *)
Theorem trained_never_slower (s v : Q) (profile : string) (c : Q) :
  0 <= c <= 1 ->
  exists rt rp,
    calculateSpeedForSlope (Fin s) (Fin v) "trained" (Fin c) = Fin rt
    /\ calculateSpeedForSlope (Fin s) (Fin v) profile (Fin c) = Fin rp
    /\ rp <= rt.
Proof.
  intro Hc. rewrite (speed_profile_name _ _ profile).
  destruct (speed_table_browser s v Table.trained c) as [rt [tt [Et [Tt Rt]]]].
  exists rt. change (Table.name Table.trained) with "trained"%string in Et.
  destruct (is_trained profile).
  - exists rt. repeat split; try assumption. apply Qle_refl.
  - destruct (speed_table_browser s v Table.standard c) as [rs [ts [Es [Ts Rs]]]].
    exists rs. repeat split; try assumption.
    rewrite Rt, Rs. exact (table_value_profile s v c ts tt Hc Ts Tt).
Qed.

Lemma trained_never_slower_witness :
  0 <= 0.5 <= 1
  /\ exists rt rp,
       calculateSpeedForSlope (Fin 16) (Fin 10) "trained" (Fin 0.5) = Fin rt
       /\ calculateSpeedForSlope (Fin 16) (Fin 10) "standard" (Fin 0.5) = Fin rp
       /\ rp <= rt.
Proof.
  assert (H : 0 <= 0.5 <= 1) by (split; discriminate).
  split; [exact H|].
  exact (trained_never_slower 16 10 "standard" 0.5 H).
Defined.

(** ** Caution on the command line, and the slope classes *)

Lemma clamp01_Fin (q : Q) :
  exists c, clamp01 (Fin q) = Fin c
    /\ 0 <= c <= 1
    /\ (q < 0 -> c == 0) /\ (0 <= q <= 1 -> c == q) /\ (1 < q -> c == 1).
Proof.
  unfold clamp01, mathMax, mathMin. cbn [Num.isFinite negb Num.ltb].
  destruct (Num.Qltb q 1) eqn:A.
  - destruct (Num.Qltb 0 q) eqn:B; eexists; (split; [reflexivity|]); qfacts;
      repeat split; intros; lra.
  - cbn [Num.ltb]. assert (B : Num.Qltb 0 1 = true) by reflexivity. rewrite B.
    eexists. split; [reflexivity|]. qfacts. repeat split; intros; lra.
Qed.

Lemma clamp01_unit (x : num) : exists c, clamp01 x = Fin c /\ 0 <= c <= 1.
Proof.
  destruct x as [q| | |].
  - destruct (clamp01_Fin q) as [c [E [R _]]]. now exists c.
  - exists 0.5. split; [reflexivity|split; discriminate].
  - exists 0.5. split; [reflexivity|split; discriminate].
  - exists 0.5. split; [reflexivity|split; discriminate].
Qed.

(** X11. clamp01 always returns a finite number of [0, 1]: a finite number
    is moved to the nearer bound when it lies outside, kept when it lies
    inside, and NaN and both infinities become 0.5. *)
Theorem clamp01_range (x : num) :
  exists c, clamp01 x = Fin c
    /\ 0 <= c <= 1
    /\ (forall q, x = Fin q ->
          (q < 0 -> c == 0) /\ (0 <= q <= 1 -> c == q) /\ (1 < q -> c == 1))
    /\ (Num.isFinite x = false -> c = 0.5).
Proof.
  destruct x as [q| | |].
  - destruct (clamp01_Fin q) as [c [E [R H]]]. exists c.
    split; [exact E|]. split; [exact R|]. split; [|discriminate].
    intros q' Hq. injection Hq as <-. exact H.
  - exists 0.5. repeat split; try discriminate; reflexivity.
  - exists 0.5. repeat split; try discriminate; reflexivity.
  - exists 0.5. repeat split; try discriminate; reflexivity.
Qed.

(** X12. In the command line script the caution goes through clamp01, so
    for every --prudence value, a number or not, every finite slope and
    every positive flat speed the resolved speed is finite and positive, and
    the moving time of well-formed segments is finite: the infeasible
    branch of the time function is never taken. *)
Theorem cli_speed_always_feasible (prudenceArg : num) (profile : string) (v : Q) :
  0 < v ->
  (forall s : Q, exists r,
      speedForSlopeKmh (Fin s) (Fin v) profile (clamp01 prudenceArg) = Fin r /\ 0 < r)
  /\ (forall segments, Forall wellFormedSegment segments ->
        exists t, movingTimeForVflatSec segments profile (clamp01 prudenceArg) (Fin v)
                  = Fin t /\ 0 <= t).
Proof.
  intro Hv. destruct (clamp01_unit prudenceArg) as [c [-> Hc]]. split.
  - intro s. rewrite speed_variants_agree. now apply speed_positive.
  - intros segments W. unfold movingTimeForVflatSec.
    rewrite movingTimeLoopCli_agree by now apply wellFormed_finiteSlope.
    destruct (movingTimeLoop_scaling segments profile c v v W Hc Hv (Qle_refl v) 0 0)
      as [t [t' [E [_ [H0 [H1 _]]]]]]; try lra.
    exists t. split; [exact E|lra].
Qed.

Lemma cli_speed_always_feasible_witness :
  0 < 10
  /\ exists r, speedForSlopeKmh (Fin 13) (Fin 10) "trained" (clamp01 NaN) = Fin r
               /\ 0 < r.
Proof.
  assert (H : 0 < 10) by reflexivity.
  split; [exact H|].
  exact (proj1 (cli_speed_always_feasible NaN "trained" 10 H) 13).
Defined.

(** *** The slope classes follow the brackets of the speed model *)

Ltac class_eval :=
  unfold getSlopeClass;
  cbn [Num.isFinite negb Num.geb Num.leb Num.gtb Num.ltb];
  repeat match goal with
  | H : ?b = true |- context [if ?b then _ else _] => rewrite H
  | H : ?b = false |- context [if ?b then _ else _] => rewrite H
  end.

Lemma getSlopeClass_cases (s : Q) :
  (-1 <= s <= 1 /\ getSlopeClass (Fin s) = "slope-plat"%string)
  \/ (1 < s <= 12 /\ getSlopeClass (Fin s) = "slope-montee-legere"%string)
  \/ (12 < s <= 15 /\ getSlopeClass (Fin s) = "slope-montee-moderee"%string)
  \/ (15 < s <= 20 /\ getSlopeClass (Fin s) = "slope-montee-forte"%string)
  \/ (20 < s /\ getSlopeClass (Fin s) = "slope-montee-tres-forte"%string)
  \/ (-3 <= s < -1 /\ getSlopeClass (Fin s) = "slope-descente-legere"%string)
  \/ (-4 <= s < -3 /\ getSlopeClass (Fin s) = "slope-descente-moderee"%string)
  \/ (-6 <= s < -4 /\ getSlopeClass (Fin s) = "slope-descente-forte"%string)
  \/ (-8 <= s < -6 /\ getSlopeClass (Fin s) = "slope-descente-tres-forte"%string)
  \/ (-12 <= s < -8 /\ getSlopeClass (Fin s) = "slope-descente-extreme"%string)
  \/ (s < -12 /\ getSlopeClass (Fin s) = "slope-descente-maximale"%string).
Proof.
  destruct (Qle_bool (-1) s && Qle_bool s 1) eqn:R0.
  { left. split; [qfacts; bracket|class_eval; reflexivity]. }
  destruct (Num.Qltb 1 s && Qle_bool s 12) eqn:R1.
  { right; left. split; [qfacts; bracket|class_eval; reflexivity]. }
  destruct (Num.Qltb 12 s && Qle_bool s 15) eqn:R2.
  { do 2 right; left. split; [qfacts; bracket|class_eval; reflexivity]. }
  destruct (Num.Qltb 15 s && Qle_bool s 20) eqn:R3.
  { do 3 right; left. split; [qfacts; bracket|class_eval; reflexivity]. }
  destruct (Num.Qltb 20 s) eqn:R4.
  { do 4 right; left. split; [qfacts; bracket|class_eval; reflexivity]. }
  destruct (Num.Qltb s (-1) && Qle_bool (-3) s) eqn:R5.
  { do 5 right; left. split; [qfacts; bracket|class_eval; reflexivity]. }
  destruct (Num.Qltb s (-3) && Qle_bool (-4) s) eqn:R6.
  { do 6 right; left. split; [qfacts; bracket|class_eval; reflexivity]. }
  destruct (Num.Qltb s (-4) && Qle_bool (-6) s) eqn:R7.
  { do 7 right; left. split; [qfacts; bracket|class_eval; reflexivity]. }
  destruct (Num.Qltb s (-6) && Qle_bool (-8) s) eqn:R8.
  { do 8 right; left. split; [qfacts; bracket|class_eval; reflexivity]. }
  destruct (Num.Qltb s (-8) && Qle_bool (-12) s) eqn:R9.
  { do 9 right; left. split; [qfacts; bracket|class_eval; reflexivity]. }
  destruct (Num.Qltb s (-12)) eqn:R10.
  { do 10 right. split; [qfacts; bracket|class_eval; reflexivity]. }
  exfalso. qfacts; qcases.
Qed.

Ltac class_bracket s :=
  split;
  [ let H := fresh "H" in
    intro H;
    destruct (getSlopeClass_cases s)
      as [[B E]|[[B E]|[[B E]|[[B E]|[[B E]|[[B E]|[[B E]|[[B E]|[[B E]|[[B E]|[B E]]]]]]]]]]];
    rewrite E in H; first [discriminate H | exact B]
  | let H := fresh "H" in
    intro H;
    destruct (getSlopeClass_cases s)
      as [[B E]|[[B E]|[[B E]|[[B E]|[[B E]|[[B E]|[[B E]|[[B E]|[[B E]|[[B E]|[B E]]]]]]]]]]];
    first [exact E | exfalso; lra] ].

(** X13. getSlopeClass gives each bracket of the speed model its own class,
    with the same bounds: flat on [-1, 1]; four uphill classes on (1, 12],
    (12, 15], (15, 20] and above 20; six downhill classes on [-3, -1),
    [-4, -3), [-6, -4), [-8, -6), [-12, -8) and below -12. A slope that is
    not finite is shown as flat. *)
Theorem getSlopeClass_brackets (s : Q) :
  (getSlopeClass (Fin s) = "slope-plat"%string <-> -1 <= s <= 1)
  /\ (getSlopeClass (Fin s) = "slope-montee-legere"%string <-> 1 < s <= 12)
  /\ (getSlopeClass (Fin s) = "slope-montee-moderee"%string <-> 12 < s <= 15)
  /\ (getSlopeClass (Fin s) = "slope-montee-forte"%string <-> 15 < s <= 20)
  /\ (getSlopeClass (Fin s) = "slope-montee-tres-forte"%string <-> 20 < s)
  /\ (getSlopeClass (Fin s) = "slope-descente-legere"%string <-> -3 <= s < -1)
  /\ (getSlopeClass (Fin s) = "slope-descente-moderee"%string <-> -4 <= s < -3)
  /\ (getSlopeClass (Fin s) = "slope-descente-forte"%string <-> -6 <= s < -4)
  /\ (getSlopeClass (Fin s) = "slope-descente-tres-forte"%string <-> -8 <= s < -6)
  /\ (getSlopeClass (Fin s) = "slope-descente-extreme"%string <-> -12 <= s < -8)
  /\ (getSlopeClass (Fin s) = "slope-descente-maximale"%string <-> s < -12)
  /\ getSlopeClass NaN = "slope-plat"%string
  /\ getSlopeClass PInf = "slope-plat"%string
  /\ getSlopeClass NInf = "slope-plat"%string.
Proof.
  repeat match goal with
  | |- (_ <-> _) /\ _ => split; [class_bracket s|]
  end.
  repeat split.
Qed.

(** ** Times and paces as text *)

(** *** Floors and remainders *)

Lemma Qfloor_unique (q : Q) (z : Z) :
  inject_Z z <= q -> q < inject_Z z + 1 -> Qfloor q = z.
Proof.
  intros L U.
  pose proof (Qfloor_le q) as A. pose proof (Qlt_floor q) as B.
  rewrite inject_Z_plus in B. change (inject_Z 1) with 1 in B.
  assert (H1 : inject_Z z < inject_Z (Qfloor q + 1)).
  { rewrite inject_Z_plus. change (inject_Z 1) with 1. lra. }
  assert (H2 : inject_Z (Qfloor q) < inject_Z (z + 1)).
  { rewrite inject_Z_plus. change (inject_Z 1) with 1. lra. }
  rewrite <- Zlt_Qlt in H1, H2. lia.
Qed.

Lemma floor_div_bounds (x d : Q) : 0 < d ->
  d * inject_Z (Qfloor (x / d)) <= x /\ x < d * inject_Z (Qfloor (x / d)) + d.
Proof.
  intro Hd.
  pose proof (Qfloor_le (x / d)) as A. pose proof (Qlt_floor (x / d)) as B.
  rewrite inject_Z_plus in B. change (inject_Z 1) with 1 in B.
  set (a := inject_Z (Qfloor (x / d))) in *. clearbody a.
  assert (E : x == x / d * d) by (field; lra).
  split.
  - assert (a * d <= x / d * d) by (apply Qmult_le_compat_r; lra). lra.
  - assert (x / d * d < (a + 1) * d) by (apply Qmult_lt_compat_r; lra). lra.
Qed.

Lemma floor_div_unique (x d : Q) (z : Z) : 0 < d ->
  d * inject_Z z <= x -> x < d * inject_Z z + d -> Qfloor (x / d) = z.
Proof.
  intros Hd L U. apply Qfloor_unique.
  - apply Qle_shift_div_l; [assumption|]. lra.
  - apply Qlt_shift_div_r; [assumption|]. lra.
Qed.

(** The remainder of a number that is not negative by a positive number. *)
Lemma remainder_nonneg (a b : Q) : 0 <= a -> 0 < b ->
  remainder (Fin a) (Fin b) = Fin (a - b * inject_Z (Qfloor (a / b))).
Proof.
  intros Ha Hb. unfold remainder, truncate.
  assert (E : Qeq_bool b 0 = false) by (apply Qeq_bool_false; lra). rewrite E.
  assert (L : Num.Qltb (a / b) 0 = false).
  { apply Qltb_false. apply Qdiv_nonneg; assumption. }
  now rewrite L.
Qed.

Lemma Zle_inject (a b : Z) : inject_Z a <= inject_Z b -> (a <= b)%Z.
Proof. intro H. now rewrite Zle_Qle. Qed.

Lemma Zlt_inject (a b : Z) : inject_Z a < inject_Z b -> (a < b)%Z.
Proof. intro H. now rewrite Zlt_Qlt. Qed.

(** The three fields of a time that is not negative. *)
Lemma clock_fields (x : Q) : 0 <= x ->
  let h := Qfloor (x / 3600) in
  let m := Qfloor ((x - 3600 * inject_Z h) / 60) in
  let r := x - 60 * inject_Z (Qfloor (x / 60)) in
  (0 <= h)%Z /\ (0 <= m <= 59)%Z
  /\ 0 <= r < 60
  /\ x == inject_Z (h * 3600 + m * 60) + r.
Proof.
  intros Hx h m r.
  destruct (floor_div_bounds x 3600) as [A1 A2]; [lra|]. fold h in A1, A2.
  destruct (floor_div_bounds (x - 3600 * inject_Z h) 60) as [B1 B2]; [lra|].
  fold m in B1, B2.
  assert (F : Qfloor (x / 60) = (h * 60 + m)%Z).
  { apply floor_div_unique; [lra| |];
      rewrite inject_Z_plus, inject_Z_mult; change (inject_Z 60) with 60; lra. }
  assert (Hh : (0 <= h)%Z).
  { assert (inject_Z (-1) < inject_Z h); [|apply Zlt_inject in H; lia].
    change (inject_Z (-1)) with (-1). lra. }
  assert (Hm : (0 <= m <= 59)%Z).
  { split.
    - assert (inject_Z (-1) < inject_Z m); [|apply Zlt_inject in H; lia].
      change (inject_Z (-1)) with (-1). lra.
    - assert (inject_Z m < inject_Z 60); [|apply Zlt_inject in H; lia].
      change (inject_Z 60) with 60. lra. }
  split; [exact Hh|]. split; [exact Hm|].
  unfold r. rewrite F.
  rewrite !inject_Z_plus, !inject_Z_mult.
  change (inject_Z 60) with 60. change (inject_Z 3600) with 3600.
  split; [split|]; lra.
Qed.

(** *** Whole numbers written and read back *)

Lemma uint_digits (d : Decimal.uint) :
  allDigits (DecimalString.NilEmpty.string_of_uint d) = true.
Proof. induction d; simpl; auto. Qed.

Lemma uint_value (d : Decimal.uint) : forall a : nat,
  digitsValue (DecimalString.NilEmpty.string_of_uint d) (Z.of_nat a)
  = Z.of_nat (Nat.of_uint_acc d a).
Proof.
  induction d; intro a;
    cbn [DecimalString.NilEmpty.string_of_uint digitsValue Nat.of_uint_acc];
    try reflexivity;
    match goal with
    | |- context [digitOf ?c] =>
        let v := eval vm_compute in (digitOf c) in change (digitOf c) with v
    end;
    cbv iota; rewrite <- IHd; f_equal; rewrite Nat.tail_mul_spec; lia.
Qed.

Lemma integerToString_nonneg (z : Z) : (0 <= z)%Z ->
  allDigits (integerToString z) = true
  /\ digitsValue (integerToString z) 0 = z.
Proof.
  intro H. unfold integerToString.
  assert (L : (z <? 0)%Z = false) by (apply Z.ltb_ge; lia). rewrite L.
  split; [apply uint_digits|].
  change 0%Z with (Z.of_nat 0). rewrite uint_value.
  change (Nat.of_uint_acc (Nat.to_uint (Z.to_nat z)) 0)
    with (Nat.of_uint (Nat.to_uint (Z.to_nat z))).
  rewrite DecimalNat.Unsigned.of_to. lia.
Qed.

Lemma padStart2_digits (s : string) : allDigits s = true ->
  allDigits (padStart2 s) = true
  /\ startsWithDigit (padStart2 s) = true
  /\ digitsValue (padStart2 s) 0 = digitsValue s 0.
Proof.
  intro H. unfold padStart2.
  destruct s as [|c [|c' rest]]; cbn [String.length].
  - repeat split.
  - cbn [allDigits] in H. apply andb_true_iff in H. destruct H as [H _].
    repeat split. cbn [append allDigits]. now rewrite H.
  - cbn [allDigits] in H. apply andb_true_iff in H. destruct H as [Hc H'].
    repeat split; [|exact Hc]. cbn [allDigits]. now rewrite Hc, H'.
Qed.

(** pad2 of a whole number that is not negative: digits only, at least one,
    with the value of the number. *)
Lemma pad2_whole (z : Z) : (0 <= z)%Z ->
  allDigits (pad2 (Fin (inject_Z z))) = true
  /\ startsWithDigit (pad2 (Fin (inject_Z z))) = true
  /\ digitsValue (pad2 (Fin (inject_Z z))) 0 = z.
Proof.
  intro H. unfold pad2, wholeToString. rewrite Qfloor_Z.
  destruct (integerToString_nonneg z H) as [D V].
  destruct (padStart2_digits _ D) as [A [B C]].
  repeat split; try assumption. now rewrite C.
Qed.

Lemma digit_cases (c : ascii) :
  startsWithDigit (String c EmptyString) = true ->
  isWhiteSpace c = false /\ Ascii.eqb c ":" = false
  /\ Ascii.eqb c "-" = false /\ Ascii.eqb c "+" = false.
Proof.
  destruct c as [[] [] [] [] [] [] [] []]; intro H; try discriminate H;
    repeat split.
Qed.

Lemma trimEnd_digits (s : string) : allDigits s = true -> trimEnd s = s.
Proof.
  induction s as [|c rest IH]; [reflexivity|].
  cbn [allDigits]. intro H. apply andb_true_iff in H. destruct H as [Hc H].
  cbn [trimEnd]. rewrite (IH H).
  destruct (digit_cases c Hc) as [W _]. rewrite W. now destruct rest.
Qed.

Lemma trim_digits (s : string) : allDigits s = true -> trim s = s.
Proof.
  intro H. unfold trim.
  destruct s as [|c rest]; [reflexivity|].
  pose proof H as H'. cbn [allDigits] in H'. apply andb_true_iff in H'.
  destruct (digit_cases c (proj1 H')) as [W _].
  cbn [trimStart]. rewrite W. now apply trimEnd_digits.
Qed.

(** parseInt reads a string of digits as its value. *)
Lemma parseInt10_digits (s : string) :
  allDigits s = true -> startsWithDigit s = true ->
  parseInt10 s = Fin (inject_Z (digitsValue s 0)).
Proof.
  intros D S. destruct s as [|c rest]; [discriminate|].
  pose proof D as D'. cbn [allDigits] in D'. apply andb_true_iff in D'.
  destruct (digit_cases c (proj1 D')) as [W [_ [M P]]].
  unfold parseInt10. cbn [trimStart]. rewrite W.
  assert (E : match String c rest with
              | String "-" r => ((-1)%Z, r)
              | String "+" r => (1%Z, r)
              | _ => (1%Z, String c rest)
              end = (1%Z, String c rest)).
  { destruct c as [[] [] [] [] [] [] [] []]; try discriminate M; try discriminate P;
      reflexivity. }
  rewrite E, S. now rewrite Z.mul_1_l.
Qed.

Lemma splitOn_piece (sep : ascii) (piece rest : string) :
  (forall c, In c (list_ascii_of_string piece) -> Ascii.eqb c sep = false) ->
  splitOn sep (piece ++ String sep rest) = piece :: splitOn sep rest.
Proof.
  induction piece as [|c piece IH]; intro H.
  - cbn [append splitOn]. now rewrite Ascii.eqb_refl.
  - cbn [append splitOn]. rewrite (H c) by (left; reflexivity).
    rewrite IH; [reflexivity|]. intros c' Hc'. apply H. now right.
Qed.

Lemma splitOn_last (sep : ascii) (piece : string) :
  (forall c, In c (list_ascii_of_string piece) -> Ascii.eqb c sep = false) ->
  splitOn sep piece = [piece].
Proof.
  induction piece as [|c piece IH]; intro H; [reflexivity|].
  cbn [splitOn]. rewrite (H c) by (left; reflexivity).
  rewrite IH; [reflexivity|]. intros c' Hc'. apply H. now right.
Qed.

Lemma digits_no_colon (s : string) : allDigits s = true ->
  forall c, In c (list_ascii_of_string s) -> Ascii.eqb c ":" = false.
Proof.
  induction s as [|c' rest IH]; intros H c Hc; [destruct Hc|].
  cbn [allDigits] in H. apply andb_true_iff in H. destruct H as [Hd H].
  destruct Hc as [<-|Hc]; [now destruct (digit_cases c' Hd) as [_ [C _]]|].
  now apply IH.
Qed.

(** The text of a clock with three whole fields that are not negative reads
    back as hours, minutes and seconds. *)
Lemma clockText_reads_back (h m s : Z) : (0 <= h)%Z -> (0 <= m)%Z -> (0 <= s)%Z ->
  parseTimeString (clockText (wholeClock h m s))
  = Ok (Fin (inject_Z h * 3600 + inject_Z m * 60 + inject_Z s)).
Proof.
  intros Hh Hm Hs.
  destruct (pad2_whole h Hh) as [Dh [Sh Vh]].
  destruct (pad2_whole m Hm) as [Dm [Sm Vm]].
  destruct (pad2_whole s Hs) as [Ds [Ss Vs]].
  unfold parseTimeString, clockText, wholeClock. cbn [append].
  rewrite splitOn_piece by now apply digits_no_colon.
  rewrite splitOn_piece by now apply digits_no_colon.
  rewrite splitOn_last by now apply digits_no_colon.
  cbn [map]. rewrite !trim_digits by assumption.
  rewrite !parseInt10_digits by assumption.
  rewrite Vh, Vm, Vs. reflexivity.
Qed.

(** *** formatTime *)

Lemma timeFields_nonneg (x : Q) : 0 <= x ->
  timeFields (Fin x)
  = wholeClock (Qfloor (x / 3600))
      (Qfloor ((x - 3600 * inject_Z (Qfloor (x / 3600))) / 60))
      (Qfloor (x - 60 * inject_Z (Qfloor (x / 60)) + (1 # 2))).
Proof.
  intro Hx. unfold timeFields, wholeClock.
  rewrite (remainder_nonneg x 3600), (remainder_nonneg x 60) by lra.
  rewrite !div_Fin by lra. reflexivity.
Qed.

Lemma rounded_remainder (r : Q) : 0 <= r < 60 ->
  let s := Qfloor (r + (1 # 2)) in
  (0 <= s <= 60)%Z
  /\ - (1 # 2) <= inject_Z s - r <= 1 # 2
  /\ (s = 60%Z <-> 59.5 <= r).
Proof.
  intros Hr s.
  pose proof (Qfloor_le (r + (1 # 2))) as A. pose proof (Qlt_floor (r + (1 # 2))) as B.
  fold s in A, B. rewrite inject_Z_plus in B. change (inject_Z 1) with 1 in B.
  assert (L : (-1 < s)%Z).
  { apply Zlt_inject. change (inject_Z (-1)) with (-1). lra. }
  assert (U : (s < 61)%Z).
  { apply Zlt_inject. change (inject_Z 61) with 61. lra. }
  split; [lia|]. split; [split; lra|]. split.
  - intro E. rewrite E in A. change (inject_Z 60) with 60 in A. lra.
  - intro H. assert (G : (59 < s)%Z); [|lia].
    apply Zlt_inject. change (inject_Z 59) with 59. lra.
Qed.

(** X14. For a time in seconds that is not negative, formatTime prints
    whole hours, minutes from 0 to 59 and seconds from 0 to 60; the text,
    read back by parseTimeToSeconds, is within half a second of the time. The
    seconds are 60, with the minute not carried, exactly when the time is
    within half a second below a full minute; on a whole number of seconds
    this never happens and the text reads back as the same number. *)
Theorem formatTime_reads_back (x : Q) :
  0 <= x ->
  exists h m s : Z,
    timeFields (Fin x) = wholeClock h m s
    /\ (0 <= h)%Z /\ (0 <= m <= 59)%Z /\ (0 <= s <= 60)%Z
    /\ (s = 60%Z <-> 59.5 <= x - 60 * inject_Z (Qfloor (x / 60)))
    /\ (exists q, parseTimeString (formatTime (Fin x)) = Ok (Fin q)
                  /\ q == inject_Z (h * 3600 + m * 60 + s)
                  /\ - (1 # 2) <= q - x <= 1 # 2)
    /\ (forall n : Z, x == inject_Z n ->
          (s <= 59)%Z /\ (h * 3600 + m * 60 + s)%Z = n).
Proof.
  intro Hx. destruct (clock_fields x Hx) as [Hh [Hm [Hr E]]].
  set (h := Qfloor (x / 3600)) in *.
  set (m := Qfloor ((x - 3600 * inject_Z h) / 60)) in *.
  set (r := x - 60 * inject_Z (Qfloor (x / 60))) in *.
  destruct (rounded_remainder r Hr) as [Hs [Acc Sixty]].
  set (s := Qfloor (r + (1 # 2))) in *.
  exists h, m, s.
  assert (F : timeFields (Fin x) = wholeClock h m s) by now apply timeFields_nonneg.
  split; [exact F|]. split; [exact Hh|]. split; [exact Hm|]. split; [exact Hs|].
  split; [exact Sixty|]. split.
  - eexists. unfold formatTime. rewrite F.
    rewrite clockText_reads_back by lia. split; [reflexivity|].
    assert (Q1 : inject_Z h * 3600 + inject_Z m * 60 + inject_Z s
                 == inject_Z (h * 3600 + m * 60 + s)).
    { rewrite !inject_Z_plus, !inject_Z_mult. reflexivity. }
    split; [exact Q1|].
    rewrite Q1. rewrite inject_Z_plus.
    set (hm := inject_Z (h * 3600 + m * 60)) in *. clearbody hm.
    set (si := inject_Z s) in *. clearbody si. split; lra.
  - intros n Hn.
    assert (K : r == inject_Z (n - (h * 3600 + m * 60))).
    { unfold Zminus. rewrite inject_Z_plus, inject_Z_opp. lra. }
    assert (S : s = (n - (h * 3600 + m * 60))%Z).
    { unfold s. rewrite K. apply Qfloor_unique; lra. }
    assert (R : (n - (h * 3600 + m * 60) < 60)%Z).
    { apply Zlt_inject. rewrite <- K. change (inject_Z 60) with 60. lra. }
    lia.
Qed.

Lemma formatTime_reads_back_witness :
  0 <= 59.5
  /\ exists h m s : Z,
       timeFields (Fin 59.5) = wholeClock h m s
       /\ (0 <= s <= 60)%Z
       /\ exists q, parseTimeString (formatTime (Fin 59.5)) = Ok (Fin q)
                    /\ - (1 # 2) <= q - 59.5 <= 1 # 2.
Proof.
  assert (H : 0 <= 59.5) by discriminate.
  split; [exact H|].
  destruct (formatTime_reads_back 59.5 H)
    as [h [m [s [F [_ [_ [S [_ [[q [P [_ A]]] _]]]]]]]]].
  exists h, m, s. split; [exact F|]. split; [exact S|].
  exists q. split; [exact P|exact A].
Defined.

Example formatTime_texts :
  formatTime (Fin 3661) = "01:01:01"%string
  /\ formatTime (Fin 59.5) = "00:00:60"%string
  /\ formatTime (Fin 360000) = "100:00:00"%string
  /\ parseTimeString "01:01:01" = Ok (Fin 3661)
  /\ parseTimeString " 1 : 02" = Ok (Fin 3720)
  /\ parseTimeString "ab:cd" = Ok NaN
  /\ parseTimeString "3600" = Error InvalidTimeFormat.
Proof. repeat split. Qed.

(** *** formatHMS *)

Lemma pad2_whole_value (r : Q) (k : Z) :
  r == inject_Z k -> pad2 (Fin r) = pad2 (Fin (inject_Z k)).
Proof.
  intro H. unfold pad2, wholeToString. now rewrite H.
Qed.

Lemma hms_rounded (x : Q) :
  mathMax (Fin 0) (Num.round (Fin x)) = Fin (inject_Z (Z.max 0 (Qfloor (x + (1 # 2))))).
Proof.
  unfold mathMax. cbn [Num.round Num.ltb].
  destruct (Num.Qltb 0 (inject_Z (Qfloor (x + (1 # 2))))) eqn:L.
  - apply Qltb_true in L. change 0 with (inject_Z 0) in L. apply Zlt_inject in L.
    now rewrite Z.max_r by lia.
  - apply Qltb_false in L. change 0 with (inject_Z 0) in L. apply Zle_inject in L.
    now rewrite Z.max_l by lia.
Qed.

(** X15. formatHMS rounds to the second first and replaces a negative time
    by 0, so for every finite time it prints whole hours, minutes and
    seconds with minutes and seconds from 0 to 59, never 60, and these
    fields, read by the parseTimeToSeconds of the same script, give back the
    rounded time. On NaN it prints NaN in all three fields, on an infinite
    time Infinity hours with NaN minutes and seconds. *)
Theorem formatHMS_fields (x : Q) :
  exists h m s : Z,
    formatHMS (Fin x) = clockText (wholeClock h m s)
    /\ (0 <= h)%Z /\ (0 <= m <= 59)%Z /\ (0 <= s <= 59)%Z
    /\ (h * 3600 + m * 60 + s)%Z = Z.max 0 (Qfloor (x + (1 # 2)))
    /\ (exists q, parseTimeToSecondsCli
                    [Fin (inject_Z h); Fin (inject_Z m); Fin (inject_Z s)]
                  = inr (Fin q)
                  /\ q == inject_Z (Z.max 0 (Qfloor (x + (1 # 2)))))
    /\ formatHMS NaN = "NaN:NaN:NaN"%string
    /\ formatHMS PInf = "Infinity:NaN:NaN"%string.
Proof.
  set (n := Z.max 0 (Qfloor (x + (1 # 2)))).
  assert (Hn : 0 <= inject_Z n).
  { change 0 with (inject_Z 0). rewrite <- Zle_Qle. unfold n. lia. }
  destruct (clock_fields (inject_Z n) Hn) as [Hh [Hm [Hr E]]].
  set (h := Qfloor (inject_Z n / 3600)) in *.
  set (m := Qfloor ((inject_Z n - 3600 * inject_Z h) / 60)) in *.
  set (r := inject_Z n - 60 * inject_Z (Qfloor (inject_Z n / 60))) in *.
  assert (K : r == inject_Z (n - (h * 3600 + m * 60))).
  { unfold Zminus. rewrite inject_Z_plus, inject_Z_opp. lra. }
  set (s := (n - (h * 3600 + m * 60))%Z) in *.
  assert (Hs : (0 <= s <= 59)%Z).
  { split.
    - apply Zle_inject. rewrite <- K. change (inject_Z 0) with 0. lra.
    - assert (G : (s < 60)%Z); [|lia].
      apply Zlt_inject. rewrite <- K. change (inject_Z 60) with 60. lra. }
  exists h, m, s.
  split; [|split; [exact Hh|split; [exact Hm|split; [exact Hs|split; [unfold s; lia|]]]]].
  - unfold formatHMS, hmsFields. rewrite hms_rounded. fold n.
    rewrite (remainder_nonneg (inject_Z n) 3600), (remainder_nonneg (inject_Z n) 60)
      by lra.
    rewrite !div_Fin by lra. cbn [Num.floor]. fold h. fold m. fold r.
    unfold clockText, wholeClock. now rewrite (pad2_whole_value r s K).
  - split; [|split; reflexivity].
    unfold parseTimeToSecondsCli.
    cbn [forallb Num.isFinite andb negb orb Num.ltb].
    assert (Nh : Num.Qltb (inject_Z h) 0 = false).
    { apply Qltb_false. change 0 with (inject_Z 0). rewrite <- Zle_Qle. lia. }
    assert (Nm : Num.Qltb (inject_Z m) 0 = false).
    { apply Qltb_false. change 0 with (inject_Z 0). rewrite <- Zle_Qle. lia. }
    assert (Ns : Num.Qltb (inject_Z s) 0 = false).
    { apply Qltb_false. change 0 with (inject_Z 0). rewrite <- Zle_Qle. lia. }
    rewrite Nh, Nm, Ns. cbn [orb Num.mul Num.add Num.round].
    eexists. split; [reflexivity|].
    assert (T : inject_Z h * 3600 + inject_Z m * 60 + inject_Z s + (1 # 2)
                == inject_Z n + (1 # 2)).
    { unfold s. unfold Zminus.
      rewrite !inject_Z_plus, inject_Z_opp, !inject_Z_plus, !inject_Z_mult.
      change (inject_Z 3600) with 3600. change (inject_Z 60) with 60. lra. }
    rewrite T.
    assert (F : Qfloor (inject_Z n + (1 # 2)) = n) by (apply Qfloor_unique; lra).
    now rewrite F.
Qed.

(** *** Paces *)

Lemma pace_fields (x : Q) : 0 < x ->
  let m := Qfloor x in
  let sec := Qfloor ((x - inject_Z m) * 60 + (1 # 2)) in
  (0 <= m)%Z /\ (0 <= sec <= 60)%Z
  /\ - (1 # 2) <= inject_Z (60 * m + sec) - 60 * x <= 1 # 2.
Proof.
  intros Hx m sec.
  pose proof (Qfloor_le x) as A. pose proof (Qlt_floor x) as B. fold m in A, B.
  rewrite inject_Z_plus in B. change (inject_Z 1) with 1 in B.
  assert (Hm : (0 <= m)%Z).
  { assert (G : (-1 < m)%Z); [|lia].
    apply Zlt_inject. change (inject_Z (-1)) with (-1). lra. }
  assert (Hr : 0 <= (x - inject_Z m) * 60 < 60) by (split; lra).
  destruct (rounded_remainder _ Hr) as [Hs [Acc _]]. fold sec in Hs, Acc.
  split; [exact Hm|]. split; [exact Hs|].
  rewrite inject_Z_plus, inject_Z_mult. change (inject_Z 60) with 60.
  split; lra.
Qed.

Lemma formatPace_positive (x : Q) : 0 < x ->
  exists m s : Z,
    formatPaceFromMinutes (Fin x) = paceText m s
    /\ (0 <= m)%Z /\ (0 <= s <= 59)%Z
    /\ - (1 # 2) <= inject_Z (60 * m + s) - 60 * x <= 1 # 2.
Proof.
  intro Hx. destruct (pace_fields x Hx) as [Hm [Hs Acc]].
  set (m := Qfloor x) in *.
  set (sec := Qfloor ((x - inject_Z m) * 60 + (1 # 2))) in *.
  unfold formatPaceFromMinutes. cbn [Num.isFinite negb orb Num.leb].
  assert (P : Qle_bool x 0 = false) by (apply Qle_bool_false; lra). rewrite P.
  cbn [Num.floor Num.sub Num.opp Num.add Num.mul Num.round Num.eqb]. fold m.
  change (Qfloor ((x + - inject_Z m) * 60 + (1 # 2))) with sec.
  destruct (Qeq_bool (inject_Z sec) 60) eqn:C.
  - apply Qeq_bool_eq in C. change 60 with (inject_Z 60) in C.
    rewrite inject_Z_injective in C.
    exists (m + 1)%Z, 0%Z. split; [|split; [lia|split; [lia|]]].
    + unfold paceText. f_equal. apply pad2_whole_value.
      rewrite inject_Z_plus. reflexivity.
    + rewrite C in Acc.
      replace (60 * (m + 1) + 0)%Z with (60 * m + 60)%Z by lia. exact Acc.
  - apply Qeq_bool_false in C.
    exists m, sec. split; [reflexivity|]. split; [exact Hm|]. split; [|exact Acc].
    assert (sec <> 60%Z).
    { intro E. apply C. now rewrite E. }
    lia.
Qed.

(** X16. A pace is printed as minutes and seconds with seconds from 0 to
    59: a rounding up to 60 seconds is carried into the minute. The text of
    speedToPace is within half a second of the pace 3600 / speed in seconds
    per kilometre, formatPaceMinKm of the command line script prints the same
    text, and formatPaceFromMinutes is within half a second of its argument.
    A speed or a pace that is not finite or not positive gives "N/A", and
    null in the command line script. *)
Theorem pace_text (x : num) :
  (forall v : Q, x = Fin v -> 0 < v ->
     (exists m s : Z,
        speedToPace x = paceText m s
        /\ formatPaceMinKm x = Some (paceText m s)
        /\ (0 <= m)%Z /\ (0 <= s <= 59)%Z
        /\ - (1 # 2) <= inject_Z (60 * m + s) - 3600 / v <= 1 # 2)
     /\ (exists m s : Z,
           formatPaceFromMinutes x = paceText m s
           /\ (0 <= m)%Z /\ (0 <= s <= 59)%Z
           /\ - (1 # 2) <= inject_Z (60 * m + s) - 60 * v <= 1 # 2))
  /\ ((Num.isFinite x = false \/ (x <=? Fin 0)%num = true) ->
      speedToPace x = "N/A"%string
      /\ formatPaceMinKm x = None
      /\ formatPaceFromMinutes x = "N/A"%string).
Proof.
  split.
  - intros v -> Hv. split; [|now apply formatPace_positive].
    assert (Hp : 0 < 60 / v) by (apply Qdiv_pos; lra).
    destruct (formatPace_positive (60 / v) Hp) as [m [s [E [Hm [Hs Acc]]]]].
    exists m, s.
    assert (P : Qle_bool v 0 = false) by (apply Qle_bool_false; lra).
    assert (S : speedToPace (Fin v) = paceText m s).
    { unfold speedToPace. cbn [Num.isFinite negb orb Num.leb]. rewrite P.
      rewrite div_Fin by lra. exact E. }
    split; [exact S|]. split.
    + rewrite <- S. unfold formatPaceMinKm, speedToPace, formatPaceFromMinutes.
      cbn [Num.isFinite negb orb Num.leb]. rewrite P.
      rewrite div_Fin by lra. cbn [Num.isFinite negb orb Num.leb].
      assert (P' : Qle_bool (60 / v) 0 = false) by (apply Qle_bool_false; lra).
      rewrite P'.
      destruct (_ =? Fin 60)%num; reflexivity.
    + split; [exact Hm|]. split; [exact Hs|].
      assert (A : 60 * (60 / v) == 3600 / v) by (field; lra).
      rewrite <- A. exact Acc.
  - intros [H|H].
    + unfold speedToPace, formatPaceMinKm, formatPaceFromMinutes. now rewrite H.
    + unfold speedToPace, formatPaceMinKm, formatPaceFromMinutes. rewrite H.
      now rewrite !orb_true_r.
Qed.

Example pace_texts :
  speedToPace (Fin 10) = "06:00"%string
  /\ formatPaceFromMinutes (Fin 5.999) = "06:00"%string
  /\ formatPaceFromMinutes (Fin 5.5) = "05:30"%string
  /\ formatPaceMinKm (Fin 12.5) = Some "04:48"%string
  /\ speedToPace (Fin 0) = "N/A"%string
  /\ formatHMS (Fin 59.5) = "00:01:00"%string
  /\ formatHMS (Fin (-3)) = "00:00:00"%string.
Proof. repeat split. Qed.

(** ** Stages *)

(** *** Sorting the boundaries *)

Lemma nondecreasing_cons (x : Q) (l : list Q) :
  nondecreasing (x :: l) <-> (Forall (fun y => x <= y) l /\ nondecreasing l).
Proof.
  revert x. induction l as [|y l IH]; intro x.
  - simpl. split; [intros _; split; [constructor|exact I]|auto].
  - change (nondecreasing (x :: y :: l)) with (x <= y /\ nondecreasing (y :: l)).
    split.
    + intros [Hxy Hs]. split; [|exact Hs]. constructor; [exact Hxy|].
      apply IH in Hs. destruct Hs as [F _].
      eapply Forall_impl; [|exact F]. cbv beta. intros z Hz. lra.
    + intros [F Hs]. inversion F; subst. split; assumption.
Qed.

Lemma insertNum_sorted (x : Q) (ys : list Q) :
  nondecreasing ys ->
  exists zs,
    insertNum (Fin x) (map Fin ys) = map Fin zs
    /\ nondecreasing zs
    /\ length zs = S (length ys)
    /\ (forall q, In q zs <-> In q (x :: ys))
    /\ (Forall (fun y => x <= y) ys -> zs = x :: ys).
Proof.
  induction ys as [|y ys IH]; intro S.
  - exists [x]. repeat split; simpl; tauto.
  - cbn [map insertNum Num.sub Num.opp Num.add Num.gtb Num.ltb].
    apply nondecreasing_cons in S. destruct S as [F S].
    destruct (Num.Qltb 0 (x + - y)) eqn:C.
    + apply Qltb_true in C. destruct (IH S) as [zs [E [Sz [L [M _]]]]].
      exists (y :: zs). rewrite E. split; [reflexivity|]. split; [|split; [|split]].
      * apply nondecreasing_cons. split; [|exact Sz].
        apply Forall_forall. intros q Hq. apply M in Hq. destruct Hq as [<-|Hq]; [lra|].
        rewrite Forall_forall in F. now apply F.
      * simpl. now rewrite L.
      * intro q. simpl. rewrite M. simpl. tauto.
      * intro G. inversion G; subst. lra.
    + apply Qltb_false in C. exists (x :: y :: ys).
      split; [reflexivity|]. split; [|split; [reflexivity|split; [simpl; tauto|auto]]].
      apply nondecreasing_cons. split.
      * constructor; [lra|]. eapply Forall_impl; [|exact F]. cbv beta. intros; lra.
      * apply nondecreasing_cons. now split.
Qed.

Lemma sortNum_sorted (qs : list Q) :
  exists zs,
    sortNum (map Fin qs) = map Fin zs
    /\ nondecreasing zs
    /\ length zs = length qs
    /\ (forall q, In q zs <-> In q qs).
Proof.
  induction qs as [|x qs [zs [E [S [L M]]]]].
  - exists []. repeat split; simpl; tauto.
  - unfold sortNum in *. cbn [map fold_right]. rewrite E.
    destruct (insertNum_sorted x zs S) as [zs' [E' [S' [L' [M' _]]]]].
    exists zs'. rewrite E'. repeat split; try assumption.
    + simpl. now rewrite L', L.
    + intro H. apply M' in H. simpl in *. rewrite <- M. tauto.
    + intro H. apply M'. simpl in *. rewrite M. tauto.
Qed.

(** The first boundary is 0 when no other boundary is negative. *)
Lemma sortNum_zero_first (qs : list Q) :
  Forall (fun q => 0 <= q) qs ->
  exists zs, sortNum (map Fin (0 :: qs)) = map Fin (0 :: zs)
             /\ nondecreasing (0 :: zs) /\ length zs = length qs
             /\ (forall q, In q zs <-> In q qs).
Proof.
  intro F. destruct (sortNum_sorted qs) as [zs [E [S [L M]]]].
  unfold sortNum in *. cbn [map fold_right]. rewrite E.
  destruct (insertNum_sorted 0 zs S) as [zs' [E' [S' [_ [_ H]]]]].
  assert (G : Forall (fun y => 0 <= y) zs).
  { apply Forall_forall. intros q Hq. apply M in Hq.
    rewrite Forall_forall in F. now apply F. }
  specialize (H G). subst zs'. exists zs. now rewrite E'.
Qed.

(** *** Dropping boundaries that are too close *)

Lemma abs_gap (l b : Q) : l <= b ->
  (Num.abs (Fin l - Fin b) >? Fin 0.001)%num = Num.Qltb 0.001 (b - l).
Proof.
  intro H. cbn [Num.sub Num.opp Num.add Num.abs Num.gtb Num.ltb].
  assert (E : Qabs (l + - b) == b - l).
  { rewrite Qabs_of_neg by lra. ring. }
  unfold Num.Qltb. f_equal.
  destruct (Qle_bool (Qabs (l + - b)) 0.001) eqn:A;
    destruct (Qle_bool (b - l) 0.001) eqn:B; try reflexivity; qfacts; lra.
Qed.

Lemma uniqueLoop_spaced (qs : list Q) : forall last : Q,
  nondecreasing (last :: qs) ->
  exists rs,
    uniqueLoop (Some (Fin last)) (map Fin qs) = map Fin rs
    /\ spaced 0.001 (last :: rs)
    /\ (length rs <= length qs)%nat
    /\ (forall q, In q rs -> In q qs).
Proof.
  induction qs as [|b qs IH]; intros last S.
  - exists []. repeat split; simpl; auto.
  - change (nondecreasing (last :: b :: qs)) with (last <= b /\ nondecreasing (b :: qs))
      in S.
    destruct S as [Hb S]. cbn [map uniqueLoop]. rewrite (abs_gap last b Hb).
    destruct (Num.Qltb 0.001 (b - last)) eqn:G.
    + apply Qltb_true in G. destruct (IH b S) as [rs [E [Sp [L M]]]].
      exists (b :: rs). rewrite E. split; [reflexivity|]. split; [|split].
      * split; assumption.
      * simpl. lia.
      * intros q [<-|Hq]; [now left|right; now apply M].
    + assert (S' : nondecreasing (last :: qs)).
      { apply nondecreasing_cons. apply nondecreasing_cons in S. destruct S as [F S].
        split; [|exact S]. eapply Forall_impl; [|exact F]. cbv beta. intros; lra. }
      destruct (IH last S') as [rs [E [Sp [L M]]]].
      exists rs. rewrite E. split; [reflexivity|]. split; [exact Sp|]. split.
      * simpl. lia.
      * intros q Hq. right. now apply M.
Qed.

Lemma uniqueBoundaries_spaced (kms : list Q) (total : Q) :
  Forall (fun k => 0 <= k) kms -> 0 <= total ->
  exists rs,
    uniqueLoop None (sortNum (map Fin (0 :: kms ++ [total]))) = map Fin (0 :: rs)
    /\ spaced 0.001 (0 :: rs)
    /\ (length rs <= S (length kms))%nat
    /\ (forall q, In q rs -> In q kms \/ q = total).
Proof.
  intros F Ht.
  destruct (sortNum_zero_first (kms ++ [total])) as [zs [E [S [L M]]]].
  { apply Forall_app. split; [exact F|]. now constructor. }
  rewrite E. cbn [map uniqueLoop].
  destruct (uniqueLoop_spaced zs 0 S) as [rs [E' [Sp [L' M']]]].
  exists rs. rewrite E'. split; [reflexivity|]. split; [exact Sp|]. split.
  - rewrite L, length_app in L'. simpl in L'. lia.
  - intros q Hq. apply M', M, in_app_iff in Hq. destruct Hq as [Hq|[<-|[]]]; auto.
Qed.

Lemma removelast_map {A B} (f : A -> B) (l : list A) :
  removelast (map f l) = map f (removelast l).
Proof.
  induction l as [|x [|y l] IH]; try reflexivity.
  change (removelast (map f (x :: y :: l))) with (f x :: removelast (map f (y :: l))).
  now rewrite IH.
Qed.

(** X17. With checkpoints at kilometres that are not negative and a total
    distance that is not negative, the stages are numbered from 1, the first
    starts at 0, each starts where the previous one ends, each is more than
    0.001 km long, each ends at a checkpoint or at the total distance, and
    there is at most one stage more than there are checkpoints. *)
Theorem stages_between_boundaries (rawPoints : list Point) (cumRaw : list num)
    (ds : list DetailedSegment) (checkpoints : list (num * num))
    (kms : list Q) (total : Q) :
  map fst checkpoints = map Fin kms ->
  Forall (fun k => 0 <= k) kms ->
  0 <= total ->
  let sts :=
    buildSteps rawPoints cumRaw ds checkpoints
      (uniqueBoundariesOf checkpoints (Fin total)) in
  exists ends,
    map st_index sts = seq 1 (length ends)
    /\ map st_fromKm sts = map Fin (removelast (0 :: ends))
    /\ map st_toKm sts = map Fin ends
    /\ spaced 0.001 (0 :: ends)
    /\ (length sts <= S (length checkpoints))%nat
    /\ (forall b, In b ends -> In b kms \/ b = total).
Proof.
  intros K F Ht sts.
  destruct (uniqueBoundaries_spaced kms total F Ht) as [rs [E [Sp [L M]]]].
  unfold sts, uniqueBoundariesOf. rewrite K.
  replace (Fin 0 :: map Fin kms ++ [Fin total]) with (map Fin (0 :: kms ++ [total]))
    by (cbn [map]; now rewrite map_app).
  rewrite E. cbn [map buildSteps].
  destruct (stepsFrom_shape rawPoints cumRaw ds checkpoints (map Fin rs) O (Fin 0))
    as [A [B C]].
  cbv zeta in A, B, C.
  exists rs. rewrite A, B, C, length_map.
  split; [reflexivity|]. split.
  { change (Fin 0 :: map Fin rs) with (map Fin (0 :: rs)). apply removelast_map. }
  split; [reflexivity|]. split; [exact Sp|]. split; [|exact M].
  assert (Ls : length (map st_toKm
                 (stepsFrom rawPoints cumRaw ds checkpoints 0 (Fin 0) (map Fin rs)))
               = length rs) by now rewrite C, length_map.
  rewrite length_map in Ls. rewrite Ls.
  assert (Lk : length kms = length checkpoints).
  { rewrite <- (length_map Fin kms), <- K. apply length_map. }
  lia.
Qed.

Lemma stages_between_boundaries_witness :
  map fst [(Fin 1.2, Fin 5)] = map Fin [1.2]
  /\ Forall (fun k => 0 <= k) [1.2]
  /\ 0 <= 2
  /\ exists ends,
       map st_index
         (buildSteps Demo.rawPoints Demo.cumulativeDistances Demo.fiveDetailed
            [(Fin 1.2, Fin 5)] (uniqueBoundariesOf [(Fin 1.2, Fin 5)] (Fin 2)))
       = seq 1 (length ends)
       /\ spaced 0.001 (0 :: ends).
Proof.
  assert (K : map fst [(Fin 1.2, Fin 5)] = map Fin [1.2]) by reflexivity.
  assert (F : Forall (fun k => 0 <= k) [1.2]) by (repeat constructor; discriminate).
  assert (T : 0 <= 2) by discriminate.
  split; [exact K|]. split; [exact F|]. split; [exact T|].
  destruct (stages_between_boundaries Demo.rawPoints Demo.cumulativeDistances
              Demo.fiveDetailed [(Fin 1.2, Fin 5)] [1.2] 2 K F T)
    as [ends [A [_ [_ [S _]]]]].
  exists ends. split; [exact A|exact S].
Defined.

(** *** Which stage a stop is counted in *)

Lemma sorted_three (c total : Q) : 0 < c -> c < total ->
  sortNum [Fin 0; Fin c; Fin total] = [Fin 0; Fin c; Fin total].
Proof.
  intros Hc Ht. unfold sortNum.
  cbn [fold_right insertNum Num.sub Num.opp Num.add Num.gtb Num.ltb].
  assert (A : Num.Qltb 0 (c + - total) = false) by (apply Qltb_false; lra).
  rewrite A. cbn [insertNum Num.sub Num.opp Num.add Num.gtb Num.ltb].
  assert (B : Num.Qltb 0 (0 + - c) = false) by (apply Qltb_false; lra).
  now rewrite B.
Qed.

(** X18. The stop of a stage is looked up by distance: with one checkpoint
    that lies more than 0.001 km and less than 0.1 km before the finish,
    there are two stages, and the stop of the checkpoint is counted in both
    of them, while the total stop time counts it once. *)
Theorem stop_counted_twice_near_finish (rawPoints : list Point) (cumRaw : list num)
    (ds : list DetailedSegment) (c total stopMinutes : Q) :
  0.001 < c -> 0.001 < total - c -> total - c < 0.1 ->
  let checkpoints := [(Fin c, Fin stopMinutes)] in
  let stop := (Num.orZero (Fin stopMinutes) * Fin 60)%num in
  map (fun st => (st_index st, st_fromKm st, st_toKm st, st_stopSec st))
    (buildSteps rawPoints cumRaw ds checkpoints
       (uniqueBoundariesOf checkpoints (Fin total)))
  = [ (1%nat, Fin 0, Fin c, stop); (2%nat, Fin c, Fin total, stop) ]
  /\ totalStopSecOf checkpoints (Fin 0, Fin 0) = (Fin 0 + stop + Fin 0)%num.
Proof.
  intros Hc Hg Hn checkpoints stop.
  split; [|reflexivity].
  unfold uniqueBoundariesOf, checkpoints. cbn [map fst app].
  rewrite sorted_three by lra.
  cbn [uniqueLoop]. rewrite (abs_gap 0 c) by lra.
  assert (G1 : Num.Qltb 0.001 (c - 0) = true) by (apply Qltb_true; lra). rewrite G1.
  rewrite (abs_gap c total) by lra.
  assert (G2 : Num.Qltb 0.001 (total - c) = true) by (apply Qltb_true; lra). rewrite G2.
  cbn [buildSteps stepsFrom map]. unfold makeStep.
  destruct (gainLoss _) as [p1 m1]. destruct (gainLoss _) as [p2 m2].
  cbn [st_index st_fromKm st_toKm st_stopSec find fst snd].
  assert (N1 : (Num.abs (Fin c - Fin c) <? Fin 0.1)%num = true).
  { cbn [Num.sub Num.opp Num.add Num.abs Num.ltb]. apply Qltb_true.
    assert (E : c + - c == 0) by ring. rewrite E. reflexivity. }
  assert (N2 : (Num.abs (Fin c - Fin total) <? Fin 0.1)%num = true).
  { cbn [Num.sub Num.opp Num.add Num.abs Num.ltb]. apply Qltb_true.
    rewrite Qabs_of_neg by lra. lra. }
  rewrite N1, N2. reflexivity.
Qed.

Lemma stop_counted_twice_near_finish_witness :
  0.001 < 9.95 /\ 0.001 < 10 - 9.95 /\ 10 - 9.95 < 0.1
  /\ map st_stopSec
       (buildSteps Demo.rawPoints Demo.cumulativeDistances Demo.fiveDetailed
          [(Fin 9.95, Fin 5)] (uniqueBoundariesOf [(Fin 9.95, Fin 5)] (Fin 10)))
     = [(Num.orZero (Fin 5) * Fin 60)%num; (Num.orZero (Fin 5) * Fin 60)%num].
Proof.
  assert (A : 0.001 < 9.95) by reflexivity.
  assert (B : 0.001 < 10 - 9.95) by reflexivity.
  assert (C : 10 - 9.95 < 0.1) by reflexivity.
  split; [exact A|]. split; [exact B|]. split; [exact C|].
  pose proof (proj1 (stop_counted_twice_near_finish Demo.rawPoints
                       Demo.cumulativeDistances Demo.fiveDetailed 9.95 10 5 A B C))
    as H.
  apply (f_equal (map (fun x : nat * num * num * num => snd x))) in H.
  rewrite map_map in H. exact H.
Defined.

(** ** The kilometre table adds up *)

Lemma wholeFinite_value (x : num) : wholeFinite x -> x = Fin (inject_Z (wholeValue x)).
Proof.
  intros [z ->]. cbn [wholeValue]. now rewrite Qfloor_Z.
Qed.

Lemma wholeFinite_add (x y : num) :
  wholeFinite x -> wholeFinite y ->
  wholeFinite (x + y)%num /\ wholeValue (x + y)%num = (wholeValue x + wholeValue y)%Z.
Proof.
  intros [a ->] [b ->]. cbn [Num.add wholeValue]. split.
  - exists (a + b)%Z. f_equal. unfold inject_Z, Qplus. cbn [Qnum Qden].
    f_equal. lia.
  - rewrite <- inject_Z_plus, !Qfloor_Z. reflexivity.
Qed.

Lemma fold_add_wholeFinite (l : list num) : forall acc,
  wholeFinite acc -> Forall wholeFinite l ->
  wholeFinite (fold_left Num.add l acc)
  /\ wholeValue (fold_left Num.add l acc)
     = (wholeValue acc + sumZ (map wholeValue l))%Z.
Proof.
  induction l as [|x l IH]; intros acc A F.
  - cbn. split; [exact A|lia].
  - inversion F as [|? ? Hx Hl]; subst.
    destruct (wholeFinite_add acc x A Hx) as [W V].
    destruct (IH (acc + x)%num W Hl) as [W' V'].
    cbn [fold_left map sumZ fold_right]. split; [exact W'|].
    rewrite V', V. unfold sumZ. lia.
Qed.

Lemma sumNum_wholeFinite (l : list num) :
  Forall wholeFinite l ->
  sumNum l = Fin (inject_Z (sumZ (map wholeValue l))).
Proof.
  intro F. destruct (fold_add_wholeFinite l (Fin 0) (ex_intro _ 0%Z eq_refl) F)
    as [W V].
  unfold sumNum. rewrite (wholeFinite_value _ W), V. reflexivity.
Qed.

Lemma upsert_times (key : num) (d : DetailedSegment) (obj : list (num * KmGroup)) :
  wholeFinite (timeSec d) -> Forall wholeFinite (groupTimes obj) ->
  Forall wholeFinite (groupTimes (upsert key d obj))
  /\ sumZ (map wholeValue (groupTimes (upsert key d obj)))
     = (sumZ (map wholeValue (groupTimes obj)) + wholeValue (timeSec d))%Z.
Proof.
  intros Hd. induction obj as [|[k g] rest IH]; intro F.
  - cbn [upsert groupTimes map snd addToKmGroup newKmGroup g_totalTimeSec].
    destruct (wholeFinite_add (Fin 0) (timeSec d) (ex_intro _ 0%Z eq_refl) Hd)
      as [W V].
    split; [now constructor|]. cbn [sumZ fold_right]. rewrite V. cbn. lia.
  - cbn [upsert]. unfold groupTimes in *. cbn [map snd] in F.
    inversion F as [|? ? Hg Hrest]; subst.
    destruct (sameKey k key).
    + cbn [map snd addToKmGroup g_totalTimeSec].
      destruct (wholeFinite_add (g_totalTimeSec g) (timeSec d) Hg Hd) as [W V].
      split; [now constructor|]. cbn [sumZ fold_right]. rewrite V. unfold sumZ. lia.
    + destruct (IH Hrest) as [W V]. cbn [map snd].
      split; [now constructor|]. cbn [sumZ fold_right] in *. unfold sumZ in *. lia.
Qed.

Lemma groupPerKm_times (ds : list DetailedSegment) :
  Forall wholeFinite (map timeSec ds) ->
  forall obj, Forall wholeFinite (groupTimes obj) ->
    Forall wholeFinite
      (groupTimes (fold_left (fun perKm d => upsert (kmIndexOf d) d perKm) ds obj))
    /\ sumZ (map wholeValue
               (groupTimes (fold_left (fun perKm d => upsert (kmIndexOf d) d perKm)
                              ds obj)))
       = (sumZ (map wholeValue (groupTimes obj))
          + sumZ (map wholeValue (map timeSec ds)))%Z.
Proof.
  induction ds as [|d ds IH]; intros F obj O.
  - cbn [fold_left map sumZ fold_right]. split; [exact O|lia].
  - cbn [map] in F. inversion F as [|? ? Hd Hds]; subst.
    destruct (upsert_times (kmIndexOf d) d obj Hd O) as [W V].
    destruct (IH Hds _ W) as [W' V'].
    cbn [fold_left map sumZ fold_right]. split; [exact W'|].
    rewrite V', V. unfold sumZ. lia.
Qed.

(** Object.values lists every group once, whatever the order. *)
Lemma insertByKey_sum {A} (f : A -> Z) (e : num * A) (l : list (num * A)) :
  sumZ (map (fun x => f (snd x)) (insertByKey e l))
  = (f (snd e) + sumZ (map (fun x => f (snd x)) l))%Z.
Proof.
  induction l as [|x l IH]; [reflexivity|].
  cbn [insertByKey]. destruct (fst e <? fst x)%num; [reflexivity|].
  cbn [map sumZ fold_right] in *. unfold sumZ in *. lia.
Qed.

Lemma objectValues_sum {A} (f : A -> Z) (obj : list (num * A)) :
  sumZ (map f (objectValues obj)) = sumZ (map (fun x => f (snd x)) obj).
Proof.
  unfold objectValues. rewrite map_map, map_app.
  assert (App : forall a b : list Z, sumZ (a ++ b) = (sumZ a + sumZ b)%Z).
  { induction a as [|x a IH]; intro b; [reflexivity|].
    cbn [app sumZ fold_right] in *. unfold sumZ in *. rewrite IH. lia. }
  rewrite App.
  assert (Sorted : forall l : list (num * A),
            sumZ (map (fun x => f (snd x)) (fold_right insertByKey [] l))
            = sumZ (map (fun x => f (snd x)) l)).
  { induction l as [|x l IH]; [reflexivity|].
    cbn [fold_right]. rewrite insertByKey_sum, IH. reflexivity. }
  rewrite Sorted. clear Sorted.
  induction obj as [|x obj IH]; [reflexivity|].
  cbn [filter]. destruct (isArrayIndex (fst x)); cbn [negb map sumZ fold_right] in *;
    unfold sumZ in *; lia.
Qed.

Lemma objectValues_Forall {A} (P : A -> Prop) (obj : list (num * A)) :
  Forall (fun e => P (snd e)) obj -> Forall P (objectValues obj).
Proof.
  intro F. apply Forall_forall. intros a Ha.
  destruct (objectValues_In obj a Ha) as [k Hk].
  rewrite Forall_forall in F. exact (F (k, a) Hk).
Qed.

Lemma wholeFinite_round (x : num) : wholeFinite x -> Num.round x = x.
Proof.
  intros [z ->]. cbn [Num.round]. f_equal. f_equal.
  apply Qfloor_unique; lra.
Qed.

(** The times of the kilometre table add up to the sum of the segment
    times. *)
Lemma perKm_times_add_up (ds : list DetailedSegment) :
  Forall wholeFinite (map timeSec ds) ->
  sumNum (map k_timeSec (perKmArrayOf ds)) = sumNum (map timeSec ds).
Proof.
  intro F.
  destruct (groupPerKm_times ds F [] (Forall_nil _)) as [W V].
  fold (groupPerKm ds) in W, V. cbn [groupTimes map sumZ fold_right] in V.
  assert (G : Forall (fun g => wholeFinite (g_totalTimeSec g))
                (objectValues (groupPerKm ds))).
  { apply objectValues_Forall. unfold groupTimes in W.
    rewrite Forall_map in W. exact W. }
  assert (K : map k_timeSec (perKmArrayOf ds)
              = map g_totalTimeSec (objectValues (groupPerKm ds))).
  { unfold perKmArrayOf. rewrite map_map. apply map_ext_in.
    intros g Hg. rewrite Forall_forall in G. cbn [summarizeKm k_timeSec].
    now apply wholeFinite_round, G. }
  rewrite K.
  rewrite sumNum_wholeFinite by now apply Forall_map.
  rewrite sumNum_wholeFinite by exact F.
  do 2 f_equal. rewrite map_map.
  rewrite (objectValues_sum (fun g => wholeValue (g_totalTimeSec g))).
  unfold groupTimes in V. rewrite map_map in V. rewrite V. lia.
Qed.

Section KilometreTable.

Variable haversineDistance : num * num -> num * num -> num.

Hypothesis haversine_finite :
  forall la1 lo1 la2 lo2 : Q,
    exists q, haversineDistance (Fin la1, Fin lo1) (Fin la2, Fin lo2) = Fin q.

(** The parts of a result, and the segment times as whole numbers. *)
Lemma result_parts (fuel : nat) (found : list (num * num * option num))
    (targetTime : list num) (profile : string) (caution : Q)
    (checkpoints : list (num * num)) (restPeriods : num * num) (step : Q)
    (smoothingWindow : nat) (r : PacingResult) :
  0 <= caution <= 1 -> 0 < step ->
  calculatePacing haversineDistance fuel found targetTime profile (Fin caution)
    checkpoints restPeriods (Fin step) smoothingWindow = Ok r ->
  Forall wholeFinite (map timeSec (per250m r))
  /\ perKm r = perKmArrayOf (per250m r)
  /\ computedMoving (totals r) = sumNum (map timeSec (per250m r))
  /\ Forall (fun d => wellFormedSegment (seg d)) (per250m r).
Proof.
  intros Hc Hs H.
  destruct (calculatePacing_Ok_steps _ _ _ _ _ _ _ _ _ _ _ H)
    as [rawPoints [resampled [t [P [R [_ [_ ->]]]]]]].
  pose proof (parsed_segments_wellFormed haversineDistance haversine_finite found
                rawPoints smoothingWindow fuel step resampled P Hs R) as W.
  unfold finishPacing. destruct (gainLoss (map ele rawPoints)) as [dp dm].
  cbn [per250m perKm totals computedMoving].
  destruct (findVflatDefault_bounds (createSegments resampled)
              (t - totalStopSecOf checkpoints restPeriods)%num profile (Fin caution))
    as [v [V Hv]].
  rewrite V. repeat split.
  - rewrite map_map. apply Forall_map. eapply Forall_impl; [|exact W]. cbv beta.
    intros s Ws.
    destruct (detailSegment_finite v profile caution s) as [_ [z [_ [_ [E _]]]]];
      try assumption; try lra.
    now exists z.
  - apply Forall_map. exact W.
Qed.

(** X19. With a caution in [0, 1] and a positive resampling step, the times
    of the kilometre table of every result add up to the computed moving
    time: every segment is counted in exactly one kilometre, whatever the
    order of the table. *)
Theorem perKm_times_sum_to_moving_time (fuel : nat)
    (found : list (num * num * option num)) (targetTime : list num)
    (profile : string) (caution : Q) (checkpoints : list (num * num))
    (restPeriods : num * num) (step : Q) (smoothingWindow : nat)
    (r : PacingResult) :
  0 <= caution <= 1 -> 0 < step ->
  calculatePacing haversineDistance fuel found targetTime profile (Fin caution)
    checkpoints restPeriods (Fin step) smoothingWindow = Ok r ->
  sumNum (map k_timeSec (perKm r)) = computedMoving (totals r).
Proof.
  intros Hc Hs H.
  destruct (result_parts _ _ _ _ _ _ _ _ _ _ Hc Hs H) as [F [K [M _]]].
  rewrite K, M. now apply perKm_times_add_up.
Qed.

End KilometreTable.

Lemma perKm_times_sum_to_moving_time_witness :
  0 <= 0.5 <= 1 /\ 0 < 250
  /\ Demo.run Demo.checkpoints = Ok Demo.pacing
  /\ sumNum (map k_timeSec (perKm Demo.pacing)) = computedMoving (totals Demo.pacing).
Proof.
  assert (C : 0 <= 0.5 <= 1) by (split; discriminate).
  assert (S : 0 < 250) by reflexivity.
  split; [exact C|]. split; [exact S|]. split; [exact demo_run|].
  exact (perKm_times_sum_to_moving_time Demo.distance demo_distance_finite 10
           Demo.found Demo.targetTime "trained" 0.5 Demo.checkpoints
           Demo.restPeriods 250 3 Demo.pacing C S demo_run).
Defined.

(** ** Gain, loss and the net climb *)




(** ** How many points the resampling gives *)

Lemma resampleLoop_shape (points : list SmoothedPoint) (cum : list num) :
  (2 <= length points)%nat -> length cum = length points ->
  forall targets j i, (1 <= j)%nat ->
    exists out, resampleLoop points cum j i targets = Ok out
                /\ map distanceM out = targets
                /\ map rindex out = seq i (length targets).
Proof.
  intros Hp Hc. induction targets as [|t targets IH]; intros j i Hj.
  - exists []. repeat split.
  - destruct (resampleOne_ok points cum j i t Hp Hc Hj) as [j' [r [E [Hj' [D I]]]]].
    destruct (IH j' (S i) Hj') as [out [E' [M X]]].
    exists (r :: out). cbn [resampleLoop]. rewrite E. cbn [bind]. rewrite E'.
    cbn [bind map length seq]. now rewrite D, M, I, X.
Qed.

Lemma segmentsFrom_tiling (rest : list Resampled) : forall i a,
  map index (segmentsFrom (S i) a rest) = seq i (length rest)
  /\ map fromM (segmentsFrom (S i) a rest)
     = removelast (distanceM a :: map distanceM rest)
  /\ map toM (segmentsFrom (S i) a rest) = map distanceM rest.
Proof.
  induction rest as [|b rest IH]; intros i a; [repeat split|].
  destruct (IH (S i) b) as [A [B C]].
  cbn [segmentsFrom map length seq makeSegment index fromM toM].
  rewrite A, C.
  change (removelast (distanceM a :: distanceM b :: map distanceM rest))
    with (distanceM a :: removelast (distanceM b :: map distanceM rest)).
  rewrite <- B. repeat split. f_equal. cbn. lia.
Qed.

Lemma arith_length (n : nat) : forall d step, length (arith d step n) = n.
Proof. induction n as [|n IH]; intros d step; simpl; [reflexivity|now rewrite IH]. Qed.

Lemma arithEnd_value (n : nat) : forall d step,
  arithEnd d step n == d + inject_Z (Z.of_nat n) * step.
Proof.
  induction n as [|n IH]; intros d step.
  - cbn [arithEnd Z.of_nat]. change (inject_Z 0) with 0. ring.
  - cbn [arithEnd]. rewrite IH, inject_nat_succ. ring.
Qed.

(** The last target below the total, when there is one. *)
Lemma arith_last_below (total step : Q) (n : nat) : forall d,
  Forall (fun x => x < total) (arith d step (S n)) ->
  d + inject_Z (Z.of_nat n) * step < total.
Proof.
  induction n as [|n IH]; intros d F.
  - inversion F; subst. cbn [Z.of_nat]. change (inject_Z 0) with 0. lra.
  - cbn [arith] in F. inversion F as [|? ? _ F']; subst.
    specialize (IH (d + step) F'). rewrite inject_nat_succ. lra.
Qed.

Lemma targets_count (total step : Q) (n : nat) :
  0 <= total -> 0 < step ->
  Forall (fun x => x < total) (arith 0 step n) ->
  total <= arithEnd 0 step n ->
  n = Z.to_nat (Qceiling (total / step)).
Proof.
  intros Ht Hs F E. rewrite arithEnd_value in E.
  assert (C : Qceiling (total / step) = Z.of_nat n); [|rewrite C; lia].
  unfold Qceiling.
  assert (G : Qfloor (- (total / step)) = (- Z.of_nat n)%Z); [|rewrite G; lia].
  apply Qfloor_unique; rewrite inject_Z_opp.
  - assert (total / step <= inject_Z (Z.of_nat n)); [|lra].
    apply Qle_shift_div_r; [assumption|]. lra.
  - destruct n as [|n].
    + cbn [Z.of_nat]. change (inject_Z 0) with 0.
      assert (0 <= total / step) by (apply Qdiv_nonneg; assumption). lra.
    + pose proof (arith_last_below total step n 0 F) as L.
      rewrite inject_nat_succ.
      assert (inject_Z (Z.of_nat n) < total / step); [|lra].
      apply Qlt_shift_div_l; [assumption|]. lra.
Qed.

(** X21. With at least two points, as many cumulative distances, a total
    distance that is not negative and a positive step, resamplePoints (given
    enough fuel for its target loop) returns one point per multiple of the
    step below the total and one at the total: ceil(total / step) + 1 points
    numbered from 0, at the distances 0, step, 2 step, ... and total. The
    segments built between them are ceil(total / step), numbered from 0, and
    tile the track: each starts at a resampled point and ends at the next. *)
Theorem resample_count_and_tiling (points : list SmoothedPoint) (cum : list Q)
    (step : Q) :
  (2 <= length points)%nat ->
  length cum = length points ->
  0 <= last cum 0 ->
  0 < step ->
  let total := last cum 0 in
  let n := Z.to_nat (Qceiling (total / step)) in
  exists fuel0, forall fuel, (fuel0 <= fuel)%nat ->
    exists out,
      resamplePoints fuel points (map Fin cum) (Fin step) = Ok out
      /\ map distanceM out = map Fin (arith 0 step n ++ [total])
      /\ map rindex out = seq 0 (S n)
      /\ length (createSegments out) = n
      /\ map index (createSegments out) = seq 0 n
      /\ map fromM (createSegments out) = removelast (map distanceM out)
      /\ map toM (createSegments out) = tl (map distanceM out).
Proof.
  intros Hp Hc Ht Hs total n.
  assert (Hne : cum <> []).
  { intro E. rewrite E in Hc. simpl in Hc. lia. }
  destruct (targetsLoop_terminates total step Hs) as [fuel0 T].
  exists fuel0. intros fuel Hf. destruct (T fuel Hf) as [k [E [F B]]].
  assert (K : k = n) by now apply targets_count.
  subst k.
  assert (Hm : length (map Fin cum) = length points) by now rewrite length_map.
  destruct (resampleLoop_shape points (map Fin cum) Hp Hm
              (map Fin (arith 0 step n) ++ [Fin total]) 1%nat O)
    as [out [R [M X]]]; [lia|].
  exists out. unfold resamplePoints. rewrite (total_of_cum cum Hne). fold total.
  rewrite E. cbn [bind]. split; [exact R|].
  assert (M' : map distanceM out = map Fin (arith 0 step n ++ [total])).
  { rewrite M, map_app. reflexivity. }
  split; [exact M'|]. split.
  { rewrite X, length_app, length_map, arith_length. cbn [length].
    now rewrite Nat.add_1_r. }
  destruct out as [|a rest].
  { destruct (arith 0 step n); discriminate M'. }
  cbn [createSegments].
  destruct (segmentsFrom_tiling rest O a) as [A [B' C]].
  assert (L : length rest = n).
  { apply (f_equal (@length num)) in M'.
    rewrite !length_map, length_app, arith_length in M'. cbn [length] in M'. lia. }
  rewrite <- (length_map index), A, B', C, length_seq, L.
  repeat split.
Qed.

Lemma resample_count_and_tiling_witness :
  (2 <= length Demo.points)%nat
  /\ length [0; 300; 600] = length Demo.points
  /\ 0 <= last [0; 300; 600] 0
  /\ 0 < 250
  /\ exists fuel0, forall fuel, (fuel0 <= fuel)%nat ->
       exists out,
         resamplePoints fuel Demo.points (map Fin [0; 300; 600]) (Fin 250) = Ok out
         /\ map distanceM out = map Fin [0; 0 + 250; 0 + 250 + 250; 600]
         /\ length (createSegments out) = 3%nat.
Proof.
  assert (A : (2 <= length Demo.points)%nat) by (vm_compute; lia).
  assert (B : length [0; 300; 600] = length Demo.points) by reflexivity.
  assert (C : 0 <= last [0; 300; 600] 0) by discriminate.
  assert (D : 0 < 250) by reflexivity.
  split; [exact A|]. split; [exact B|]. split; [exact C|]. split; [exact D|].
  destruct (resample_count_and_tiling Demo.points [0; 300; 600] 250 A B C D)
    as [fuel0 H].
  exists fuel0. intros fuel Hf. destruct (H fuel Hf) as [out [R [M [_ [L _]]]]].
  exists out. split; [exact R|]. split; [exact M|exact L].
Defined.

(** ** Reading the command line *)

Lemma round_respects (x y : Q) : x == y -> Num.round (Fin x) = Num.round (Fin y).
Proof. intro H. cbn [Num.round]. now rewrite H. Qed.

Lemma not_negative (x : num) :
  Num.isFinite x = true -> (x <? Fin 0)%num = false -> exists q, x = Fin q /\ 0 <= q.
Proof.
  destruct x as [q| | |]; try discriminate. intros _ H. cbn [Num.ltb] in H.
  apply Qltb_false in H. now exists q.
Qed.

(** X22. parseTimeToSeconds of the command line script, on the numbers
    that Number gives for the pieces of the text: it throws for the shape
    unless there are two or three pieces, then throws unless every piece is
    a finite number that is not negative, and otherwise returns a whole
    number of seconds that is not negative, within half a second of
    hours * 3600 + minutes * 60 + seconds (the seconds are 0 when there are
    two pieces). Whole hours, minutes and seconds are read exactly. *)
Theorem cli_time_validates (parts : list num) :
  match parseTimeToSecondsCli parts with
  | inr t =>
      exists h m s z,
        (parts = [Fin h; Fin m] /\ s = 0 \/ parts = [Fin h; Fin m; Fin s])
        /\ 0 <= h /\ 0 <= m /\ 0 <= s
        /\ t = Fin (inject_Z z) /\ (0 <= z)%Z
        /\ - (1 # 2) <= inject_Z z - (h * 3600 + m * 60 + s) <= 1 # 2
  | inl TimeShape => (length parts < 2)%nat \/ (3 < length parts)%nat
  | inl TimeInvalid =>
      (length parts = 2%nat \/ length parts = 3%nat)
      /\ Exists (fun p => Num.isFinite p = false \/ (p <? Fin 0)%num = true) parts
  | inl _ => False
  end
  /\ forall a b c : Z, (0 <= a)%Z -> (0 <= b)%Z -> (0 <= c)%Z ->
       parseTimeToSecondsCli [Fin (inject_Z a); Fin (inject_Z b); Fin (inject_Z c)]
       = inr (Fin (inject_Z (a * 3600 + b * 60 + c)))
       /\ parseTimeToSecondsCli [Fin (inject_Z a); Fin (inject_Z b)]
          = inr (Fin (inject_Z (a * 3600 + b * 60))).
Proof.
  split.
  - destruct parts as [|h [|m [|s [|x rest]]]].
    + left. cbn. lia.
    + left. cbn. lia.
    + (* two parts *)
      cbn [parseTimeToSecondsCli forallb].
      destruct (Num.isFinite h) eqn:Fh; destruct (Num.isFinite m) eqn:Fm;
        cbn [andb negb orb Num.isFinite];
        try (split; [now left|];
             first [ now (apply Exists_cons_hd; left)
                   | now (apply Exists_cons_tl, Exists_cons_hd; left) ]).
      destruct (h <? Fin 0)%num eqn:Nh; cbn [orb].
      { split; [now left|]. apply Exists_cons_hd. now right. }
      destruct (m <? Fin 0)%num eqn:Nm; cbn [orb].
      { split; [now left|]. apply Exists_cons_tl, Exists_cons_hd. now right. }
      cbn [Num.ltb]. assert (Z0 : Num.Qltb 0 0 = false) by reflexivity. rewrite Z0.
      destruct (not_negative h Fh Nh) as [hq [-> Hh]].
      destruct (not_negative m Fm Nm) as [mq [-> Hm]].
      cbn [Num.mul Num.add Num.round].
      set (x := hq * 3600 + mq * 60 + 0).
      pose proof (Qfloor_le (x + (1 # 2))) as A.
      pose proof (Qlt_floor (x + (1 # 2))) as B.
      rewrite inject_Z_plus in B. change (inject_Z 1) with 1 in B.
      assert (Hx : 0 <= x) by (unfold x; lra).
      exists hq, mq, 0, (Qfloor (x + (1 # 2))).
      split; [now left|]. split; [exact Hh|]. split; [exact Hm|]. split; [lra|].
      split; [reflexivity|]. split; [apply Qfloor_nonneg; lra|].
      fold x. set (zi := inject_Z (Qfloor (x + (1 # 2)))) in *. clearbody zi.
      split; lra.
    + (* three parts *)
      cbn [parseTimeToSecondsCli forallb].
      destruct (Num.isFinite h) eqn:Fh; destruct (Num.isFinite m) eqn:Fm;
        destruct (Num.isFinite s) eqn:Fs;
        cbn [andb negb orb];
        try (split; [now right|];
             first [ now (apply Exists_cons_hd; left)
                   | now (apply Exists_cons_tl, Exists_cons_hd; left)
                   | now (apply Exists_cons_tl, Exists_cons_tl, Exists_cons_hd; left) ]).
      destruct (h <? Fin 0)%num eqn:Nh; cbn [orb].
      { split; [now right|]. apply Exists_cons_hd. now right. }
      destruct (m <? Fin 0)%num eqn:Nm; cbn [orb].
      { split; [now right|]. apply Exists_cons_tl, Exists_cons_hd. now right. }
      destruct (s <? Fin 0)%num eqn:Ns.
      { split; [now right|].
        apply Exists_cons_tl, Exists_cons_tl, Exists_cons_hd. now right. }
      destruct (not_negative h Fh Nh) as [hq [-> Hh]].
      destruct (not_negative m Fm Nm) as [mq [-> Hm]].
      destruct (not_negative s Fs Ns) as [sq [-> Hq]].
      cbn [Num.mul Num.add Num.round].
      set (x := hq * 3600 + mq * 60 + sq).
      pose proof (Qfloor_le (x + (1 # 2))) as A.
      pose proof (Qlt_floor (x + (1 # 2))) as B.
      rewrite inject_Z_plus in B. change (inject_Z 1) with 1 in B.
      assert (Hx : 0 <= x) by (unfold x; lra).
      exists hq, mq, sq, (Qfloor (x + (1 # 2))).
      split; [now right|]. split; [exact Hh|]. split; [exact Hm|]. split; [exact Hq|].
      split; [reflexivity|]. split; [apply Qfloor_nonneg; lra|].
      fold x. set (zi := inject_Z (Qfloor (x + (1 # 2)))) in *. clearbody zi.
      split; lra.
    + right. cbn. lia.
  - intros a b c Ha Hb Hc.
    assert (N : forall z : Z, (0 <= z)%Z -> Num.Qltb (inject_Z z) 0 = false).
    { intros z Hz. apply Qltb_false. change 0 with (inject_Z 0).
      rewrite <- Zle_Qle. exact Hz. }
    assert (W : forall (x : Q) (n : Z),
              x == inject_Z n -> Num.round (Fin x) = Fin (inject_Z n)).
    { intros x n E. cbn [Num.round]. do 2 f_equal.
      apply Qfloor_unique; rewrite E; lra. }
    cbn [parseTimeToSecondsCli forallb Num.isFinite andb negb orb Num.ltb].
    rewrite (N a Ha), (N b Hb), (N c Hc).
    assert (Z0 : Num.Qltb 0 0 = false) by reflexivity. rewrite Z0.
    cbn [orb Num.mul Num.add]. split; f_equal; apply W.
    + rewrite !inject_Z_plus, !inject_Z_mult. reflexivity.
    + rewrite !inject_Z_plus, !inject_Z_mult. change (inject_Z 0) with 0.
      change (inject_Z 3600) with 3600. change (inject_Z 60) with 60. ring.
Qed.

Example times_on_the_command_line :
  parseTimeToSecondsCli [Fin 1.5; Fin 30] = inr (Fin 7200)
  /\ parseTimeToSecondsCli [Fin 1; Fin 0; Fin 30] = inr (Fin 3630)
  /\ parseTimeToSecondsCli [Fin 1; NaN] = inl TimeInvalid
  /\ parseTimeToSecondsCli [Fin 1; Fin (-5)] = inl TimeInvalid
  /\ parseTimeToSecondsCli [Fin 90] = inl TimeShape.
Proof. repeat split. Qed.

(** X23. parseCheckpoint, on the numbers that Number gives for the pieces
    of the argument, tests in this order: it throws for the shape unless
    there are two pieces, then for the kilometre unless it is a finite
    number above 0, then for the stop unless it is a finite number that is
    not negative. Otherwise it returns the kilometre unchanged and the stop
    as a whole number of seconds that is not negative, within half a second
    of 60 times the minutes. *)
Theorem parseCheckpoint_validates (parts : list num) :
  match parseCheckpoint parts with
  | inr (km, stopSec) =>
      exists k s z,
        parts = [Fin k; Fin s] /\ km = Fin k /\ 0 < k /\ 0 <= s
        /\ stopSec = Fin (inject_Z z) /\ (0 <= z)%Z
        /\ - (1 # 2) <= inject_Z z - 60 * s <= 1 # 2
  | inl CheckpointShape => length parts <> 2%nat
  | inl CheckpointKm =>
      exists km stopMin,
        parts = [km; stopMin] /\ (Num.isFinite km = false \/ (km <=? Fin 0)%num = true)
  | inl CheckpointStop =>
      exists k stopMin,
        parts = [Fin k; stopMin] /\ 0 < k
        /\ (Num.isFinite stopMin = false \/ (stopMin <? Fin 0)%num = true)
  | inl _ => False
  end.
Proof.
  destruct parts as [|km [|stopMin [|x rest]]]; try (cbn; discriminate).
  cbn [parseCheckpoint].
  destruct km as [k| | |]; cbn [Num.isFinite negb orb Num.leb];
    try (exists PInf, stopMin; split; [reflexivity|now left]);
    try (exists NInf, stopMin; split; [reflexivity|now left]);
    try (exists NaN, stopMin; split; [reflexivity|now left]).
  destruct (Qle_bool k 0) eqn:K.
  { exists (Fin k), stopMin. split; [reflexivity|now right]. }
  apply Qle_bool_false in K.
  destruct stopMin as [s| | |]; cbn [Num.isFinite negb orb Num.ltb];
    try (exists k, PInf; split; [reflexivity|split; [exact K|now left]]);
    try (exists k, NInf; split; [reflexivity|split; [exact K|now left]]);
    try (exists k, NaN; split; [reflexivity|split; [exact K|now left]]).
  destruct (Num.Qltb s 0) eqn:S.
  { exists k, (Fin s). split; [reflexivity|split; [exact K|now right]]. }
  apply Qltb_false in S. cbn [Num.mul Num.round].
  exists k, s, (Qfloor (s * 60 + (1 # 2))).
  pose proof (Qfloor_le (s * 60 + (1 # 2))) as A.
  pose proof (Qlt_floor (s * 60 + (1 # 2))) as B.
  rewrite inject_Z_plus in B. change (inject_Z 1) with 1 in B.
  repeat split; try assumption; try lra.
  apply Qfloor_nonneg. lra.
Qed.

Example checkpoints_on_the_command_line :
  parseCheckpoint [NaN; NaN] = inl CheckpointKm
  /\ parseCheckpoint [Fin 18; NaN] = inl CheckpointStop
  /\ parseCheckpoint [Fin 0; Fin 4] = inl CheckpointKm
  /\ parseCheckpoint [Fin 18; Fin 4] = inr (Fin 18, Fin 240)
  /\ parseCheckpoint [Fin 18] = inl CheckpointShape.
Proof. repeat split. Qed.

(** *** Flags *)

Lemma afterFirst_getAllArgs (flag : string) (argv : list string) :
  match getAllArgs flag argv with
  | inr [] => afterFirst flag argv = None
  | inr (v :: _) =>
      exists rest, afterFirst flag argv = Some (v :: rest) /\ noValue (Some v) = false
  | inl _ => True
  end.
Proof.
  induction argv as [|a rest IH]; [reflexivity|].
  cbn [getAllArgs afterFirst]. destruct (String.eqb a flag); [|exact IH].
  destruct rest as [|val rest']; [exact I|].
  destruct (noValue (Some val)) eqn:N; [exact I|].
  destruct (getAllArgs flag rest'); [exact I|].
  now exists rest'.
Qed.

Lemma getAllArgs_values (flag : string) (argv : list string) :
  forall n out, (length argv <= n)%nat -> getAllArgs flag argv = inr out ->
    Forall (fun v => noValue (Some v) = false /\ In v argv) out.
Proof.
  intro n. revert argv. induction n as [|n IH]; intros argv out L H.
  - destruct argv; [|simpl in L; lia]. injection H as <-. constructor.
  - destruct argv as [|a rest]; [injection H as <-; constructor|].
    cbn [getAllArgs] in H. simpl in L.
    destruct (String.eqb a flag).
    + destruct rest as [|val rest']; [discriminate|].
      destruct (noValue (Some val)) eqn:N; [discriminate|].
      destruct (getAllArgs flag rest') as [e|out'] eqn:G; [discriminate|].
      injection H as <-. constructor.
      * split; [exact N|]. right. now left.
      * assert (F : Forall (fun v => noValue (Some v) = false /\ In v rest') out').
        { apply (IH rest' out'); [simpl in L; lia|exact G]. }
        eapply Forall_impl; [|exact F]. cbv beta. intros v [A B].
        split; [exact A|]. right. now right.
    + assert (F : Forall (fun v => noValue (Some v) = false /\ In v rest) out).
      { apply (IH rest out); [lia|exact H]. }
      eapply Forall_impl; [|exact F]. cbv beta. intros v [A B].
      split; [exact A|]. now right.
Qed.

Lemma getArg_first_follower (flag def : string) (argv : list string) :
  getArg flag def argv
  = match followers flag argv with
    | Some v :: _ => if noValue (Some v) then def else v
    | _ => def
    end.
Proof.
  unfold getArg. induction argv as [|a rest IH]; [reflexivity|].
  cbn [afterFirst followers]. destruct (String.eqb a flag); [|exact IH].
  now destruct rest.
Qed.

(** getAllArgs stops at the first occurrence of the flag when no value
    follows it. *)
Lemma getAllArgs_first_follower (flag : string) (argv : list string) :
  match followers flag argv with
  | v :: _ => noValue v = true -> getAllArgs flag argv = inl FlagNeedsValue
  | [] => getAllArgs flag argv = inr []
  end.
Proof.
  induction argv as [|a rest IH]; [reflexivity|].
  cbn [getAllArgs followers]. destruct (String.eqb a flag); [|exact IH].
  destruct rest as [|val rest']; [reflexivity|].
  cbn [hd_error]. now intros ->.
Qed.

(** A value is not a flag that starts with two dashes. *)
Lemma value_is_not_flag (flag val : string) :
  String.prefix "--" flag = true -> noValue (Some val) = false ->
  String.eqb val flag = false.
Proof.
  intros P N. destruct (String.eqb val flag) eqn:E; [|reflexivity].
  apply String.eqb_eq in E. subst val. cbn [noValue] in N.
  rewrite P in N. now rewrite orb_true_r in N.
Qed.

Lemma getAllArgs_followers (flag : string) :
  String.prefix "--" flag = true ->
  forall n argv, (length argv <= n)%nat ->
    getAllArgs flag argv
    = if existsb noValue (followers flag argv) then inl FlagNeedsValue
      else inr (present (followers flag argv)).
Proof.
  intros P n. induction n as [|n IH]; intros argv L.
  - destruct argv; [reflexivity|simpl in L; lia].
  - destruct argv as [|a rest]; [reflexivity|]. simpl in L.
    cbn [getAllArgs followers]. destruct (String.eqb a flag).
    + destruct rest as [|val rest']; [reflexivity|].
      cbn [hd_error existsb]. destruct (noValue (Some val)) eqn:N; [reflexivity|].
      cbn [orb followers]. rewrite (value_is_not_flag flag val P N).
      rewrite (IH rest') by (simpl in L; lia).
      now destruct (existsb noValue (followers flag rest')).
    + apply IH. lia.
Qed.

(** X24. getArg looks at the argument after the first occurrence of the
    flag only: it returns that argument when it is not empty and does not
    start with two dashes, and the default otherwise, so a flag followed by
    another flag or by nothing counts as absent. getAllArgs throws in that
    case. For a flag that starts with two dashes it throws exactly when
    some occurrence of the flag is not followed by such an argument, and
    otherwise returns the arguments that follow the occurrences, in order.
    What it returns are such arguments of the command line, and the first
    is the one getArg returns. *)
Theorem flags_and_values (flag def : string) (argv : list string) :
  getArg flag def argv
  = match followers flag argv with
    | Some v :: _ => if noValue (Some v) then def else v
    | _ => def
    end
  /\ match followers flag argv with
     | v :: _ => noValue v = true -> getAllArgs flag argv = inl FlagNeedsValue
     | [] => getAllArgs flag argv = inr []
     end
  /\ (String.prefix "--" flag = true ->
      getAllArgs flag argv
      = if existsb noValue (followers flag argv) then inl FlagNeedsValue
        else inr (present (followers flag argv)))
  /\ (forall out, getAllArgs flag argv = inr out ->
        Forall (fun v => noValue (Some v) = false /\ In v argv) out
        /\ getArg flag def argv = hd def out).
Proof.
  split; [apply getArg_first_follower|].
  split; [apply getAllArgs_first_follower|].
  split; [intro P; now apply (getAllArgs_followers flag P (length argv))|].
  intros out H. split.
  - now apply (getAllArgs_values flag argv (length argv)).
  - pose proof (afterFirst_getAllArgs flag argv) as A. rewrite H in A.
    unfold getArg. destruct out as [|v out].
    + now rewrite A.
    + destruct A as [rest [-> N]]. now rewrite N.
Qed.

Example flags_on_a_command_line :
  getArg "--target" ""
    ["a.gpx"%string; "--target"%string; "--profile"%string; "trained"%string]
  = ""%string
  /\ getArg "--profile" "trained"
       ["a.gpx"%string; "--target"%string; "--profile"%string; "standard"%string]
     = "standard"%string
  /\ getAllArgs "--cp"
       ["a.gpx"%string; "--cp"%string; "18,4"%string; "--cp"%string; "42,8"%string]
     = inr ["18,4"%string; "42,8"%string]
  /\ getAllArgs "--cp"
       ["a.gpx"%string; "--cp"%string; "--out"%string; "x.json"%string]
     = inl FlagNeedsValue
  /\ getAllArgs "--cp"
       ["a.gpx"%string; "--cp"%string; "18,4"%string; "--cp"%string]
     = inl FlagNeedsValue
  /\ getAllArgs "cp" ["cp"%string; "cp"%string] = inr ["cp"%string].
Proof. repeat split. Qed.

(** *** Rounding to decimals *)

Lemma power_of_ten_pos (n : nat) : 0 < inject_Z (10 ^ Z.of_nat n).
Proof.
  change 0 with (inject_Z 0). rewrite <- Zlt_Qlt.
  apply Z.pow_pos_nonneg; lia.
Qed.

(** X25. round(x, n) of the command line script returns a whole multiple
    of 10^-n within half a unit of the last decimal of x. *)
Theorem roundTo_nearest (x : Q) (n : nat) :
  let p := inject_Z (10 ^ Z.of_nat n) in
  exists r z,
    roundTo (Fin x) n = Fin r
    /\ r * p == inject_Z z
    /\ - (1 # 2) <= (r - x) * p <= 1 # 2.
Proof.
  intro p. pose proof (power_of_ten_pos n) as P. fold p in P.
  unfold roundTo. fold p. cbn [Num.mul Num.round].
  rewrite div_Fin by lra.
  set (z := Qfloor (x * p + (1 # 2))).
  exists (inject_Z z / p), z. split; [reflexivity|].
  pose proof (Qfloor_le (x * p + (1 # 2))) as A.
  pose proof (Qlt_floor (x * p + (1 # 2))) as B.
  fold z in A, B. rewrite inject_Z_plus in B. change (inject_Z 1) with 1 in B.
  assert (E : inject_Z z / p * p == inject_Z z) by (field; lra).
  split; [exact E|].
  assert (D : (inject_Z z / p - x) * p == inject_Z z - x * p) by (field; lra).
  rewrite D. set (zi := inject_Z z) in *. clearbody zi.
  set (xp := x * p) in *. clearbody xp. split; lra.
Qed.

(** ** The stage times add up *)

Lemma uniqueLoop_last (qs : list Q) : forall l : Q,
  nondecreasing (l :: qs) ->
  exists rs,
    uniqueLoop (Some (Fin l)) (map Fin qs) = map Fin rs
    /\ nondecreasing (l :: rs)
    /\ last qs l - 0.001 <= last rs l.
Proof.
  induction qs as [|b qs IH]; intros l S.
  - exists []. cbn [map uniqueLoop last]. repeat split. lra.
  - change (nondecreasing (l :: b :: qs)) with (l <= b /\ nondecreasing (b :: qs)) in S.
    destruct S as [Hb S]. cbn [map uniqueLoop]. rewrite (abs_gap l b Hb).
    assert (Lq : last (b :: qs) l = last qs b).
    { destruct qs; [reflexivity|]. cbn [last]. apply last_cons_indep. }
    rewrite Lq.
    destruct (Num.Qltb 0.001 (b - l)) eqn:G.
    + destruct (IH b S) as [rs [E [Sr L]]].
      exists (b :: rs). rewrite E. split; [reflexivity|]. split; [now split|].
      assert (Lr : last (b :: rs) l = last rs b).
      { destruct rs; [reflexivity|]. cbn [last]. apply last_cons_indep. }
      now rewrite Lr.
    + apply Qltb_false in G.
      assert (S' : nondecreasing (l :: qs)).
      { apply nondecreasing_cons. apply nondecreasing_cons in S. destruct S as [F S].
        split; [|exact S]. eapply Forall_impl; [|exact F]. cbv beta. intros; lra. }
      destruct (IH l S') as [rs [E [Sr L]]].
      exists rs. rewrite E. split; [reflexivity|]. split; [exact Sr|].
      destruct qs as [|q qs].
      * cbn [map uniqueLoop] in E. destruct rs; [|discriminate E].
        cbn [last]. lra.
      * assert (Lb : last (q :: qs) b = last (q :: qs) l) by apply last_cons_indep.
        rewrite Lb. exact L.
Qed.

Lemma nondecreasing_In_last (l : list Q) : forall x q d,
  nondecreasing (x :: l) -> In q (x :: l) -> q <= last (x :: l) d.
Proof.
  induction l as [|y l IH]; intros x q d S H.
  - destruct H as [<-|[]]. cbn [last]. lra.
  - change (nondecreasing (x :: y :: l)) with (x <= y /\ nondecreasing (y :: l)) in S.
    destruct S as [Hxy S].
    change (last (x :: y :: l) d) with (last (y :: l) d).
    destruct H as [<-|H].
    + pose proof (IH y y d S (or_introl eq_refl)). lra.
    + now apply IH.
Qed.

(** *** Stages as intervals of midpoints *)

Lemma inStage_Fin (a b mid : Q) (d : DetailedSegment) :
  midpointM (seg d) = Fin mid ->
  inStage (Fin a * Fin 1000)%num (Fin b * Fin 1000)%num d
  = Qle_bool (a * 1000) mid && Num.Qltb mid (b * 1000).
Proof. intro M. unfold inStage. rewrite M. reflexivity. Qed.

Lemma stage_split (ds : list DetailedSegment) (a b c : Q) :
  a <= b -> b <= c -> Forall timedSegment ds ->
  (sumZ (map wholeValue (map timeSec
           (filter (inStage (Fin a * Fin 1000)%num (Fin b * Fin 1000)%num) ds)))
   + sumZ (map wholeValue (map timeSec
             (filter (inStage (Fin b * Fin 1000)%num (Fin c * Fin 1000)%num) ds))))%Z
  = sumZ (map wholeValue (map timeSec
            (filter (inStage (Fin a * Fin 1000)%num (Fin c * Fin 1000)%num) ds))).
Proof.
  intros Hab Hbc F. induction F as [|d ds [_ [mid [M _]]] _ IH]; [reflexivity|].
  cbn [filter]. rewrite !(inStage_Fin _ _ mid d M).
  destruct (Qle_bool (a * 1000) mid) eqn:A; destruct (Num.Qltb mid (b * 1000)) eqn:B;
    destruct (Qle_bool (b * 1000) mid) eqn:B'; destruct (Num.Qltb mid (c * 1000)) eqn:C;
    cbn [andb map sumZ fold_right] in *; unfold sumZ in *;
    try lia; exfalso; qfacts; lra.
Qed.

Lemma stage_times_whole (ds : list DetailedSegment) (keep : DetailedSegment -> bool) :
  Forall timedSegment ds -> Forall wholeFinite (map timeSec (filter keep ds)).
Proof.
  intro F. apply Forall_map. apply Forall_forall. intros d Hd.
  apply filter_In in Hd. destruct Hd as [Hd _].
  rewrite Forall_forall in F. now destruct (F d Hd).
Qed.

Lemma stepsFrom_times (rawPoints : list Point) (cumRaw : list num)
    (ds : list DetailedSegment) (checkpoints : list (num * num)) :
  Forall timedSegment ds ->
  forall rest from i, nondecreasing (from :: rest) ->
    let sts := stepsFrom rawPoints cumRaw ds checkpoints i (Fin from) (map Fin rest) in
    Forall wholeFinite (map st_movingSec sts)
    /\ sumZ (map wholeValue (map st_movingSec sts))
       = sumZ (map wholeValue (map timeSec
                 (filter (inStage (Fin from * Fin 1000)%num
                            (Fin (last rest from) * Fin 1000)%num) ds))).
Proof.
  intro F. induction rest as [|to rest IH]; intros from i Sd.
  - cbn [map stepsFrom last sumZ fold_right]. split; [constructor|].
    pose proof (stage_split ds from from from (Qle_refl _) (Qle_refl _) F) as H.
    lia.
  - change (nondecreasing (from :: to :: rest))
      with (from <= to /\ nondecreasing (to :: rest)) in Sd.
    destruct Sd as [Hft Sd]. destruct (IH to (S i) Sd) as [W V]. cbv zeta in W, V.
    cbn [map stepsFrom].
    destruct (makeStep_moving rawPoints cumRaw ds checkpoints i (Fin from) (Fin to))
      as [_ [_ Mv]].
    cbv zeta in Mv. unfold segmentsOfStage in Mv.
    assert (Wt : Forall wholeFinite
                   (map timeSec (filter (inStage (Fin from * Fin 1000)%num
                                           (Fin to * Fin 1000)%num) ds)))
      by now apply stage_times_whole.
    pose proof (sumNum_wholeFinite _ Wt) as Sv.
    assert (Hm : st_movingSec
                   (makeStep rawPoints cumRaw ds checkpoints i (Fin from) (Fin to))
                 = Fin (inject_Z (sumZ (map wholeValue (map timeSec
                          (filter (inStage (Fin from * Fin 1000)%num
                                     (Fin to * Fin 1000)%num) ds)))))).
    { rewrite Mv, Sv. apply wholeFinite_round. eexists. reflexivity. }
    rewrite Hm. split.
    + constructor; [eexists; reflexivity|exact W].
    + cbn [map sumZ fold_right wholeValue]. rewrite Qfloor_Z.
      fold (sumZ (map wholeValue (map st_movingSec
              (stepsFrom rawPoints cumRaw ds checkpoints (S i) (Fin to) (map Fin rest))))).
      rewrite V.
      assert (Ll : last (to :: rest) from = last rest to).
      { destruct rest; [reflexivity|]. cbn [last]. apply last_cons_indep. }
      rewrite Ll. apply stage_split; [exact Hft| |exact F].
      destruct rest as [|x rest]; [cbn [last]; lra|].
      apply (nondecreasing_In_last (x :: rest) to to to Sd). now left.
Qed.

Lemma map_last {A B} (f : A -> B) (l : list A) (d : A) :
  last (map f l) (f d) = f (last l d).
Proof.
  induction l as [|x [|y l] IH]; try reflexivity.
  change (last (map f (x :: y :: l)) (f d)) with (last (map f (y :: l)) (f d)).
  now rewrite IH.
Qed.

Lemma filter_all {A} (keep : A -> bool) (l : list A) :
  Forall (fun x => keep x = true) l -> filter keep l = l.
Proof.
  induction 1 as [|x l Hx _ IH]; [reflexivity|].
  cbn [filter]. now rewrite Hx, IH.
Qed.

(** X26. With checkpoints at kilometres that are not negative, segments
    with whole times and midpoints that are not negative, the moving times
    of the stages add up to the times of the segments whose midpoint lies
    before the end of the last stage: each of them is counted in exactly
    one stage. The last stage ends no more than 0.001 km before the total
    distance, so when every midpoint lies below that end the stage times add
    up to the computed moving time. *)
Theorem stage_times_add_up (rawPoints : list Point) (cumRaw : list num)
    (ds : list DetailedSegment) (checkpoints : list (num * num))
    (kms : list Q) (total : Q) :
  map fst checkpoints = map Fin kms ->
  Forall (fun k => 0 <= k) kms ->
  0 <= total ->
  Forall timedSegment ds ->
  let sts :=
    buildSteps rawPoints cumRaw ds checkpoints
      (uniqueBoundariesOf checkpoints (Fin total)) in
  exists lastKm,
    last (map st_toKm sts) (Fin 0) = Fin lastKm
    /\ total - 0.001 <= lastKm
    /\ sumNum (map st_movingSec sts)
       = sumNum (map timeSec (filter (midpointBelowKm lastKm) ds))
    /\ (Forall (fun d => midpointBelowKm lastKm d = true) ds ->
        sumNum (map st_movingSec sts) = sumNum (map timeSec ds)).
Proof.
  intros K Fk Ht F sts.
  destruct (sortNum_zero_first (kms ++ [total])) as [zs [E [S [_ M]]]].
  { apply Forall_app. split; [exact Fk|]. now constructor. }
  destruct (uniqueLoop_last zs 0 S) as [rs [E' [Sr L]]].
  assert (B : uniqueBoundariesOf checkpoints (Fin total) = map Fin (0 :: rs)).
  { unfold uniqueBoundariesOf. rewrite K.
    replace (Fin 0 :: map Fin kms ++ [Fin total]) with (map Fin (0 :: kms ++ [total]))
      by (cbn [map]; now rewrite map_app).
    rewrite E. cbn [map uniqueLoop]. now rewrite E'. }
  unfold sts. rewrite B. cbn [map buildSteps].
  destruct (stepsFrom_times rawPoints cumRaw ds checkpoints F rs 0 O Sr) as [W V].
  destruct (stepsFrom_shape rawPoints cumRaw ds checkpoints (map Fin rs) O (Fin 0))
    as [_ [_ C]].
  cbv zeta in W, V, C.
  exists (last rs 0). rewrite C.
  assert (Eq : forall d, In d ds ->
            inStage (Fin 0 * Fin 1000)%num (Fin (last rs 0) * Fin 1000)%num d
            = midpointBelowKm (last rs 0) d).
  { intros d Hd. rewrite Forall_forall in F. destruct (F d Hd) as [_ [mid [Md H0]]].
    rewrite (inStage_Fin _ _ mid d Md). unfold midpointBelowKm. rewrite Md.
    cbn [Num.mul Num.ltb].
    assert (A : Qle_bool (0 * 1000) mid = true) by (apply Qle_bool_iff; lra).
    now rewrite A. }
  assert (Sum : sumNum (map st_movingSec
                  (stepsFrom rawPoints cumRaw ds checkpoints 0 (Fin 0) (map Fin rs)))
                = sumNum (map timeSec (filter (midpointBelowKm (last rs 0)) ds))).
  { rewrite (sumNum_wholeFinite _ W), V.
    rewrite (filter_ext_in _ _ _ Eq).
    symmetry. apply sumNum_wholeFinite. now apply stage_times_whole. }
  split; [|split; [|split; [exact Sum|]]].
  - apply map_last.
  - assert (T : total <= last zs 0).
    { destruct zs as [|z zs].
      - exfalso. apply (proj2 (M total)). apply in_app_iff. right. now left.
      - assert (Sz : nondecreasing (z :: zs)).
        { change (nondecreasing (0 :: z :: zs)) with (0 <= z /\ nondecreasing (z :: zs))
            in S. tauto. }
        apply (nondecreasing_In_last zs z total 0 Sz).
        apply M. apply in_app_iff. right. now left. }
    lra.
  - intro All. rewrite Sum. now rewrite filter_all.
Qed.

Lemma fiveDetailed_timed : Forall timedSegment Demo.fiveDetailed.
Proof.
  repeat constructor; try (exists 144%Z; reflexivity); try (exists 150%Z; reflexivity);
    try (exists 139%Z; reflexivity); try (exists 161%Z; reflexivity);
    eexists; (split; [reflexivity|discriminate]).
Defined.

Lemma stage_times_add_up_witness :
  map fst [(Fin 1.2, Fin 5)] = map Fin [1.2]
  /\ Forall (fun k => 0 <= k) [1.2]
  /\ 0 <= 2
  /\ Forall timedSegment Demo.fiveDetailed
  /\ exists lastKm,
       2 - 0.001 <= lastKm
       /\ sumNum (map st_movingSec
            (buildSteps Demo.rawPoints Demo.cumulativeDistances Demo.fiveDetailed
               [(Fin 1.2, Fin 5)] (uniqueBoundariesOf [(Fin 1.2, Fin 5)] (Fin 2))))
          = sumNum (map timeSec (filter (midpointBelowKm lastKm) Demo.fiveDetailed)).
Proof.
  assert (K : map fst [(Fin 1.2, Fin 5)] = map Fin [1.2]) by reflexivity.
  assert (F : Forall (fun k => 0 <= k) [1.2]) by (repeat constructor; discriminate).
  assert (T : 0 <= 2) by discriminate.
  split; [exact K|]. split; [exact F|]. split; [exact T|].
  split; [exact fiveDetailed_timed|].
  destruct (stage_times_add_up Demo.rawPoints Demo.cumulativeDistances
              Demo.fiveDetailed [(Fin 1.2, Fin 5)] [1.2] 2 K F T fiveDetailed_timed)
    as [lastKm [_ [L [S _]]]].
  exists lastKm. split; [exact L|exact S].
Defined.

(** ** Sections between boundaries (index.ts) *)

Lemma notAscending_increasing (rest : list Q) : forall prev : Q,
  notAscending (Fin prev) (map Fin rest) = false <-> increasing (prev :: rest).
Proof.
  induction rest as [|b rest IH]; intro prev.
  - cbn. tauto.
  - cbn [map notAscending Num.leb].
    change (increasing (prev :: b :: rest)) with (prev < b /\ increasing (b :: rest)).
    rewrite orb_false_iff, IH. split.
    + intros [A B]. apply Qle_bool_false in A. tauto.
    + intros [A B]. split; [now apply Qle_bool_false|exact B].
Qed.

Lemma sectionsFrom_shape (rest : list num) : forall start,
  map startKm (sectionsFrom start rest) = removelast (start :: rest)
  /\ map endKm (sectionsFrom start rest) = rest.
Proof.
  induction rest as [|e rest IH]; intro start; [split; reflexivity|].
  destruct (IH e) as [A B]. cbn [sectionsFrom map startKm endKm].
  change (removelast (start :: e :: rest)) with (start :: removelast (e :: rest)).
  now rewrite A, B.
Qed.

(** X27. On finite boundaries buildSectionsFromBoundaries succeeds exactly
    when there are at least two boundaries in strictly increasing order,
    and then returns one section per pair of consecutive boundaries, each
    starting where the previous one ends. The order test is a comparison,
    so a boundary that is NaN passes it. *)
Theorem sections_from_boundaries (boundaries : list Q) :
  match buildSectionsFromBoundaries (map Fin boundaries) with
  | inr sections =>
      (2 <= length boundaries)%nat /\ increasing boundaries
      /\ map startKm sections = map Fin (removelast boundaries)
      /\ map endKm sections = map Fin (tl boundaries)
  | inl TooFewBoundaries => (length boundaries < 2)%nat
  | inl BoundariesNotAscending =>
      (2 <= length boundaries)%nat /\ ~ increasing boundaries
  | inl _ => False
  end
  /\ forall a b : Q,
       buildSectionsFromBoundaries [Fin a; NaN; Fin b]
       = inr [mkSectionConfig (Fin a) NaN; mkSectionConfig NaN (Fin b)].
Proof.
  split; [|reflexivity].
  destruct boundaries as [|b0 [|b1 rest]]; try (cbn; lia).
  cbn [map buildSectionsFromBoundaries].
  change (Fin b1 :: map Fin rest) with (map Fin (b1 :: rest)).
  destruct (notAscending (Fin b0) (map Fin (b1 :: rest))) eqn:N.
  - split; [cbn; lia|]. intro I. apply notAscending_increasing in I. congruence.
  - apply notAscending_increasing in N.
    destruct (sectionsFrom_shape (map Fin (b1 :: rest)) (Fin b0)) as [A B].
    split; [cbn; lia|]. split; [exact N|]. split.
    + rewrite A. change (Fin b0 :: map Fin (b1 :: rest)) with (map Fin (b0 :: b1 :: rest)).
      apply removelast_map.
    + exact B.
Qed.

(** ** The statistics of a section (index.ts) *)






Example shared_boundary_point :
  computeSectionsStats
    [(Fin 0, Fin 100); (Fin 1, Fin 130); (Fin 2, Fin 110); (Fin 3, Fin 150)]
    [mkSectionConfig (Fin 0) (Fin 2); mkSectionConfig (Fin 2) (Fin 3)]
  = inr [mkSectionStats (Fin 0) (Fin 2) (Fin 2) (Fin 30) (Fin 20);
         mkSectionStats (Fin 2) (Fin 3) (Fin 1) (Fin 40) (Fin 0)].
Proof. vm_compute. reflexivity. Qed.

(** ** Pacing from the maximal aerobic speed (index.ts) *)

Lemma sameKey_add (a b t : num) :
  sameKey a b = true -> sameKey (a + t)%num (b + t)%num = true.
Proof.
  destruct a as [x| | |], b as [y| | |]; try discriminate; intro H;
    destruct t as [z| | |]; try reflexivity.
  cbn [Num.add sameKey] in *. apply Qeq_bool_eq in H. apply Qeq_eq_bool.
  now rewrite H.
Qed.

Lemma sameKey_add_zero (a b : num) :
  sameKey a b = true -> sameKey a (b + Fin 0)%num = true.
Proof.
  destruct a as [x| | |], b as [y| | |]; try discriminate; intro H; try reflexivity.
  cbn [Num.add sameKey] in *. apply Qeq_bool_eq in H. apply Qeq_eq_bool.
  rewrite H. ring.
Qed.

Lemma paceSections_total (vBase hill fatigue prudence : num)
    (sections : list SectionStats) : forall total cum : num,
  exists paced total' cum',
    paceSections vBase hill fatigue prudence sections (total, cum)
    = (paced, (total', cum'))
    /\ map p_stats paced = sections
    /\ forall acc, sameKey total acc = true ->
         sameKey total' (fold_left Num.add (map p_targetTimeSec paced) acc) = true.
Proof.
  induction sections as [|s rest IH]; intros total cum.
  - exists [], total, cum. repeat split. intros acc H. exact H.
  - cbn [paceSections]. unfold paceSection.
    destruct (s_distKm s <=? Fin 0)%num.
    + destruct (IH total cum) as [paced [total' [cum' [E [M T]]]]].
      rewrite E. do 3 eexists. split; [reflexivity|].
      cbn [map p_stats p_targetTimeSec fold_left]. split; [now rewrite M|].
      intros acc H. apply T. now apply sameKey_add_zero.
    + match goal with
      | |- context [paceSections _ _ _ _ rest (?t, ?c)] =>
          destruct (IH t c) as [paced [total' [cum' [E [M T]]]]]
      end.
      rewrite E. do 3 eexists. split; [reflexivity|].
      cbn [map p_stats p_targetTimeSec fold_left]. split; [now rewrite M|].
      intros acc H. apply T. now apply sameKey_add.
Qed.

(** With no fatigue and no prudence every section runs at the base speed. *)
Lemma paceSections_base_speed (vBase hill : Q) (sections : list SectionStats) :
  0 < vBase ->
  Forall (fun s => exists d g l,
            s_distKm s = Fin d /\ s_dPlus s = Fin g /\ s_dMinus s = Fin l) sections ->
  forall (total : num) (cum : Q), cum == 0 ->
    Forall (fun p =>
              forall d g, s_distKm (p_stats p) = Fin d -> s_dPlus (p_stats p) = Fin g ->
                0 < d ->
                exists t q,
                  p_targetTimeSec p = Fin t /\ p_targetPaceMinPerKm p = Fin q
                  /\ t == (d + g / 100 * hill) / vBase * 3600
                  /\ q * d * 60 == t)
      (fst (paceSections (Fin vBase) (Fin hill) (Fin 0) (Fin 0) sections
              (total, Fin cum))).
Proof.
  intros Hv F. induction F as [|s rest [d [g [l [D [G L]]]]] _ IH]; intros total cum Hc.
  - constructor.
  - cbn [paceSections]. unfold paceSection. rewrite D, G, L.
    cbn [Num.leb Num.gtb Num.ltb].
    destruct (Qle_bool d 0) eqn:P.
    + specialize (IH total cum Hc).
      destruct (paceSections _ _ _ _ rest (total, Fin cum)) as [others final].
      cbn [fst] in *. constructor; [|exact IH].
      cbn [p_stats]. intros d' g' D' _ Hd. rewrite D in D'. injection D' as <-.
      apply Qle_bool_iff in P. lra.
    + apply Qle_bool_false in P.
      set (reduction := if Num.Qltb 0 l
                        then (Fin 1 - Fin l / Fin 100 * Fin 0)%num else Fin 1).
      assert (R : exists r, reduction = Fin r /\ r == 1).
      { unfold reduction. destruct (Num.Qltb 0 l).
        - rewrite div_Fin by lra. cbn [Num.mul Num.sub Num.opp Num.add].
          eexists. split; [reflexivity|]. ring.
        - exists 1. split; reflexivity. }
      destruct R as [r [Er Hr]]. rewrite Er.
      cbn [Num.sub Num.opp Num.add Num.mul].
      rewrite (div_Fin g 100) by lra. cbn [Num.mul Num.add].
      assert (V : vBase * (1 + - cum) * r == vBase) by (rewrite Hr, Hc; ring).
      rewrite div_Fin by (rewrite V; lra). cbn [Num.mul].
      rewrite div_Fin by lra. rewrite div_Fin by lra.
      match goal with
      | |- context [paceSections _ _ _ _ rest (?t, Fin ?c)] =>
          specialize (IH t c ltac:(rewrite Hc; ring));
            destruct (paceSections (Fin vBase) (Fin hill) (Fin 0) (Fin 0) rest (t, Fin c))
              as [others final]
      end.
      cbn [fst] in *. constructor; [|exact IH].
      cbn [p_stats p_targetTimeSec p_targetPaceMinPerKm].
      intros d' g' D' G' Hd. rewrite D in D'. injection D' as <-.
      rewrite G in G'. injection G' as <-.
      do 2 eexists. split; [reflexivity|]. split; [reflexivity|]. split.
      * rewrite V. reflexivity.
      * field. lra.
Qed.

(** X29. On finite parameters computePacingFromVMA succeeds exactly when
    the speed is positive, the fraction lies in (0, 1], the hill factor is
    not negative and the fatigue and the descent prudence lie in [0, 1]; the
    tests are made in that order. On success there is one paced section per
    section, in order, and the total time is the sum of the section times.
    Without fatigue and descent prudence a section of positive distance d
    and gain g takes (d + g / 100 * hillFactor) / (vma * percent) hours, and
    its pace times its distance is its time. *)
Theorem pacing_from_vma (sections : list SectionStats)
    (vma percent hill fatigue prudence : Q) :
  match computePacingFromVMA sections (Fin vma) (Fin percent) (Fin hill)
          (Fin fatigue) (Fin prudence) with
  | inr (paced, totalTimeSec) =>
      0 < vma /\ 0 < percent <= 1 /\ 0 <= hill
      /\ 0 <= fatigue <= 1 /\ 0 <= prudence <= 1
      /\ map p_stats paced = sections
      /\ sameKey totalTimeSec (sumNum (map p_targetTimeSec paced)) = true
  | inl VmaNotPositive => vma <= 0
  | inl VmaPercentOutOfRange => 0 < vma /\ (percent <= 0 \/ 1 < percent)
  | inl HillFactorNegative => 0 < vma /\ 0 < percent <= 1 /\ hill < 0
  | inl FatigueOutOfRange =>
      0 < vma /\ 0 < percent <= 1 /\ 0 <= hill /\ (fatigue < 0 \/ 1 < fatigue)
  | inl DescentPrudenceOutOfRange =>
      0 < vma /\ 0 < percent <= 1 /\ 0 <= hill /\ 0 <= fatigue <= 1
      /\ (prudence < 0 \/ 1 < prudence)
  | inl _ => False
  end
  /\ (0 < vma -> 0 < percent <= 1 -> 0 <= hill ->
      Forall (fun s => exists d g l,
                s_distKm s = Fin d /\ s_dPlus s = Fin g /\ s_dMinus s = Fin l)
        sections ->
      exists paced totalTimeSec,
        computePacingFromVMA sections (Fin vma) (Fin percent) (Fin hill)
          (Fin 0) (Fin 0) = inr (paced, totalTimeSec)
        /\ Forall (fun p =>
                     forall d g,
                       s_distKm (p_stats p) = Fin d -> s_dPlus (p_stats p) = Fin g ->
                       0 < d ->
                       exists t q,
                         p_targetTimeSec p = Fin t /\ p_targetPaceMinPerKm p = Fin q
                         /\ t == (d + g / 100 * hill) / (vma * percent) * 3600
                         /\ q * d * 60 == t)
             paced).
Proof.
  split.
  - unfold computePacingFromVMA. cbn [Num.leb Num.gtb Num.ltb].
    destruct (Qle_bool vma 0) eqn:A; [now apply Qle_bool_iff in A|].
    apply Qle_bool_false in A.
    destruct (Qle_bool percent 0) eqn:B1; cbn [orb].
    { apply Qle_bool_iff in B1. split; [exact A|now left]. }
    apply Qle_bool_false in B1.
    destruct (Num.Qltb 1 percent) eqn:B2.
    { apply Qltb_true in B2. split; [exact A|now right]. }
    apply Qltb_false in B2.
    destruct (Num.Qltb hill 0) eqn:C.
    { apply Qltb_true in C. repeat split; assumption. }
    apply Qltb_false in C.
    destruct (Num.Qltb fatigue 0) eqn:D1; cbn [orb].
    { apply Qltb_true in D1. repeat split; try assumption. now left. }
    apply Qltb_false in D1.
    destruct (Num.Qltb 1 fatigue) eqn:D2.
    { apply Qltb_true in D2. repeat split; try assumption. now right. }
    apply Qltb_false in D2.
    destruct (Num.Qltb prudence 0) eqn:E1; cbn [orb].
    { apply Qltb_true in E1. repeat split; try assumption. now left. }
    apply Qltb_false in E1.
    destruct (Num.Qltb 1 prudence) eqn:E2.
    { apply Qltb_true in E2. repeat split; try assumption. now right. }
    apply Qltb_false in E2.
    destruct (paceSections_total (Fin vma * Fin percent)%num (Fin hill) (Fin fatigue)
                (Fin prudence) sections (Fin 0) (Fin 0))
      as [paced [total' [cum' [E [M T]]]]].
    rewrite E. repeat split; try assumption.
    apply T. reflexivity.
  - intros Hv Hp Hh F. unfold computePacingFromVMA. cbn [Num.leb Num.gtb Num.ltb].
    assert (A : Qle_bool vma 0 = false) by (apply Qle_bool_false; lra).
    assert (B1 : Qle_bool percent 0 = false) by (apply Qle_bool_false; lra).
    assert (B2 : Num.Qltb 1 percent = false) by (apply Qltb_false; lra).
    assert (C : Num.Qltb hill 0 = false) by (apply Qltb_false; lra).
    rewrite A, B1, B2, C. cbn [orb].
    assert (Z0 : Num.Qltb 0 0 = false) by reflexivity.
    assert (Z1 : Num.Qltb 1 0 = false) by reflexivity.
    rewrite Z0, Z1. cbn [orb Num.mul].
    assert (Vb : 0 < vma * percent) by nra.
    pose proof (paceSections_base_speed (vma * percent) hill sections Vb F
                  (Fin 0) 0 (Qeq_refl 0)) as H.
    destruct (paceSections _ _ _ _ sections (Fin 0, Fin 0)) as [paced [total' cum']].
    cbn [fst] in H. exists paced, total'. split; [reflexivity|exact H].
Qed.

Example fatigue_can_stop_the_runner :
  let section := mkSectionStats (Fin 0) (Fin 10) (Fin 10) (Fin 0) (Fin 0) in
  match computePacingFromVMA [section; section; section; section]
          (Fin 16) (Fin 0.5) (Fin 1) (Fin 0.5) (Fin 0) with
  | inr (paced, totalTimeSec) =>
      Forall2 (fun p t => (p_targetTimeSec p =? t)%num = true) paced
        [Fin 4500; Fin 9000; PInf; Fin (-9000)]
      /\ totalTimeSec = PInf
  | inl _ => False
  end.
Proof. vm_compute. repeat constructor. Qed.

(** *** The pace text of index.ts *)

(** X30. formatPace of index.ts prints every finite pace other than 0,
    a negative one too: the floor of the pace as minutes, not padded, then
    the rest in seconds, rounded, from 0 to 60, and the suffix /km. The text
    is within half a second of the pace, but a rounding up to 60 seconds is
    not carried into the minute: the seconds are 60 exactly when the pace is
    within half a second below a full minute. A pace of 0 or one that is
    not finite gives N/A. *)
Theorem formatPace_fields (x : Q) :
  ~ x == 0 ->
  exists s : Z,
    formatPace (Fin x)
    = (integerToString (Qfloor x) ++ ":" ++ pad2 (Fin (inject_Z s)) ++ "/km")%string
    /\ (0 <= s <= 60)%Z
    /\ - (1 # 2) <= inject_Z (60 * Qfloor x + s) - 60 * x <= 1 # 2
    /\ (s = 60%Z <-> 59.5 <= (x - inject_Z (Qfloor x)) * 60)
    /\ formatPace (Fin 0) = "N/A"%string
    /\ formatPace NaN = "N/A"%string
    /\ formatPace PInf = "N/A"%string
    /\ formatPace NInf = "N/A"%string.
Proof.
  intro Hx.
  pose proof (Qfloor_le x) as A. pose proof (Qlt_floor x) as B.
  rewrite inject_Z_plus in B. change (inject_Z 1) with 1 in B.
  set (m := Qfloor x) in *.
  assert (Hr : 0 <= (x - inject_Z m) * 60 < 60) by (split; lra).
  destruct (rounded_remainder _ Hr) as [Hs [Acc Full]].
  set (s := Qfloor ((x - inject_Z m) * 60 + (1 # 2))) in *.
  exists s. split; [|split; [exact Hs|split; [|split; [exact Full|]]]].
  - unfold formatPace. cbn [Num.eqb Num.isFinite negb orb].
    assert (E : Qeq_bool x 0 = false) by now apply Qeq_bool_false.
    rewrite E.
    cbn [Num.floor Num.sub Num.opp Num.add Num.mul Num.round]. fold m.
    change (Qfloor ((x + - inject_Z m) * 60 + (1 # 2))) with s.
    unfold wholeToString. now rewrite Qfloor_Z.
  - rewrite inject_Z_plus, inject_Z_mult. change (inject_Z 60) with 60.
    split; lra.
  - repeat split.
Qed.

Lemma formatPace_fields_witness :
  ~ 5.999 == 0
  /\ exists s : Z,
       formatPace (Fin 5.999) = "5:60/km"%string
       /\ formatPaceFromMinutes (Fin 5.999) = "06:00"%string
       /\ s = 60%Z.
Proof.
  assert (N : ~ 5.999 == 0) by (intro H; discriminate H).
  split; [exact N|].
  destruct (formatPace_fields 5.999 N) as [s [E [_ [_ [Full _]]]]].
  exists s. split; [reflexivity|]. split; [reflexivity|].
  apply Full. intro H. discriminate H.
Defined.

Example pace_of_a_negative_time :
  formatPace (Fin (-2.25)) = "-3:45/km"%string
  /\ formatPace (Fin 4.5) = "4:30/km"%string
  /\ formatPace (Fin 12) = "12:00/km"%string.
Proof. repeat split. Qed.
